(** * Slate's linear algebra compiler (firedrake/slate/slac/compiler.py)

    A shallow embedding of the expression-to-kernel lowering of
    [compiler.py] and the properties of its specification.

    Layout of the development:
    - Python values and exceptions ([exn], [result], dictionaries kept in
      insertion order);
    - Slate expressions ([expr]) with the attributes the compiler reads;
    - the Eigen C++ text built by [slate_to_cpp], kept as a tree ([cpp])
      together with its printer [gencode_cpp];
    - the COFFEE nodes the compiler builds ([cexp], [stmt]);
    - the kernel builders, taken as records of what the compiler reads
      from them;
    - the compiler functions, one definition per Python function;
    - a small semantics of the emitted statements (which assembly calls
      run, which names are read and written);
    - the theorems. *)

From Stdlib Require Import List String Ascii ZArith Lia Bool Arith.
From Stdlib Require Import Permutation Sorted SetoidList OrderedTypeEx DecimalString
  DecimalNat.
From stdpp Require Import gmap strings.
Import ListNotations.

Local Open Scope list_scope.
Local Open Scope nat_scope.

(** ** Python exceptions and fallible computations *)

Inductive exn : Type :=
| NotImplementedError (msg : string)
| ValueError (msg : string)
| KeyError (key : string)
| IndexError
| AttributeError (attr : string).

Inductive result (A : Type) : Type :=
| Ok (a : A)
| Raise (e : exn).
Arguments Ok {A} a.
Arguments Raise {A} e.

Definition bind {A B : Type} (c : result A) (k : A -> result B) : result B :=
  match c with
  | Ok a => k a
  | Raise e => Raise e
  end.

Notation "x <~ c ;; k" := (bind c (fun x => k))
  (at level 100, c at next level, right associativity).
#[warnings="-notation-incompatible-prefix"]
Notation "' p <~ c ;; k" := (bind c (fun x => match x with p => k end))
  (at level 100, p pattern, c at next level, right associativity).

Definition is_ok {A : Type} (c : result A) : bool :=
  match c with Ok _ => true | Raise _ => false end.

(** [seq[i]] on a Python sequence. *)
Definition index {A : Type} (l : list A) (i : nat) : result A :=
  match nth_error l i with
  | Some x => Ok x
  | None => Raise IndexError
  end.

(** ["%d" % n] for a non-negative integer. *)
Definition fmt_d (n : nat) : string := NilEmpty.string_of_uint (Nat.to_uint n).

Definition cat (ss : list string) : string := fold_right String.append EmptyString ss.

(** ** Slate expressions

    The attributes of a [slate.TensorBase] node that the compiler reads
    ([shape], [rank], [prec], [shapes]) are computed in [slate.py]; here
    every node carries them. *)

Record attrs : Type := mk_attrs {
  shape : list nat;
  rank : nat;
  prec : option nat;
  shapes : list (list nat)
}.

(** A coefficient function: what [gem_to_loopy] asks of it. *)
Record Function_ : Type := mk_function {
  fn_id : nat;
  element_is_mixed : bool;   (* type(c.ufl_element()) == MixedElement *)
  n_split : nat              (* len(c.split()) *)
}.

Inductive expr : Type :=
| Tensor (a : attrs) (form : nat)
| AssembledVector (a : attrs) (_function : Function_)
| Transpose (a : attrs) (tensor : expr)
| Inverse (a : attrs) (tensor : expr)
| Negative (a : attrs) (tensor : expr)
| Add (a : attrs) (A B : expr)
| Mul (a : attrs) (A B : expr)
| Block (a : attrs) (tensor : expr) (_indices : list (list nat))
| Solve (a : attrs) (A B : expr)
| Factorization (a : attrs) (tensor : expr) (decomposition : string).

Definition attrs_of (e : expr) : attrs :=
  match e with
  | Tensor a _ | AssembledVector a _ | Transpose a _ | Inverse a _
  | Negative a _ | Add a _ _ | Mul a _ _ | Block a _ _ | Solve a _ _
  | Factorization a _ _ => a
  end.

Definition operands (e : expr) : list expr :=
  match e with
  | Tensor _ _ | AssembledVector _ _ => []
  | Transpose _ t | Inverse _ t | Negative _ t | Block _ t _
  | Factorization _ t _ => [t]
  | Add _ x y | Mul _ x y | Solve _ x y => [x; y]
  end.

Definition attrs_eq_dec (x y : attrs) : {x = y} + {x <> y}.
Proof.
  decide equality;
    repeat (apply list_eq_dec || apply option_eq_dec || apply Nat.eq_dec || intros).
Defined.

Definition function_eq_dec (x y : Function_) : {x = y} + {x <> y}.
Proof. decide equality; (apply Nat.eq_dec || apply Bool.bool_dec). Defined.

Definition expr_eq_dec (x y : expr) : {x = y} + {x <> y}.
Proof.
  decide equality;
    try apply attrs_eq_dec; try apply function_eq_dec; try apply Nat.eq_dec;
    try apply string_dec;
    repeat (apply list_eq_dec || apply Nat.eq_dec || intros).
Defined.

Definition is_Tensor (e : expr) : bool :=
  match e with Tensor _ _ => true | _ => false end.
Definition is_AssembledVector (e : expr) : bool :=
  match e with AssembledVector _ _ => true | _ => false end.
Definition is_Negative (e : expr) : bool :=
  match e with Negative _ _ => true | _ => false end.
Definition is_Transpose (e : expr) : bool :=
  match e with Transpose _ _ => true | _ => false end.
Definition is_Factorization (e : expr) : bool :=
  match e with Factorization _ _ _ => true | _ => false end.
Definition is_Block (e : expr) : bool :=
  match e with Block _ _ _ => true | _ => false end.

(** Number of nodes. *)
Fixpoint esize (e : expr) : nat :=
  match e with
  | Tensor _ _ | AssembledVector _ _ => 1
  | Transpose _ t | Inverse _ t | Negative _ t | Block _ t _
  | Factorization _ t _ => S (esize t)
  | Add _ x y | Mul _ x y | Solve _ x y => S (esize x + esize y)
  end.

(** [subexpr s e]: [s] is a node of the DAG rooted at [e]. *)
Fixpoint subexpr (s e : expr) : Prop :=
  s = e \/
  match e with
  | Tensor _ _ | AssembledVector _ _ => False
  | Transpose _ t | Inverse _ t | Negative _ t | Block _ t _
  | Factorization _ t _ => subexpr s t
  | Add _ x y | Mul _ x y | Solve _ x y => subexpr s x \/ subexpr s y
  end.

Definition strict_subexpr (s e : expr) : Prop :=
  Exists (subexpr s) (operands e).

(** ** Dictionaries keyed by expressions

    [declared_temps] and [builder.temps] are Python dictionaries whose
    length and iteration order the compiler uses, so they are kept as
    association lists in insertion order. *)

Definition edict : Type := list (expr * string).

Fixpoint lookup_temp (e : expr) (d : edict) : option string :=
  match d with
  | [] => None
  | (k, v) :: r => if expr_eq_dec e k then Some v else lookup_temp e r
  end.

(** [d[e] = t] *)
Fixpoint dict_set (e : expr) (t : string) (d : edict) : edict :=
  match d with
  | [] => [(e, t)]
  | (k, v) :: r => if expr_eq_dec e k then (k, t) :: r else (k, v) :: dict_set e t r
  end.

(** ** Eigen C++ text

    [slate_to_cpp] builds a string; the tree below has one constructor per
    format string, and [gencode_cpp] prints it.  The first argument of an
    operator node records the Slate node it evaluates; the printer does
    not look at it. *)

Inductive cpp : Type :=
| CSym (name : string)                                    (* temps[expr].gencode() *)
| CTranspose (src : expr) (c : cpp)                       (* "(%s).transpose()" *)
| CInverse (src : expr) (c : cpp)                         (* "(%s).inverse()" *)
| CNeg (src : expr) (c : cpp)                             (* "-%s" *)
| CBin (src : expr) (op : string) (a b : cpp)             (* "%s %s %s" *)
| CBlock (src : expr) (c : cpp) (rshape cshape rstart cstart : nat)
                                                          (* "(%s).block<%d, %d>(%d, %d)" *)
| CSolve (src : expr) (a b : cpp)                         (* "%s.solve(%s)" *)
| CParen (c : cpp).                                       (* "(%s)" *)

Fixpoint gencode_cpp (c : cpp) : string :=
  match c with
  | CSym n => n
  | CTranspose _ c => cat ["("; gencode_cpp c; ").transpose()"]%string
  | CInverse _ c => cat ["("; gencode_cpp c; ").inverse()"]%string
  | CNeg _ c => cat ["-"; gencode_cpp c]%string
  | CBin _ op a b => cat [gencode_cpp a; " "; op; " "; gencode_cpp b]%string
  | CBlock _ c rs cs r0 c0 =>
      cat ["("; gencode_cpp c; ").block<"; fmt_d rs; ", "; fmt_d cs; ">(";
           fmt_d r0; ", "; fmt_d c0; ")"]%string
  | CSolve _ a b => cat [gencode_cpp a; ".solve("; gencode_cpp b; ")"]%string
  | CParen c => cat ["("; gencode_cpp c; ")"]%string
  end.

(** [parenthesize(arg, prec, parent)] *)
Definition parenthesize (arg : cpp) (prec_ parent : option nat) : cpp :=
  match prec_, parent with
  | Some p, Some q => if q <=? p then arg else CParen arg
  | _, _ => arg
  end.

(** [all(ids[i] + 1 == ids[i + 1] for i in range(len(ids) - 1))] *)
Fixpoint contiguous (ids : list nat) : bool :=
  match ids with
  | a :: ((b :: _) as r) => (a + 1 =? b) && contiguous r
  | _ => true
  end.

(** [min(ids)] *)
Definition py_min (ids : list nat) : result nat :=
  match ids with
  | [] => Raise (ValueError "min() arg is an empty sequence")
  | a :: r => Ok (fold_left Nat.min r a)
  end.

(** [ridx, cidx = indices], falling back to [ridx, = indices; cidx = 0];
    every index is given as the tuple [as_tuple] makes of it.  The
    exception that leaves is the one of the second unpacking. *)
Definition unpack_indices (indices : list (list nat)) : result (list nat * list nat) :=
  match indices with
  | [ridx; cidx] => Ok (ridx, cidx)
  | [ridx] => Ok (ridx, [0])
  | [] => Raise (ValueError "not enough values to unpack (expected 1, got 0)")
  | _ => Raise (ValueError "too many values to unpack (expected 1)")
  end.

Definition non_contiguous_msg : string := "Non-contiguous blocks not implemented".
Definition unsupported_type_msg : string := "Type %s not supported.".

(** [sum(tensor.shapes[axis][:min(ids)])]: the subscript [shapes[axis]]
    is evaluated before [min(ids)]. *)
Definition block_start (tensor : expr) (axis : nat) (ids : list nat) : result nat :=
  exts <~ match nth_error (shapes (attrs_of tensor)) axis with
          | Some l => Ok l
          | None => Raise (KeyError (fmt_d axis))
          end ;;
  k <~ py_min ids ;;
  Ok (list_sum (firstn k exts)).

Fixpoint slate_to_cpp (e : expr) (temps : edict) (prec_ : option nat) : result cpp :=
  match lookup_temp e temps with
  | Some t => Ok (CSym t)
  | None =>
    match e with
    | Transpose _ tensor =>
        c <~ slate_to_cpp tensor temps None ;;
        Ok (CTranspose e c)
    | Inverse _ tensor =>
        c <~ slate_to_cpp tensor temps None ;;
        Ok (CInverse e c)
    | Negative a tensor =>
        c <~ slate_to_cpp tensor temps (prec a) ;;
        Ok (parenthesize (CNeg e c) (prec a) prec_)
    | Add a x y =>
        cx <~ slate_to_cpp x temps (prec a) ;;
        cy <~ slate_to_cpp y temps (prec a) ;;
        Ok (parenthesize (CBin e "+" cx cy) (prec a) prec_)
    | Mul a x y =>
        cx <~ slate_to_cpp x temps (prec a) ;;
        cy <~ slate_to_cpp y temps (prec a) ;;
        Ok (parenthesize (CBin e "*" cx cy) (prec a) prec_)
    | Block a tensor indices =>
        '(rids, cids) <~ unpack_indices indices ;;
        if negb (contiguous rids && contiguous cids)
        then Raise (NotImplementedError non_contiguous_msg)
        else
          rshape <~ index (shape a) 0 ;;
          rstart <~ block_start tensor 0 rids ;;
          '(cshape, cstart) <~
             (if rank a =? 1 then Ok (1, 0)
              else cshape <~ index (shape a) 1 ;;
                   cstart <~ block_start tensor 1 cids ;;
                   Ok (cshape, cstart)) ;;
          c <~ slate_to_cpp tensor temps (prec a) ;;
          Ok (parenthesize (CBlock e c rshape cshape rstart cstart) (prec a) prec_)
    | Solve a x y =>
        cx <~ slate_to_cpp x temps (prec a) ;;
        cy <~ slate_to_cpp y temps (prec a) ;;
        Ok (parenthesize (CSolve e cx cy) (prec a) prec_)
    | _ => Raise (NotImplementedError unsupported_type_msg)
    end
  end.

(** ["%d-rank tensors are not supported." % len(shape)] *)
Definition rank_msg (n : nat) : string :=
  cat [fmt_d n; "-rank tensors are not supported."]%string.

(** [eigen_matrixbase_type(shape)] *)
Definition eigen_matrixbase_type (shape_ : list nat) : result string :=
  '(rows, cols) <~
     match shape_ with
     | [] => Ok (1, 1)
     | [r] => Ok (r, 1)
     | [r; c] => Ok (r, c)
     | _ => Raise (NotImplementedError (rank_msg (length shape_)))
     end ;;
  let order := if negb (cols =? 1) then ", Eigen::RowMajor"%string else EmptyString in
  Ok (cat ["Eigen::Matrix<double, "; fmt_d rows; ", "; fmt_d cols; order; ">"]%string).


(** ** COFFEE nodes

    Only the node classes the compiler instantiates, under the name the
    source imports them by ([ast]).  A [FlatBlock] holds text; the texts
    the compiler formats are kept by format string ([text]) so that the
    names they mention stay visible. *)

Inductive text : Type :=
| Comment (s : string)
| SetZero (t : string)
| EigenMap (result_type result_sym scalar result_data_sym : string)
| FacetCast (f_dtype f_sym f_arg : string)
| Decomposition (src : expr) (decomposition tensor_type t : string) (operand : cpp).

Definition newline : string := String (ascii_of_nat 10) EmptyString.

Definition render_text (t : text) : string :=
  match t with
  | Comment s => cat [s; newline]
  | SetZero t => cat [t; ".setZero();"; newline]%string
  | EigenMap ty sym sc data =>
      cat [ty; " "; sym; "(("; sc; " *"; ")"; data; ");"; newline]%string
  | FacetCast ty sym arg =>
      cat [ty; " ("; "*"; sym; ")[2] = ("; ty; " ("; "*"; ")[2])"; arg; ";"; newline]%string
  | Decomposition _ dec ty t c =>
      cat ["Eigen::"; dec; "<"; ty; " > "; t; "("; gencode_cpp c; ");"; newline]%string
  end.

(** An assembly call made by the builder: the TSFC kernel, the tensor
    temporary it accumulates into, and its further arguments as text. *)
Record call : Type := mk_call {
  kernel_name : string;
  call_tensor : string;
  call_rest : list string
}.

Module ast.

#[warnings="-register-all"]
Inductive cexp : Type :=
| Symbol (name : string) (sym_rank : list cexp)
| Lit (n : Z)
| Sum (a b : cexp)
| Less (a b : cexp)
| Eq (a b : cexp)
| FlatExpr (c : cpp).

Record decl : Type := mk_decl {
  d_typ : string;
  d_sym : string;
  d_init : option Z;
  d_pointers : list string;
  d_qualifiers : list string
}.

#[warnings="-register-all"]
Inductive stmt : Type :=
| FlatBlock (t : text)
| PyStr (t : text)                     (* a bare string among the statements *)
| Decl (d : decl)
| Assign (lhs rhs : cexp)
| Incr (lhs rhs : cexp)
| If (cond : cexp) (then_ : stmt) (else_ : option stmt)
| For (init : decl) (cond : cexp) (incr : stmt) (body : list stmt)
| Block (children : list stmt) (open_scope : bool)
| FunCall (c : call).

Record FunDecl : Type := mk_fundecl {
  f_ret : string;
  f_name : string;
  f_args : list decl;
  f_body : list stmt;
  f_pred : list string
}.

End ast.

Definition sym (n : string) : ast.cexp := ast.Symbol n [].

(** ** Expressions as the compiler receives them, and the builders *)

Record Domain : Type := mk_domain {
  comm : nat;
  _extruded : bool;                 (* domain.cell_set._extruded *)
  num_facets : nat;                 (* domain.ufl_cell().num_facets() *)
  base_num_facets : nat;            (* domain.ufl_cell()._cells[0].num_facets() *)
  layers : Z                        (* domain.topological.layers *)
}.

Record TensorBase : Type := mk_tensor_base {
  tree : expr;
  is_mixed : bool;
  ufl_domains : list Domain;
  coefficients : list Function_;
  expression_hash : string;
  object_id : nat                   (* which object owns [_metakernel_cache] *)
}.

Definition ufl_domain (e : TensorBase) : result Domain :=
  match ufl_domains e with
  | d :: _ => Ok d
  | [] => Raise (AttributeError "ufl_domain")
  end.

Record CoefficientInfo : Type := mk_cinfo {
  space_index : nat;
  offset_index : nat;
  cinfo_shape : list nat;
  vector : expr;
  local_temp : string
}.

(** [builder.assembly_calls], one field per key. *)
Record AssemblyCalls : Type := mk_calls {
  cell : list call;
  interior_facet : list call;
  interior_facet_vert : list call;
  exterior_facet : list call;
  exterior_facet_vert : list call;
  subdomains_exterior_facet : list (Z * call);
  subdomains_interior_facet : list (Z * call);
  interior_facet_horiz_top : list call;
  interior_facet_horiz_bottom : list call;
  exterior_facet_top : list call;
  exterior_facet_bottom : list call
}.

(** What the compiler reads from a [LocalKernelBuilder]. *)
Record LocalKernelBuilder : Type := mk_builder {
  expression : TensorBase;
  temps : edict;
  ref_counter : expr -> nat;
  expression_dag : list expr;
  coefficient_vecs : list (nat * list CoefficientInfo);
  assembly_calls : AssemblyCalls;
  coefficient : Function_ -> list string;
  oriented : bool;
  needs_cell_facets : bool;
  needs_mesh_layers : bool;
  needs_cell_sizes : bool;
  coord_sym : string;
  cell_orientations_sym : string;
  cell_facet_sym : string;
  it_sym : string;
  mesh_layer_sym : string;
  cell_size_sym : string;
  templated_subkernels : list string;
  include_dirs : list string;
  expression_flops : nat;
  terminal_flops : nat;
  integral_type : string
}.

(** Compilation parameters: the items of the [tsfc_parameters]
    dictionary, each value given by its [repr]. *)
Definition params : Type := list (string * string).

(** The two kinds of code an [op2.Kernel] is built from. *)
Inductive kernel_code : Type :=
| CoffeeAst (subkernels : list string) (macro_kernel : ast.FunDecl)
| LoopyCode (code : string).

Record Kernel : Type := mk_kernel {
  k_code : kernel_code;
  k_name : string;
  k_cpp : bool;
  k_include_dirs : list string;
  k_headers : list string;
  k_ldargs : list string;
  num_flops : nat
}.

Record KernelInfo : Type := mk_kinfo {
  kernel : Kernel;
  ki_integral_type : string;
  ki_oriented : bool;
  subdomain_id : string;
  domain_number : nat;
  coefficient_map : list nat;
  ki_needs_cell_facets : bool;
  pass_layer_arg : bool;
  ki_needs_cell_sizes : bool
}.

Record SplitKernel : Type := mk_split {
  sk_indices : list nat;
  kinfo : KernelInfo
}.

(** An argument of the outer loopy kernel. *)
Inductive loopy_kind : Type := GlobalArg | TemporaryVariable.

Record loopy_arg : Type := mk_loopy_arg {
  la_kind : loopy_kind;
  la_name : string;
  la_shape : list nat;
  la_dtype : string
}.

(** What [gem_to_loopy] reads from a [LocalLoopyKernelBuilder]. *)
Record LocalLoopyKernelBuilder : Type := mk_loopy_builder {
  l_expression : TensorBase;
  l_temps : list (expr * string);            (* Slate node -> gem variable *)
  gem_loopy_dict : list (string * loopy_arg);
  l_shape : list nat;                        (* builder.shape(builder.expression) *)
  args_extents : list (string * nat);
  coordinates_arg : string;
  cell_orientations_arg : string;
  cell_size_arg : string;
  cell_facets_arg : string;
  l_num_facets : nat;
  l_coefficient_vecs : list (nat * list CoefficientInfo);
  l_needs_cell_orientations : bool;
  l_needs_cell_sizes : bool;
  l_needs_cell_facets : bool;
  l_needs_mesh_layers : bool;
  gem_indices : list (string * list string);
  expression_str : string                    (* str(builder.expression) *)
}.

(** ** What the compiler imports

    Constants and functions of other modules ([firedrake.utils],
    [slac.utils], [slac.kernel_builder], [hashlib], tsfc and loopy).  The
    compiler is read against any implementation of them. *)

Class Collaborators : Type := {
  ScalarType_c : string;
  EIGEN_INCLUDE_DIR : string;
  topological_sort : list expr -> list expr;
  new_LocalKernelBuilder : TensorBase -> params -> result LocalKernelBuilder;
  new_LocalLoopyKernelBuilder : TensorBase -> params -> result LocalLoopyKernelBuilder;
  gem_dag : Type;
  (* SlateTranslator(builder).slate_to_gem_translate() *)
  slate_to_gem_translate : LocalLoopyKernelBuilder -> result gem_dag;
  (* impero, tsfc.loopy.generate, merge_loopy, the callables and
     loopy.generate_code_v2: the device code and the kernel name *)
  loopy_backend : LocalLoopyKernelBuilder -> gem_dag -> list loopy_arg
                  -> result (string * string);
  (* traversed_gem_expr_dag[0].multiindex *)
  multiindex : gem_dag -> result (list string);
  md5_hexdigest : string -> string;
  form_compiler_parameters : params            (* parameters["form_compiler"] *)
}.

Section Compiler.
Context `{Collaborators}.

(** ** [terminal_temporaries] *)

Definition plain_decl (typ name : string) : ast.decl :=
  ast.mk_decl typ name None [] [].

Fixpoint terminal_temporaries_loop (items : edict) (declared_temps : edict)
  : result (list ast.stmt * edict) :=
  match items with
  | [] => Ok ([], declared_temps)
  | (exp, t) :: rest =>
      ty <~ eigen_matrixbase_type (shape (attrs_of exp)) ;;
      '(more, declared_temps') <~
         terminal_temporaries_loop rest (dict_set exp t declared_temps) ;;
      Ok (ast.Decl (plain_decl ty t) :: ast.FlatBlock (SetZero t) :: more,
          declared_temps')
  end.

Definition terminal_temporaries (builder : LocalKernelBuilder) (declared_temps : edict)
  : result (list ast.stmt * edict) :=
  '(decls, declared_temps') <~ terminal_temporaries_loop (temps builder) declared_temps ;;
  Ok (ast.FlatBlock (Comment "/* Declare and initialize */") :: decls, declared_temps').

(** ** [tensor_assembly_calls] *)

(** [gem.utils.groupby]: groups in order of first appearance, members in
    their original order. *)
Fixpoint group_insert (x : Z * call) (groups : list (Z * list (Z * call)))
  : list (Z * list (Z * call)) :=
  match groups with
  | [] => [(fst x, [x])]
  | (k, members) :: rest =>
      if Z.eqb (fst x) k then (k, members ++ [x]) :: rest
      else (k, members) :: group_insert x rest
  end.

Definition groupby (l : list (Z * call)) : list (Z * list (Z * call)) :=
  fold_left (fun groups x => group_insert x groups) l [].

Definition calls (l : list call) : list ast.stmt := map ast.FunCall l.

(** The [If] statements of one [sd_type]. *)
Definition subdomain_stmts (builder : LocalKernelBuilder) (sd_calls : list (Z * call))
  : list ast.stmt :=
  map (fun g : Z * list (Z * call) =>
         let if_sd := ast.Eq (ast.Symbol (cell_facet_sym builder)
                                [sym (it_sym builder); ast.Lit 1])
                             (ast.Lit (fst g)) in
         ast.If if_sd (ast.Block (calls (map snd (snd g))) true) None)
      (groupby sd_calls).

Definition unsigned_counter (name : string) : ast.decl :=
  ast.mk_decl "unsigned int" name (Some 0%Z) [] [].

(** The [For] statement over the facets. *)
Definition facet_for (builder : LocalKernelBuilder) (n_facets : nat) : ast.stmt :=
  let ac := assembly_calls builder in
  let int_calls := calls (interior_facet ac ++ interior_facet_vert ac)
                   ++ subdomain_stmts builder (subdomains_interior_facet ac) in
  let ext_calls := calls (exterior_facet ac ++ exterior_facet_vert ac)
                   ++ subdomain_stmts builder (subdomains_exterior_facet ac) in
  let marker := ast.Symbol (cell_facet_sym builder) [sym (it_sym builder); ast.Lit 0] in
  let if_ext := ast.Eq marker (ast.Lit 0) in
  let if_int := ast.Eq marker (ast.Lit 1) in
  let body :=
    (match ext_calls with
     | [] => []
     | _ => [ast.If if_ext (ast.Block ext_calls true) None]
     end)
    ++
    (match int_calls with
     | [] => []
     | _ => [ast.If if_int (ast.Block int_calls true) None]
     end) in
  ast.For (unsigned_counter (it_sym builder))
          (ast.Less (sym (it_sym builder)) (ast.Lit (Z.of_nat n_facets)))
          (ast.Incr (sym (it_sym builder)) (ast.Lit 1))
          body.

Definition facet_loop (builder : LocalKernelBuilder) (n_facets : nat) : list ast.stmt :=
  [ast.FlatBlock (Comment "/* Loop over cell facets */"); facet_for builder n_facets].

(** The [If] statement on the layer argument. *)
Definition layer_conditional (builder : LocalKernelBuilder) (num_layers : Z) : ast.stmt :=
  let ac := assembly_calls builder in
  let int_top := interior_facet_horiz_top ac in
  let int_btm := interior_facet_horiz_bottom ac in
  let ext_top := exterior_facet_top ac in
  let ext_btm := exterior_facet_bottom ac in
  let eq_layer := ast.Eq (sym (mesh_layer_sym builder)) (ast.Lit (num_layers - 1)) in
  let bottom := ast.Block (calls (int_top ++ ext_btm)) true in
  let top := ast.Block (calls (int_btm ++ ext_top)) true in
  let rest := ast.Block (calls (int_btm ++ int_top)) true in
  ast.If (ast.Eq (sym (mesh_layer_sym builder)) (ast.Lit 0))
         bottom (Some (ast.If eq_layer top (Some rest))).

Definition layer_dispatch (builder : LocalKernelBuilder) (num_layers : Z) : list ast.stmt :=
  [ast.FlatBlock (Comment "/* Mesh levels: */"); layer_conditional builder num_layers].

(** The number of facets to loop over. *)
Definition facets_of (domain : Domain) : nat :=
  if _extruded domain then base_num_facets domain else num_facets domain.

Definition tensor_assembly_calls (builder : LocalKernelBuilder) : result (list ast.stmt) :=
  let statements := ast.FlatBlock (Comment "/* Assemble local tensors */")
                    :: calls (cell (assembly_calls builder)) in
  facets <~ (if needs_cell_facets builder then
               domain <~ ufl_domain (expression builder) ;;
               Ok (facet_loop builder (facets_of domain))
             else Ok []) ;;
  levels <~ (if needs_mesh_layers builder then
               domain <~ ufl_domain (expression builder) ;;
               let num_layers := (layers domain - 1)%Z in
               Ok (layer_dispatch builder num_layers)
             else Ok []) ;;
  Ok (statements ++ facets ++ levels).

(** ** [coefficient_temporaries] *)

Definition j1 : string := "j1".

(** [vector._function] *)
Definition function_of (vector_ : expr) : result Function_ :=
  match vector_ with
  | AssembledVector _ f => Ok f
  | _ => Raise (AttributeError "_function")
  end.

(** One pass of the inner loop over [cinfo_list]: the declarations added
    to [statements], the [assignments] and the updated dictionary. *)
Fixpoint coefficient_assignments (builder : LocalKernelBuilder)
    (cinfo_list : list CoefficientInfo) (declared_temps : edict)
  : result (list ast.stmt * list ast.stmt * edict) :=
  match cinfo_list with
  | [] => Ok ([], [], declared_temps)
  | cinfo :: rest =>
      let fs_i := space_index cinfo in
      let offset := offset_index cinfo in
      let t := local_temp cinfo in
      function <~ function_of (vector cinfo) ;;
      '(declaration, declared_temps1) <~
         (match lookup_temp (vector cinfo) declared_temps with
          | Some _ => Ok ([], declared_temps)
          | None =>
              c_type <~ eigen_matrixbase_type (cinfo_shape cinfo) ;;
              Ok ([ast.Decl (plain_decl c_type t)],
                  dict_set (vector cinfo) t declared_temps)
          end) ;;
      w <~ index (coefficient builder function) fs_i ;;
      let coeff_sym := ast.Symbol w [sym j1] in
      let index_ := ast.Sum (ast.Lit (Z.of_nat offset)) (sym j1) in
      let coeff_temp := ast.Symbol t [index_] in
      '(declarations, assignments, declared_temps2) <~
         coefficient_assignments builder rest declared_temps1 ;;
      Ok (declaration ++ declarations,
          ast.Assign coeff_temp coeff_sym :: assignments,
          declared_temps2)
  end.

Fixpoint coefficient_loops (builder : LocalKernelBuilder)
    (items : list (nat * list CoefficientInfo)) (declared_temps : edict)
  : result (list ast.stmt * list ast.stmt * edict) :=
  match items with
  | [] => Ok ([], [], declared_temps)
  | (dofs, cinfo_list) :: rest =>
      '(declarations, assignments, declared_temps1) <~
         coefficient_assignments builder cinfo_list declared_temps ;;
      let loop := ast.For (unsigned_counter j1)
                          (ast.Less (sym j1) (ast.Lit (Z.of_nat dofs)))
                          (ast.Incr (sym j1) (ast.Lit 1))
                          assignments in
      '(declarations', loops, declared_temps2) <~
         coefficient_loops builder rest declared_temps1 ;;
      Ok (declarations ++ declarations', loop :: loops, declared_temps2)
  end.

Definition coefficient_temporaries (builder : LocalKernelBuilder) (declared_temps : edict)
  : result (list ast.stmt * edict) :=
  '(declarations, loops, declared_temps') <~
     coefficient_loops builder (coefficient_vecs builder) declared_temps ;;
  Ok (ast.FlatBlock (Comment "/* Coefficient temporaries */") :: declarations
      ++ ast.FlatBlock (Comment "/* Loops for coefficient temps */") :: loops,
      declared_temps').

(** ** [auxiliary_expressions] *)

(** [isinstance(exp, terminals)] *)
Definition terminals (exp : expr) : bool :=
  is_Tensor exp || is_AssembledVector exp || is_Negative exp || is_Transpose exp.

(** The filter of [sorted_exprs]. *)
Definition needs_auxiliary (builder : LocalKernelBuilder) (exp : expr) : bool :=
  ((1 <? ref_counter builder exp) && negb (terminals exp)) || is_Factorization exp.

Definition sorted_exprs (builder : LocalKernelBuilder) : list expr :=
  List.filter (needs_auxiliary builder) (topological_sort (expression_dag builder)).

(** The statements written for one expression that is not yet declared,
    and the symbol it gets. *)
Definition auxiliary_statement (exp : expr) (declared_temps : edict)
  : result (list ast.stmt * string) :=
  match exp with
  | Factorization a operand decomposition =>
      let t := ("dec" ++ fmt_d (length declared_temps))%string in
      expr_ <~ slate_to_cpp operand declared_temps None ;;
      tensor_type <~ eigen_matrixbase_type (shape a) ;;
      Ok ([ast.PyStr (Decomposition exp decomposition tensor_type t expr_)], t)
  | _ =>
      let t := ("auxT" ++ fmt_d (length declared_temps))%string in
      result_ <~ slate_to_cpp exp declared_temps None ;;
      tensor_type <~ eigen_matrixbase_type (shape (attrs_of exp)) ;;
      Ok ([ast.Decl (plain_decl tensor_type t);
           ast.Assign (sym t) (ast.FlatExpr result_)], t)
  end.

Fixpoint auxiliary_loop (exprs : list expr) (declared_temps : edict)
  : result (list ast.stmt * edict) :=
  match exprs with
  | [] => Ok ([], declared_temps)
  | exp :: rest =>
      match lookup_temp exp declared_temps with
      | Some _ => auxiliary_loop rest declared_temps
      | None =>
          '(stmts, t) <~ auxiliary_statement exp declared_temps ;;
          '(more, declared_temps') <~
             auxiliary_loop rest (dict_set exp t declared_temps) ;;
          Ok (stmts ++ more, declared_temps')
      end
  end.

Definition auxiliary_expressions (builder : LocalKernelBuilder) (declared_temps : edict)
  : result (list ast.stmt * edict) :=
  auxiliary_loop (sorted_exprs builder) declared_temps.

(** ** [generate_kernel_ast] *)

Definition restrict_const (typ name : string) : ast.decl :=
  ast.mk_decl typ name None ["restrict"%string] ["const"%string].

(** [as_cstr(cell_to_facets_dtype)] with [cell_to_facets_dtype = int8]. *)
Definition f_dtype : string := "int8_t".
Definition arg_cell_facets : string := "arg_cell_facets".
Definition macro_kernel_name : string := "pyop2_kernel_compile_slate".

(** The argument list [args], in the order of the appends. *)
Definition kernel_args (builder : LocalKernelBuilder) (result_data_sym : string)
  : list ast.decl :=
  [ast.mk_decl ScalarType_c result_data_sym None ["restrict"%string] [];
   restrict_const ScalarType_c (coord_sym builder)]
  ++ (if oriented builder
      then [restrict_const "int" (cell_orientations_sym builder)] else [])
  ++ flat_map (fun c => map (restrict_const ScalarType_c) (coefficient builder c))
              (coefficients (expression builder))
  ++ (if needs_cell_facets builder
      then [restrict_const f_dtype arg_cell_facets] else [])
  ++ (if needs_mesh_layers builder
      then [ast.mk_decl "int" (mesh_layer_sym builder) None [] []] else [])
  ++ (if needs_cell_sizes builder
      then [restrict_const ScalarType_c (cell_size_sym builder)] else []).

Definition generate_kernel_ast (builder : LocalKernelBuilder)
    (statements : list ast.stmt) (declared_temps : edict) : result KernelInfo :=
  let slate_expr := expression builder in
  let a := attrs_of (tree slate_expr) in
  let shape_ := if rank a =? 0 then [1] else shape a in
  let result_sym := ("T" ++ fmt_d (length declared_temps))%string in
  let result_data_sym := ("A" ++ fmt_d (length declared_temps))%string in
  matrix_type <~ eigen_matrixbase_type shape_ ;;
  let result_type := cat ["Eigen::Map<"; matrix_type; " >"]%string in
  let result_statement :=
    ast.FlatBlock (EigenMap result_type result_sym ScalarType_c result_data_sym) in
  cpp_string <~ slate_to_cpp (tree slate_expr) declared_temps None ;;
  let statements1 :=
    statements
    ++ [ast.FlatBlock (Comment "/* Map eigen tensor into C struct */");
        result_statement;
        ast.FlatBlock (Comment "/* Linear algebra expression */");
        ast.Incr (sym result_sym) (ast.FlatExpr cpp_string)] in
  let statements2 :=
    if needs_cell_facets builder
    then ast.FlatBlock (FacetCast f_dtype (cell_facet_sym builder) arg_cell_facets)
         :: statements1
    else statements1 in
  let args := kernel_args builder result_data_sym in
  let macro_kernel :=
    ast.mk_fundecl "void" macro_kernel_name args statements2
                   ["static"%string; "inline"%string] in
  let op2kernel :=
    mk_kernel (CoffeeAst (templated_subkernels builder) macro_kernel)
              macro_kernel_name true
              (include_dirs builder ++ [EIGEN_INCLUDE_DIR])
              ["#include <Eigen/Dense>"%string; "#define restrict __restrict"%string]
              []
              (expression_flops builder + terminal_flops builder) in
  Ok (mk_kinfo op2kernel (integral_type builder) (oriented builder) "otherwise" 0
               (seq 0 (length (coefficients slate_expr)))
               (needs_cell_facets builder) (needs_mesh_layers builder)
               (needs_cell_sizes builder)).

(** ** [generate_kernel] *)

Definition mixed_msg : string := "Compiling mixed slate expressions".
Definition domains_msg : string := "Multiple domains not implemented.".

Definition generate_kernel (slate_expr : TensorBase) (tsfc_parameters : params)
  : result SplitKernel :=
  if is_mixed slate_expr then Raise (NotImplementedError mixed_msg)
  else if 1 <? length (ufl_domains slate_expr)
  then Raise (NotImplementedError domains_msg)
  else
    builder <~ new_LocalKernelBuilder slate_expr tsfc_parameters ;;
    '(terminal_declarations, declared1) <~ terminal_temporaries builder [] ;;
    subkernel_calls <~ tensor_assembly_calls builder ;;
    '(coefficient_temps, declared2) <~
       (match coefficient_vecs builder with
        | [] => Ok ([], declared1)
        | _ => coefficient_temporaries builder declared1
        end) ;;
    '(auxiliary, declared3) <~ auxiliary_expressions builder declared2 ;;
    let statements :=
      terminal_declarations ++ subkernel_calls ++ coefficient_temps ++ auxiliary in
    kinfo_ <~ generate_kernel_ast builder statements declared3 ;;
    Ok (mk_split (repeat 0 (rank (attrs_of (tree slate_expr)))) kinfo_).

(** ** [gem_to_loopy]: the argument list

    [gem_to_loopy] collects [args] and hands it, with the impero code, to
    tsfc's loopy generator.  [gem_to_loopy_args] is that list, made in
    the order of the source; the index of the return variable, looked up
    on the way, goes into the assignment given to impero. *)

(** [d[k]] on a dictionary keyed by names. *)
Definition lookup_key {A : Type} (d : list (string * A)) (k : string) : result A :=
  match find (fun kv => String.eqb (fst kv) k) d with
  | Some kv => Ok (snd kv)
  | None => Raise (KeyError k)
  end.

(** [idx]: [builder.gem_indices[str(builder.expression)+"out"]] for a
    tensor, an assembled vector and a block, and the multi-index of the
    translated expression otherwise. *)
Definition output_index (traversed : gem_dag) (builder : LocalLoopyKernelBuilder)
  : result (list string) :=
  let e := tree (l_expression builder) in
  if is_Tensor e || is_AssembledVector e || is_Block e
  then lookup_key (gem_indices builder) (expression_str builder ++ "out")
  else multiindex traversed.

Definition extent (builder : LocalLoopyKernelBuilder) (name : string) : result nat :=
  match find (fun kv => String.eqb (fst kv) name) (args_extents builder) with
  | Some kv => Ok (snd kv)
  | None => Raise (KeyError name)
  end.

Definition function_eqb (x y : Function_) : bool :=
  if function_eq_dec x y then true else false.

(** [[i for i, x in enumerate(coeff_function_list) if x == c]] *)
Definition indices_of (c : Function_) (coeff_function_list : list Function_) : list nat :=
  map fst (List.filter (fun ix => function_eqb (snd ix) c)
                  (combine (seq 0 (length coeff_function_list)) coeff_function_list)).

Fixpoint result_map {A B : Type} (f : A -> result B) (l : list A) : result (list B) :=
  match l with
  | [] => Ok []
  | x :: r => y <~ f x ;; ys <~ result_map f r ;; Ok (y :: ys)
  end.

(** The arguments made for the coefficient [c] at position [i], and the
    new value of the counter [get]. *)
Definition coefficient_args (builder : LocalLoopyKernelBuilder)
    (coeff_shape_list : list (list nat)) (coeff_function_list : list Function_)
    (i : nat) (c : Function_) (get : nat) : result (list loopy_arg * nat) :=
  let indices := indices_of c coeff_function_list in
  found <~ result_map
             (fun kf : nat * nat =>
                shape_ <~ index coeff_shape_list (snd kf) ;;
                Ok (mk_loopy_arg GlobalArg ("coeff" ++ fmt_d (get + fst kf))%string
                                 shape_ "double"))
             (combine (seq 0 (length indices)) indices) ;;
  let get' := get + length indices in
  match indices with
  | [] =>
      if element_is_mixed c then
        split <~ result_map
                   (fun j =>
                      let name := cat ["w_"; fmt_d i; "_"; fmt_d j]%string in
                      ext <~ extent builder name ;;
                      Ok (mk_loopy_arg GlobalArg name [ext] "double"))
                   (seq 0 (n_split c)) ;;
        Ok (found ++ split, get')
      else
        let name := cat ["w_"; fmt_d i]%string in
        ext <~ extent builder name ;;
        Ok (found ++ [mk_loopy_arg GlobalArg name [ext] "double"], get')
  | _ => Ok (found, get')
  end.

Fixpoint coefficients_args (builder : LocalLoopyKernelBuilder)
    (coeff_shape_list : list (list nat)) (coeff_function_list : list Function_)
    (i : nat) (cs : list Function_) (get : nat) : result (list loopy_arg) :=
  match cs with
  | [] => Ok []
  | c :: rest =>
      '(here, get') <~
         coefficient_args builder coeff_shape_list coeff_function_list i c get ;;
      more <~ coefficients_args builder coeff_shape_list coeff_function_list
                (S i) rest get' ;;
      Ok (here ++ more)
  end.

Definition gem_to_loopy_args (traversed : gem_dag) (builder : LocalLoopyKernelBuilder)
  : result (list loopy_arg) :=
  temp_args <~ result_map (fun kv : expr * string =>
                             lookup_key (gem_loopy_dict builder) (snd kv))
                          (l_temps builder) ;;
  let output := mk_loopy_arg GlobalArg "output" (l_shape builder) "double" in
  idx <~ output_index traversed builder ;;
  coords <~ (match args_extents builder with
             | _ :: _ =>
                 ext <~ extent builder (coordinates_arg builder) ;;
                 Ok (mk_loopy_arg GlobalArg "coords" [ext] "double")
             | [] =>
                 n <~ index (shape (attrs_of (tree (l_expression builder)))) 0 ;;
                 Ok (mk_loopy_arg GlobalArg "coords" [n] "double")
             end) ;;
  orientations <~ (if l_needs_cell_orientations builder then
                     ext <~ extent builder (cell_orientations_arg builder) ;;
                     Ok [mk_loopy_arg GlobalArg "orientations" [ext] "int32"]
                   else Ok []) ;;
  cell_sizes <~ (if l_needs_cell_sizes builder then
                   ext <~ extent builder (cell_size_arg builder) ;;
                   Ok [mk_loopy_arg GlobalArg "cell_sizes" [ext] "double"]
                 else Ok []) ;;
  let cinfos := flat_map snd (l_coefficient_vecs builder) in
  let coeff_shape_list := map cinfo_shape cinfos in
  coeff_function_list <~ result_map (fun ci => function_of (vector ci)) cinfos ;;
  coeffs <~ coefficients_args builder coeff_shape_list coeff_function_list 0
              (coefficients (l_expression builder)) 0 ;;
  let facets := if l_needs_cell_facets builder
                then [mk_loopy_arg GlobalArg (cell_facets_arg builder)
                                   [l_num_facets builder; 2] "int8"]
                else [] in
  let layer := if l_needs_mesh_layers builder
               then [mk_loopy_arg TemporaryVariable "layer" [] "int32"]
               else [] in
  Ok (temp_args ++ [output] ++ [coords] ++ orientations ++ cell_sizes ++ coeffs
      ++ facets ++ layer).

(** ** [generate_loopy_kernel] *)

Definition generate_loopy_kernel (slate_expr : TensorBase) (tsfc_parameters : params)
  : result SplitKernel :=
  if is_mixed slate_expr then Raise (NotImplementedError mixed_msg)
  else if 1 <? length (ufl_domains slate_expr)
  then Raise (NotImplementedError domains_msg)
  else
    builder <~ new_LocalLoopyKernelBuilder slate_expr tsfc_parameters ;;
    gem_expr <~ slate_to_gem_translate builder ;;
    args <~ gem_to_loopy_args gem_expr builder ;;
    '(code, name) <~ loopy_backend builder gem_expr args ;;
    let loopykernel :=
      mk_kernel (LoopyCode code) name false [] [] ["-llapack"%string] 0 in
    let kinfo_ :=
      mk_kinfo loopykernel "cell" (l_needs_cell_orientations builder) "otherwise" 0
               (seq 0 (length (coefficients slate_expr)))
               (l_needs_cell_facets builder) (l_needs_mesh_layers builder)
               (l_needs_cell_sizes builder) in
    Ok (mk_split (repeat 0 (rank (attrs_of (tree slate_expr)))) kinfo_).

(** ** [SlateKernel] and [compile_expression] *)

(** Tuples of strings compare by key, then by value. *)
Definition item_leb (x y : string * string) : bool :=
  match String.compare (fst x) (fst y) with
  | Lt => true
  | Gt => false
  | Eq => String.leb (snd x) (snd y)
  end.

Fixpoint insert_item (x : string * string) (l : params) : params :=
  match l with
  | [] => [x]
  | y :: r => if item_leb x y then x :: l else y :: insert_item x r
  end.

(** [sorted(tsfc_parameters.items())] *)
Definition sorted (items : params) : params := fold_right insert_item [] items.

Fixpoint join (sep : string) (l : list string) : string :=
  match l with
  | [] => EmptyString
  | [x] => x
  | x :: r => cat [x; sep; join sep r]
  end.

(** [str] of a list of pairs. *)
Definition str (items : params) : string :=
  cat ["["; join ", " (map (fun kv => cat ["('"; fst kv; "', "; snd kv; ")"]%string) items);
       "]"]%string.

(** [SlateKernel._cache_key] *)
Definition _cache_key (expr_ : TensorBase) (tsfc_parameters : params) (coffee : bool)
  : result (string * nat) :=
  domain <~ index (ufl_domains expr_) 0 ;;
  Ok (md5_hexdigest (expression_hash expr_ ++ str (sorted tsfc_parameters))%string,
      comm domain).

(** [SlateKernel.__init__] *)
Definition SlateKernel_init (expr_ : TensorBase) (tsfc_parameters : params) (coffee : bool)
  : result SplitKernel :=
  if coffee then generate_kernel expr_ tsfc_parameters
  else generate_loopy_kernel expr_ tsfc_parameters.

(** The mutable state [compile_expression] works on: the
    [_metakernel_cache] dictionary of every expression object, and a
    record of each run of [SlateKernel.__init__] (object, key, whether it
    returned). *)
Record compiler_state : Type := mk_state {
  caches : gmap nat (gmap string SplitKernel);
  runs : list (nat * string * bool)
}.

Definition _metakernel_cache (st : compiler_state) (e : TensorBase)
  : gmap string SplitKernel :=
  default ∅ (caches st !! object_id e).

Inductive py_object : Type :=
| PyTensor (e : TensorBase)
| PyOther (type_name : string).

Definition compile_expression (slate_expr : py_object)
    (tsfc_parameters : option params) (coffee : bool) (st : compiler_state)
  : result SplitKernel * compiler_state :=
  match slate_expr with
  | PyOther ty =>
      (Raise (ValueError ("Expecting a `TensorBase` object, not " ++ ty)%string), st)
  | PyTensor e =>
      let cache := _metakernel_cache st e in
      let tsfc_parameters :=
        match tsfc_parameters with
        | None => form_compiler_parameters
        | Some p => p
        end in
      let key := str (sorted tsfc_parameters) in
      match cache !! key with
      | Some k => (Ok k, st)
      | None =>
          match SlateKernel_init e tsfc_parameters coffee with
          | Raise x =>
              (Raise x, mk_state (caches st) (runs st ++ [(object_id e, key, false)]))
          | Ok k =>
              (Ok k, mk_state (<[object_id e := <[key := k]> cache]> (caches st))
                              (runs st ++ [(object_id e, key, true)]))
          end
      end
  end.

End Compiler.

(** ** Reading a compiled kernel *)

Definition macro_kernel_of (k : SplitKernel) : option ast.FunDecl :=
  match k_code (kernel (kinfo k)) with
  | CoffeeAst _ m => Some m
  | LoopyCode _ => None
  end.

(** The statements of the macro kernel, in order. *)
Definition kernel_body (k : SplitKernel) : list ast.stmt :=
  match macro_kernel_of k with
  | Some m => ast.f_body m
  | None => []
  end.

(** The names of the macro kernel's arguments, in order. *)
Definition kernel_arg_names (k : SplitKernel) : list string :=
  match macro_kernel_of k with
  | Some m => map ast.d_sym (ast.f_args m)
  | None => []
  end.

(** ** Which assembly calls a statement runs

    A run-time reading of the control statements the compiler emits:
    [If] on an integer condition, and the counting [For] loop
    [for (unsigned int i = lo; i < hi; i++)].  The result is the sequence
    of assembly calls made, or [None] when a condition cannot be
    evaluated. *)

Record env : Type := mk_env {
  scalars : list (string * Z);
  arrays : list (string * list (list Z))
}.

Definition scalar (ρ : env) (name : string) : option Z :=
  option_map snd (find (fun kv => String.eqb (fst kv) name) (scalars ρ)).

Definition array_at (ρ : env) (name : string) (i j : Z) : option Z :=
  match find (fun kv => String.eqb (fst kv) name) (arrays ρ) with
  | Some kv =>
      if ((i <? 0) || (j <? 0))%Z then None
      else match nth_error (snd kv) (Z.to_nat i) with
           | Some row => nth_error row (Z.to_nat j)
           | None => None
           end
  | None => None
  end.

Definition set_scalar (ρ : env) (name : string) (v : Z) : env :=
  mk_env ((name, v) :: scalars ρ) (arrays ρ).

Definition Z_of_bool (b : bool) : Z := if b then 1%Z else 0%Z.

Fixpoint eval (ρ : env) (e : ast.cexp) : option Z :=
  match e with
  | ast.Lit n => Some n
  | ast.Symbol name [] => scalar ρ name
  | ast.Symbol name [i; j] =>
      match eval ρ i, eval ρ j with
      | Some vi, Some vj => array_at ρ name vi vj
      | _, _ => None
      end
  | ast.Symbol _ _ => None
  | ast.Sum a b =>
      match eval ρ a, eval ρ b with
      | Some x, Some y => Some (x + y)%Z
      | _, _ => None
      end
  | ast.Less a b =>
      match eval ρ a, eval ρ b with
      | Some x, Some y => Some (Z_of_bool (x <? y)%Z)
      | _, _ => None
      end
  | ast.Eq a b =>
      match eval ρ a, eval ρ b with
      | Some x, Some y => Some (Z_of_bool (x =? y)%Z)
      | _, _ => None
      end
  | ast.FlatExpr _ => None
  end.

(** Runs of a block repeated for [i = lo, lo + 1, ...], [n] times. *)
Fixpoint iterate (run : Z -> option (list call)) (lo : Z) (n : nat) : option (list call) :=
  match n with
  | O => Some []
  | S m =>
      match run lo, iterate run (lo + 1)%Z m with
      | Some a, Some b => Some (a ++ b)
      | _, _ => None
      end
  end.

Fixpoint exec (ρ : env) (s : ast.stmt) {struct s} : option (list call) :=
  let exec_block :=
    fix go (ρ : env) (l : list ast.stmt) {struct l} : option (list call) :=
      match l with
      | [] => Some []
      | x :: r =>
          match exec ρ x, go ρ r with
          | Some a, Some b => Some (a ++ b)
          | _, _ => None
          end
      end in
  match s with
  | ast.FunCall c => Some [c]
  | ast.Block children _ => exec_block ρ children
  | ast.If cond then_ else_ =>
      match eval ρ cond with
      | Some v =>
          if (v =? 0)%Z
          then match else_ with
               | Some e => exec ρ e
               | None => Some []
               end
          else exec ρ then_
      | None => None
      end
  | ast.For init (ast.Less (ast.Symbol v []) (ast.Lit hi))
            (ast.Incr (ast.Symbol v' []) (ast.Lit 1%Z)) body =>
      match ast.d_init init with
      | Some lo =>
          if String.eqb v (ast.d_sym init) && String.eqb v' (ast.d_sym init)
          then iterate (fun i => exec_block (set_scalar ρ v i) body) lo (Z.to_nat (hi - lo))
          else None
      | None => None
      end
  | ast.For _ _ _ _ => None
  | _ => Some []
  end.

Fixpoint exec_block (ρ : env) (l : list ast.stmt) : option (list call) :=
  match l with
  | [] => Some []
  | x :: r =>
      match exec ρ x, exec_block ρ r with
      | Some a, Some b => Some (a ++ b)
      | _, _ => None
      end
  end.

(** ** Which names a statement reads and writes *)

Fixpoint cpp_names (c : cpp) : list string :=
  match c with
  | CSym n => [n]
  | CTranspose _ c | CInverse _ c | CNeg _ c | CParen c => cpp_names c
  | CBin _ _ a b | CSolve _ a b => cpp_names a ++ cpp_names b
  | CBlock _ c _ _ _ _ => cpp_names c
  end.

Fixpoint names (e : ast.cexp) : list string :=
  match e with
  | ast.Symbol n r => n :: flat_map names r
  | ast.Lit _ => []
  | ast.Sum a b | ast.Less a b | ast.Eq a b => names a ++ names b
  | ast.FlatExpr c => cpp_names c
  end.

Definition text_reads (t : text) : list string :=
  match t with
  | Comment _ | SetZero _ => []
  | EigenMap _ _ _ data => [data]
  | FacetCast _ _ arg => [arg]
  | Decomposition _ _ _ _ c => cpp_names c
  end.

Definition text_writes (t : text) : list string :=
  match t with
  | Comment _ => []
  | SetZero t => [t]
  | EigenMap _ s _ _ => [s]
  | FacetCast _ s _ => [s]
  | Decomposition _ _ _ t _ => [t]
  end.

Definition without (x : string) (l : list string) : list string :=
  List.filter (fun y => negb (String.eqb x y)) l.

(** Names whose value a statement uses.  A loop does not count its own
    counter; an assembly call accumulates into its tensor. *)
Fixpoint reads (s : ast.stmt) : list string :=
  match s with
  | ast.FlatBlock t | ast.PyStr t => text_reads t
  | ast.Decl _ => []
  | ast.Assign lhs rhs =>
      match lhs with
      | ast.Symbol _ r => flat_map names r
      | _ => names lhs
      end ++ names rhs
  | ast.Incr lhs rhs => names lhs ++ names rhs
  | ast.If cond then_ else_ =>
      names cond ++ reads then_
      ++ match else_ with Some e => reads e | None => [] end
  | ast.For init cond incr body =>
      without (ast.d_sym init) (names cond ++ reads incr ++ flat_map reads body)
  | ast.Block children _ => flat_map reads children
  | ast.FunCall c => [call_tensor c]
  end.

(** Names a statement gives a value to.  What only one branch of an [If]
    writes is not counted. *)
Fixpoint writes (s : ast.stmt) : list string :=
  match s with
  | ast.FlatBlock t | ast.PyStr t => text_writes t
  | ast.Decl d => match ast.d_init d with Some _ => [ast.d_sym d] | None => [] end
  | ast.Assign lhs _ =>
      match lhs with
      | ast.Symbol n _ => [n]
      | _ => []
      end
  | ast.Incr _ _ => []
  | ast.If _ _ _ => []
  | ast.For _ _ _ body => flat_map writes body
  | ast.Block children _ => flat_map writes children
  | ast.FunCall _ => []
  end.

(** Every statement reads only names that are arguments or were written
    by an earlier statement. *)
Fixpoint reads_after_writes (defined : list string) (l : list ast.stmt) : Prop :=
  match l with
  | [] => True
  | s :: r => incl (reads s) defined /\ reads_after_writes (writes s ++ defined) r
  end.

(** Statements that only declare, zero or comment. *)
Definition is_prologue (s : ast.stmt) : bool :=
  match s with
  | ast.FlatBlock (Comment _) | ast.FlatBlock (SetZero _)
  | ast.FlatBlock (FacetCast _ _ _) | ast.Decl _ => true
  | _ => false
  end.

(** [t.setZero()] *)
Definition is_zero_fill (s : ast.stmt) : bool :=
  match s with
  | ast.FlatBlock (SetZero _) => true
  | _ => false
  end.

(** The zero-fill of the terminals, as the specification words it: every
    terminal that holds a temporary, tensor or assembled vector, is
    declared and set to zero, and only declarations, zero-fills and
    comments come before. *)
Definition spec_terminals_zero_filled (declared : edict) (body : list ast.stmt) : Prop :=
  forall e t, In (e, t) declared -> is_Tensor e || is_AssembledVector e = true ->
    exists ty l1 l2,
      body = l1 ++ ast.Decl (plain_decl ty t) :: ast.FlatBlock (SetZero t) :: l2
      /\ Forall (fun s => is_prologue s = true) l1.

(** ** Where a node is evaluated *)

Definition tag (src e : expr) : nat := if expr_eq_dec src e then 1 else 0.

(** Operator nodes of [c] that evaluate [e]. *)
Fixpoint cpp_sites (e : expr) (c : cpp) : nat :=
  match c with
  | CSym _ => 0
  | CTranspose src c | CInverse src c | CNeg src c => tag src e + cpp_sites e c
  | CBin src _ a b | CSolve src a b => tag src e + cpp_sites e a + cpp_sites e b
  | CBlock src c _ _ _ _ => tag src e + cpp_sites e c
  | CParen c => cpp_sites e c
  end.

Definition cexp_sites (e : expr) (x : ast.cexp) : nat :=
  match x with
  | ast.FlatExpr c => cpp_sites e c
  | _ => 0
  end.

Definition text_sites (e : expr) (t : text) : nat :=
  match t with
  | Decomposition src _ _ _ c => tag src e + cpp_sites e c
  | _ => 0
  end.

Fixpoint sites (e : expr) (s : ast.stmt) : nat :=
  match s with
  | ast.FlatBlock t | ast.PyStr t => text_sites e t
  | ast.Decl _ | ast.FunCall _ => 0
  | ast.Assign lhs rhs | ast.Incr lhs rhs => cexp_sites e lhs + cexp_sites e rhs
  | ast.If _ then_ else_ =>
      sites e then_ + match else_ with Some x => sites e x | None => 0 end
  | ast.For _ _ incr body => sites e incr + list_sum (map (sites e) body)
  | ast.Block children _ => list_sum (map (sites e) children)
  end.

Definition total_sites (e : expr) (l : list ast.stmt) : nat :=
  list_sum (map (sites e) l).

(** The node a C++ text evaluates at its top. *)
Definition cpp_src (c : cpp) : option expr :=
  match c with
  | CSym _ | CParen _ => None
  | CTranspose src _ | CInverse src _ | CNeg src _ | CBin src _ _ _
  | CBlock src _ _ _ _ _ | CSolve src _ _ => Some src
  end.

(** [assigns x s]: [s] gives the node [x] a temporary of its own, either
    [auxT = <x>] or the declaration of a decomposition object. *)
Definition assigns (x : expr) (s : ast.stmt) : Prop :=
  match s with
  | ast.Assign (ast.Symbol _ []) (ast.FlatExpr c) => cpp_src c = Some x
  | ast.PyStr (Decomposition src _ _ _ _) => src = x
  | _ => False
  end.

(** ** The statements of the specification, as definitions *)

Definition opt {A : Type} (present : bool) (x : A) : list A :=
  if present then [x] else [].


Section SpecStatements.
Context `{Collaborators}.



End SpecStatements.

(** The calls the three layer cases of the specification select. *)
Definition bottom_calls (b : LocalKernelBuilder) : list call :=
  interior_facet_horiz_top (assembly_calls b) ++ exterior_facet_bottom (assembly_calls b).
Definition top_calls (b : LocalKernelBuilder) : list call :=
  interior_facet_horiz_bottom (assembly_calls b) ++ exterior_facet_top (assembly_calls b).
Definition interior_layer_calls (b : LocalKernelBuilder) : list call :=
  interior_facet_horiz_bottom (assembly_calls b)
  ++ interior_facet_horiz_top (assembly_calls b).

(** The layer dispatch as the specification states it, for the statement
    [s] run with the layer argument equal to [layer]. *)
Definition spec_layer_dispatch (b : LocalKernelBuilder) (s : ast.stmt)
    (num_layers layer : Z) : Prop :=
  let run := exec (set_scalar (mk_env [] []) (mesh_layer_sym b) layer) s in
  (layer = 0%Z -> run = Some (bottom_calls b))
  /\ (layer = (num_layers - 1)%Z -> run = Some (top_calls b))
  /\ (layer <> 0%Z -> layer <> (num_layers - 1)%Z -> run = Some (interior_layer_calls b)).

(** The calls one facet selects, given its row of the facet-marker buffer:
    column 0 tells exterior (0) from interior (1), column 1 is the
    subdomain id. *)
Definition with_subdomain (sd : Z) (l : list (Z * call)) : list call :=
  map snd (List.filter (fun x => Z.eqb (fst x) sd) l).

Definition calls_for_facet (b : LocalKernelBuilder) (row : list Z) : list call :=
  let ac := assembly_calls b in
  match row with
  | [kind; sd] =>
      (if Z.eqb kind 0
       then exterior_facet ac ++ exterior_facet_vert ac
            ++ with_subdomain sd (subdomains_exterior_facet ac)
       else [])
      ++
      (if Z.eqb kind 1
       then interior_facet ac ++ interior_facet_vert ac
            ++ with_subdomain sd (subdomains_interior_facet ac)
       else [])
  | _ => []
  end.

Definition facet_env (b : LocalKernelBuilder) (markers : list (list Z)) : env :=
  mk_env [] [(cell_facet_sym b, markers)].

(** Rows of the full operand that direct indexing by the fields [ids]
    selects, when the operand's fields have the extents [exts]. *)
Definition field_rows (exts : list nat) (k : nat) : list nat :=
  seq (list_sum (firstn k exts)) (nth k exts 0).

Definition rows_of (exts : list nat) (ids : list nat) : list nat :=
  flat_map (field_rows exts) ids.

Definition initial_state : compiler_state := mk_state ∅ [].

(** The runs of [SlateKernel.__init__] that returned a kernel. *)
Definition compilations (st : compiler_state) : list (nat * string) :=
  map fst (List.filter snd (runs st)).


Section Requests.
Context `{Collaborators}.


Definition resolve (tp : option params) : params :=
  match tp with
  | None => form_compiler_parameters
  | Some p => p
  end.



End Requests.

(** ** Predicates used by the properties *)

(** A per-coefficient buffer of the loopy kernel. *)
Definition coefficient_buffer (a : loopy_arg) : Prop :=
  la_kind a = GlobalArg /\ la_dtype a = "double"%string /\
  (String.prefix "coeff" (la_name a) = true \/ String.prefix "w_" (la_name a) = true).

(** What the [If] statements of the groups run when column 1 holds [sd]. *)
Definition run_groups (sd : Z) (groups : list (Z * list (Z * call))) : list call :=
  flat_map (fun g => if Z.eqb sd (fst g) then map snd (snd g) else []) groups.

Definition item_le (x y : string * string) : Prop := item_leb x y = true.


(** Every [Block] node of [x] has indices that unpack and are contiguous. *)
Fixpoint all_blocks_contiguous (x : expr) : bool :=
  match x with
  | Tensor _ _ | AssembledVector _ _ => true
  | Transpose _ t | Inverse _ t | Negative _ t | Factorization _ t _ =>
      all_blocks_contiguous t
  | Add _ a b | Mul _ a b | Solve _ a b =>
      all_blocks_contiguous a && all_blocks_contiguous b
  | Block _ t indices =>
      match unpack_indices indices with
      | Ok (rids, cids) => contiguous rids && contiguous cids
      | Raise _ => false
      end && all_blocks_contiguous t
  end.

(** Every key of a dictionary of temporaries satisfies [P]. *)
Definition keys_satisfy (P : expr -> bool) (d : edict) : Prop :=
  forall k v, In (k, v) d -> P k = true.

(** The keys of a dictionary of temporaries hold no non-contiguous block. *)
Definition contiguous_keys (d : edict) : Prop := keys_satisfy all_blocks_contiguous d.

(** What holds of every terminal tensor and assembled vector. *)
Definition holds_of_terminals (P : expr -> bool) : Prop :=
  forall x, is_Tensor x || is_AssembledVector x = true -> P x = true.

(** The extents of the operand's fields along an axis. *)
Definition extents (tensor : expr) (axis : nat) : list nat :=
  nth axis (shapes (attrs_of tensor)) [].

(** Every assembly call of the builder. *)
Definition all_calls (b : LocalKernelBuilder) : list call :=
  let ac := assembly_calls b in
  cell ac ++ interior_facet ac ++ interior_facet_vert ac
  ++ exterior_facet ac ++ exterior_facet_vert ac
  ++ map snd (subdomains_exterior_facet ac) ++ map snd (subdomains_interior_facet ac)
  ++ interior_facet_horiz_top ac ++ interior_facet_horiz_bottom ac
  ++ exterior_facet_top ac ++ exterior_facet_bottom ac.

(** The names defined once the statements [l] have run. *)
Definition defined_after (defined : list string) (l : list ast.stmt) : list string :=
  fold_left (fun d s => writes s ++ d) l defined.

(** [x] is the tensor some assembly call of the builder accumulates into. *)
Definition tensor_of (builder : LocalKernelBuilder) (x : string) : Prop :=
  exists c, In c (all_calls builder) /\ x = call_tensor c.

(** [x] is a kernel argument holding a coefficient of one of [cinfos]. *)
Definition coefficient_symbol (builder : LocalKernelBuilder) (cinfos : list CoefficientInfo)
    (x : string) : Prop :=
  exists ci f, In ci cinfos /\ function_of (vector ci) = Ok f
               /\ In x (coefficient builder f).

(** Operands come first: no node of the list is followed by one of its
    own (direct or indirect) operands. *)
Definition operands_first (l : list expr) : Prop :=
  ForallOrdPairs (fun y z => ~ strict_subexpr z y) l.

(** A statement that evaluates no node and gives no node a temporary. *)
Definition no_node (s : ast.stmt) : Prop :=
  forall x, sites x s = 0 /\ ~ assigns x s.

Definition terminal_kind (x : expr) : bool := is_Tensor x || is_AssembledVector x.

(** ** A worked example

    The expression [(S * v) + (S^T * v)] with [S = T0 + T1] shared by two
    parents, on an extruded-free triangle with facet and layer integrals,
    and stand-ins for the imported functions.  [topological_sort] of
    [slac.utils] is replaced by the ordering by node count, which places
    operands before the nodes that use them. *)

Definition a_mat (p : option nat) : attrs := mk_attrs [3; 3] 2 p [[3]; [3]].
Definition a_vec (p : option nat) : attrs := mk_attrs [3] 1 p [[3]].

Definition demo_f : Function_ := mk_function 0 false 1.
Definition demo_T0 : expr := Tensor (a_mat None) 0.
Definition demo_T1 : expr := Tensor (a_mat None) 1.
Definition demo_v : expr := AssembledVector (a_vec None) demo_f.
Definition demo_S : expr := Add (a_mat (Some 1)) demo_T0 demo_T1.
Definition demo_St : expr := Transpose (a_mat None) demo_S.
Definition demo_tree : expr :=
  Add (a_vec (Some 1)) (Mul (a_vec (Some 2)) demo_S demo_v)
                       (Mul (a_vec (Some 2)) demo_St demo_v).

Definition demo_domain : Domain := mk_domain 0 false 3 3 4.

Definition demo_expr : TensorBase :=
  mk_tensor_base demo_tree false [demo_domain] [demo_f] "3f2a" 7.

Fixpoint insert_by_size (e : expr) (l : list expr) : list expr :=
  match l with
  | [] => [e]
  | x :: r => if esize e <=? esize x then e :: l else x :: insert_by_size e r
  end.

Definition sort_by_size (l : list expr) : list expr := fold_right insert_by_size [] l.

(** Occurrences of [s] as an operand of a node of [dag], plus one for the
    root: what the builder's [Counter] holds. *)
Definition count_references (root : expr) (dag : list expr) (s : expr) : nat :=
  (if expr_eq_dec root s then 1 else 0)
  + list_sum (map (fun n => count_occ expr_eq_dec (operands n) s) dag).

Definition demo_dag : list expr :=
  [demo_tree; Mul (a_vec (Some 2)) demo_S demo_v; Mul (a_vec (Some 2)) demo_St demo_v;
   demo_St; demo_S; demo_v; demo_T0; demo_T1].

Definition demo_call (name tensor_ : string) : call := mk_call name tensor_ ["coords"%string].

Definition demo_calls : AssemblyCalls :=
  mk_calls [demo_call "cell_integral" "T0"]
           [demo_call "interior_facet_integral" "T1"] []
           [demo_call "exterior_facet_integral" "T1"] []
           [(5%Z, demo_call "exterior_facet_sd5" "T0")]
           [(2%Z, demo_call "interior_facet_sd2" "T1")]
           [demo_call "horiz_top" "T0"] [demo_call "horiz_bottom" "T0"]
           [demo_call "exterior_top" "T1"] [demo_call "exterior_bottom" "T1"].

Definition demo_builder_for (e : TensorBase) : LocalKernelBuilder :=
  mk_builder e [(demo_T0, "T0"%string); (demo_T1, "T1"%string)]
             (count_references (tree e) demo_dag) demo_dag
             [(3, [mk_cinfo 0 0 [3] demo_v "VecTemp0"])]
             demo_calls
             (fun f => ["w_" ++ fmt_d (fn_id f)]%string)
             true true true true
             "coords" "cell_orientations" "cell_facets" "i0" "layer" "cell_sizes"
             [] [] 10 4 "cell".

Definition demo_builder : LocalKernelBuilder := demo_builder_for demo_expr.


(** The same expression on a mesh extruded by a single layer
    ([layers = 2], so [num_layers = 1]). *)
Definition single_layer_expr : TensorBase :=
  mk_tensor_base demo_tree false [mk_domain 0 true 5 3 2] [demo_f] "3f2a" 8.

(** A mixed expression, and one on two domains. *)
Definition mixed_expr : TensorBase :=
  mk_tensor_base demo_tree true [demo_domain] [demo_f] "77c1" 9.
Definition two_domain_expr : TensorBase :=
  mk_tensor_base demo_tree false [demo_domain; mk_domain 1 false 3 3 4] [demo_f] "9ab0" 10.



(** The facet-marker buffer of the specification's example. *)
Definition demo_markers : list (list Z) := [[1; 0]; [0; 0]; [1; 2]]%Z.

Definition demo_loopy_builder_for (e : TensorBase) : LocalLoopyKernelBuilder :=
  mk_loopy_builder e [(demo_T0, "T0"%string); (demo_T1, "T1"%string)]
    [("T0"%string, mk_loopy_arg GlobalArg "T0" [3; 3] "double");
     ("T1"%string, mk_loopy_arg GlobalArg "T1" [3; 3] "double")] [3]
    [("coords"%string, 6); ("orientations"%string, 1); ("cell_sizes"%string, 3)]
    "coords" "orientations" "cell_sizes" "cell_facets" 3
    [(3, [mk_cinfo 0 0 [3] demo_v "VecTemp0"])]
    true true true true [] "S*v + S.T*v".

Definition demo_params : params :=
  [("mode"%string, "'spectral'"%string); ("quadrature_degree"%string, "4"%string)].

Definition demo : Collaborators := {|
  ScalarType_c := "double";
  EIGEN_INCLUDE_DIR := "/usr/include/eigen3";
  topological_sort := sort_by_size;
  new_LocalKernelBuilder := fun e _ => Ok (demo_builder_for e);
  new_LocalLoopyKernelBuilder := fun e _ => Ok (demo_loopy_builder_for e);
  gem_dag := unit;
  slate_to_gem_translate := fun _ => Ok tt;
  loopy_backend := fun _ _ _ => Ok ("void slate_kernel(){}"%string, "slate_kernel"%string);
  multiindex := fun _ => Ok ["i"%string];
  md5_hexdigest := fun s => s;
  form_compiler_parameters := demo_params
|}.

(** The kernel the example compiles to (the empty kernel stands for an
    exception). *)
Definition empty_kernel : SplitKernel :=
  mk_split [] (mk_kinfo (mk_kernel (LoopyCode EmptyString) EmptyString false [] [] [] 0)
                        EmptyString false EmptyString 0 [] false false false).

Definition kernel_of (r : result SplitKernel) : SplitKernel :=
  match r with
  | Ok k => k
  | Raise _ => empty_kernel
  end.

Definition demo_kernel : SplitKernel :=
  kernel_of (@generate_kernel demo demo_expr demo_params).

Definition demo_loopy_args : list loopy_arg :=
  match @gem_to_loopy_args demo tt (demo_loopy_builder_for demo_expr) with
  | Ok l => l
  | Raise _ => []
  end.



Definition demo_big : expr := Tensor (mk_attrs [9; 3] 2 None [[3; 3; 3]; [3]]) 2.
Definition demo_block_attrs : attrs := mk_attrs [6; 3] 2 None [[3; 3]; [3]].
Definition demo_block : expr := Block demo_block_attrs demo_big [[0; 2]; [0]].
Definition block_expr : TensorBase :=
  mk_tensor_base demo_block false [demo_domain] [] "b10c" 12.

(** The block of the second and third row field of the same operand. *)
Definition contiguous_block : expr := Block demo_block_attrs demo_big [[1; 2]; [0]].
Definition contiguous_block_expr : TensorBase :=
  mk_tensor_base contiguous_block false [demo_domain] [] "b11c" 15.

Definition by_size (l : list expr) : Prop :=
  ForallOrdPairs (fun y z => esize y <= esize z) l.

(** ** Further predicates on the translated text and the dictionaries *)

(** The precedence that a text shows at its top: that of the Slate node
    of an operator written without parentheses around it.  Symbols,
    parenthesized texts and the postfix [.transpose()] and [.inverse()]
    show none. *)
Definition loose_prec (c : cpp) : option nat :=
  match c with
  | CNeg s _ | CBin s _ _ _ | CBlock s _ _ _ _ _ | CSolve s _ _ => prec (attrs_of s)
  | CSym _ | CTranspose _ _ | CInverse _ _ | CParen _ => None
  end.

(** [no_weaker ctx s]: the node [s] binds at least as tightly as the
    context it is written in. *)
Definition no_weaker (ctx : option nat) (s : expr) : Prop :=
  forall p q, ctx = Some p -> prec (attrs_of s) = Some q -> p <= q.

(** [placed ctx c]: in the text [c], written as an operand of an operator
    of precedence [ctx], parentheses stand exactly around the operators
    that bind more weakly than the operator they are an operand of. *)
Fixpoint placed (ctx : option nat) (c : cpp) : Prop :=
  match c with
  | CSym _ => True
  | CTranspose _ a | CInverse _ a => placed None a
  | CParen a =>
      (exists p q, ctx = Some p /\ loose_prec a = Some q /\ q < p) /\ placed None a
  | CNeg s a | CBlock s a _ _ _ _ =>
      no_weaker ctx s /\ placed (prec (attrs_of s)) a
  | CBin s _ a b | CSolve s a b =>
      no_weaker ctx s /\ placed (prec (attrs_of s)) a /\ placed (prec (attrs_of s)) b
  end.

(** The node kinds [slate_to_cpp] has no format for: they must come with
    a temporary. *)
Definition needs_declaration (s : expr) : bool :=
  is_Tensor s || is_AssembledVector s || is_Factorization s.

(** [d'] declares every node that [d] declares. *)
Definition declares_more (d d' : edict) : Prop :=
  forall k, lookup_temp k d <> None -> lookup_temp k d' <> None.

(** The names a list of statements declares at its top level. *)
Definition declared_names (l : list ast.stmt) : list string :=
  flat_map (fun s => match s with ast.Decl d => [ast.d_sym d] | _ => [] end) l.

(** The name [auxiliary_expressions] gives to the node [x] when the
    dictionary holds [n] entries. *)
Definition auxiliary_name (x : expr) (n : nat) : string :=
  ((if is_Factorization x then "dec" else "auxT") ++ fmt_d n)%string.

(** The loop [coefficient_temporaries] writes for one entry of
    [builder.coefficient_vecs], given the source symbol of each
    component. *)
Definition coefficient_loop (dofs : nat) (components : list (CoefficientInfo * string))
  : ast.stmt :=
  ast.For (unsigned_counter j1)
          (ast.Less (sym j1) (ast.Lit (Z.of_nat dofs)))
          (ast.Incr (sym j1) (ast.Lit 1))
          (map (fun cw : CoefficientInfo * string =>
                  ast.Assign
                    (ast.Symbol (local_temp (fst cw))
                       [ast.Sum (ast.Lit (Z.of_nat (offset_index (fst cw)))) (sym j1)])
                    (ast.Symbol (snd cw) [sym j1]))
               components).

(** The loops among the statements. *)
Definition loops_of (l : list ast.stmt) : list ast.stmt :=
  List.filter (fun s => match s with ast.For _ _ _ _ => true | _ => false end) l.

(** [builder.coefficient(function)[fs_i]]: the kernel argument a
    component is copied from. *)
Definition source_symbol (builder : LocalKernelBuilder) (cinfo : CoefficientInfo)
  : result string :=
  function <~ function_of (vector cinfo) ;;
  index (coefficient builder function) (space_index cinfo).

(** The loops over the entries of [builder.coefficient_vecs], written
    without the dictionary. *)
Definition expected_loops (builder : LocalKernelBuilder) : result (list ast.stmt) :=
  result_map
    (fun item : nat * list CoefficientInfo =>
       ws <~ result_map (source_symbol builder) (snd item) ;;
       Ok (coefficient_loop (fst item) (combine (snd item) ws)))
    (coefficient_vecs builder).

(** The environment a kernel runs in: the facet markers of the cell and
    the layer it lies in. *)
Definition kernel_env (b : LocalKernelBuilder) (markers : list (list Z)) (layer : Z) : env :=
  set_scalar (facet_env b markers) (mesh_layer_sym b) layer.

(** The calls of the layer conditional on the layer [layer] of a column
    of [num_layers] layers. *)
Definition calls_for_layer (b : LocalKernelBuilder) (num_layers layer : Z) : list call :=
  if (layer =? 0)%Z then bottom_calls b
  else if (layer =? num_layers - 1)%Z then top_calls b
       else interior_layer_calls b.

(** A statement that makes no call, whatever the environment. *)
Definition silent (s : ast.stmt) : Prop := forall ρ, exec ρ s = Some [].

(** An argument named [coeff<k>]. *)
Definition coeff_named (a : loopy_arg) : bool := String.prefix "coeff" (la_name a).


(** ** Further inputs of the worked example *)

(** The dictionary of the example after the terminal and the coefficient
    temporaries. *)
Definition demo_terminals : edict := [(demo_T0, "T0"%string); (demo_T1, "T1"%string)].
Definition demo_declared : edict := demo_terminals ++ [(demo_v, "VecTemp0"%string)].

Definition value_of {A : Type} (r : result A) (a : A) : A :=
  match r with
  | Ok x => x
  | Raise _ => a
  end.

Definition demo_translation : cpp :=
  value_of (slate_to_cpp demo_tree demo_declared None) (CSym EmptyString).

Definition demo_coefficient_temps : list ast.stmt * edict :=
  value_of (coefficient_temporaries demo_builder demo_terminals) ([], []).

Definition demo_auxiliary : list ast.stmt * edict :=
  value_of (@auxiliary_expressions demo demo_builder demo_declared) ([], []).

(** A block given by its row fields alone. *)
Definition demo_row_block : expr := Block demo_block_attrs demo_big [[1; 2]].

(** A builder that holds a temporary for a tensor of rank three. *)
Definition rank3_T : expr := Tensor (mk_attrs [2; 2; 2] 3 None [[2]; [2]; [2]]) 4.

Definition rank3_builder_for (e : TensorBase) : LocalKernelBuilder :=
  mk_builder e [(demo_T0, "T0"%string); (rank3_T, "T1"%string)]
             (count_references (tree e) demo_dag) demo_dag [] demo_calls
             (fun f => ["w_" ++ fmt_d (fn_id f)]%string)
             false false false false
             "coords" "cell_orientations" "cell_facets" "i0" "layer" "cell_sizes"
             [] [] 10 4 "cell".

Definition rank3_demo : Collaborators := {|
  ScalarType_c := "double";
  EIGEN_INCLUDE_DIR := "/usr/include/eigen3";
  topological_sort := sort_by_size;
  new_LocalKernelBuilder := fun e _ => Ok (rank3_builder_for e);
  new_LocalLoopyKernelBuilder := fun e _ => Ok (demo_loopy_builder_for e);
  gem_dag := unit;
  slate_to_gem_translate := fun _ => Ok tt;
  loopy_backend := fun _ _ _ => Ok ("void slate_kernel(){}"%string, "slate_kernel"%string);
  multiindex := fun _ => Ok ["i"%string];
  md5_hexdigest := fun s => s;
  form_compiler_parameters := demo_params
|}.

(** A scalar expression: the inner product of the coefficient with
    itself, of rank 0. *)
Definition scalar_tree : expr :=
  Mul (mk_attrs [] 0 (Some 2) []) (Transpose (a_vec None) demo_v) demo_v.

Definition scalar_expr : TensorBase :=
  mk_tensor_base scalar_tree false [demo_domain] [demo_f] "5c0d" 13.

Definition scalar_kernel : SplitKernel :=
  kernel_of (@generate_kernel demo scalar_expr demo_params).

(** A loopy builder that needs the cell sizes but holds no extent for
    them. *)
Definition keyless_loopy_builder : LocalLoopyKernelBuilder :=
  mk_loopy_builder demo_expr [(demo_T0, "T0"%string); (demo_T1, "T1"%string)]
    [("T0"%string, mk_loopy_arg GlobalArg "T0" [3; 3] "double");
     ("T1"%string, mk_loopy_arg GlobalArg "T1" [3; 3] "double")] [3]
    [("coords"%string, 6)]
    "coords" "orientations" "cell_sizes" "cell_facets" 3
    [(3, [mk_cinfo 0 0 [3] demo_v "VecTemp0"])]
    false true false false [] "S*v + S.T*v".

(** * Properties *)

Example gencode_example :
  gencode_cpp (CBlock (Tensor (mk_attrs [] 0 None []) 0)
                 (CBin (Tensor (mk_attrs [] 0 None []) 0) "+" (CSym "T0") (CSym "T1")) 3 12 0 3)
  = "(T0 + T1).block<3, 12>(0, 3)"%string.
Proof. reflexivity. Qed.

Lemma bind_ok {A B : Type} (c : result A) (k : A -> result B) (b : B) :
  bind c k = Ok b -> exists a, c = Ok a /\ k a = Ok b.
Proof. destruct c as [a|e]; simpl; intros E; [eauto | discriminate]. Qed.

Lemma Ok_inj {A : Type} (a b : A) : Ok a = Ok b -> a = b.
Proof. congruence. Qed.

(** [step E x Hx]: from [E : (x <~ c ;; k) = Ok b], name the value of
    [c] and keep the rest of the computation in [E]. *)
Ltac step E x Hx :=
  apply bind_ok in E; destruct E as (x & Hx & E); cbv beta in E.

Section Properties.
Context `{Collaborators}.

Lemma generate_kernel_ast_ok builder statements declared ki :
  generate_kernel_ast builder statements declared = Ok ki ->
  exists matrix_type cpp_string,
    slate_to_cpp (tree (expression builder)) declared None = Ok cpp_string /\
    k_code (kernel ki) =
      CoffeeAst (templated_subkernels builder)
        (ast.mk_fundecl "void" macro_kernel_name
           (kernel_args builder ("A" ++ fmt_d (length declared))%string)
           (opt (needs_cell_facets builder)
                (ast.FlatBlock (FacetCast f_dtype (cell_facet_sym builder) arg_cell_facets))
            ++ statements
            ++ [ast.FlatBlock (Comment "/* Map eigen tensor into C struct */");
                ast.FlatBlock (EigenMap (cat ["Eigen::Map<"; matrix_type; " >"]%string)
                                 ("T" ++ fmt_d (length declared))%string ScalarType_c
                                 ("A" ++ fmt_d (length declared))%string);
                ast.FlatBlock (Comment "/* Linear algebra expression */");
                ast.Incr (sym ("T" ++ fmt_d (length declared))%string)
                         (ast.FlatExpr cpp_string)])
           ["static"%string; "inline"%string]).
Proof.
  unfold generate_kernel_ast. intros E.
  step E matrix_type Hty. step E cpp_string Hcpp. apply Ok_inj in E. subst ki. simpl.
  exists matrix_type, cpp_string. split; [exact Hcpp|].
  destruct (needs_cell_facets builder); reflexivity.
Qed.

(** The stages a successful [generate_kernel] went through. *)
Lemma generate_kernel_ok e p k :
  generate_kernel e p = Ok k ->
  exists builder terminal declared1 subkernel_calls coeff declared2 aux declared3 ki,
    is_mixed e = false /\
    new_LocalKernelBuilder e p = Ok builder /\
    terminal_temporaries builder [] = Ok (terminal, declared1) /\
    tensor_assembly_calls builder = Ok subkernel_calls /\
    match coefficient_vecs builder with
    | [] => Ok ([], declared1)
    | _ => coefficient_temporaries builder declared1
    end = Ok (coeff, declared2) /\
    auxiliary_expressions builder declared2 = Ok (aux, declared3) /\
    generate_kernel_ast builder (terminal ++ subkernel_calls ++ coeff ++ aux) declared3
      = Ok ki /\
    kinfo k = ki.
Proof.
  unfold generate_kernel. intros E.
  destruct (is_mixed e) eqn:Emixed; [discriminate|].
  destruct (1 <? length (ufl_domains e)) eqn:Edom; [discriminate|].
  step E builder Hb. step E td Ht. destruct td as [terminal declared1].
  step E scalls Hsc. step E cdd Hc. destruct cdd as [coeff declared2].
  step E ad Ha. destruct ad as [aux declared3].
  step E ki Hki. apply Ok_inj in E. subst k. simpl.
  exists builder, terminal, declared1, scalls, coeff, declared2, aux, declared3, ki.
  repeat split; assumption.
Qed.

(** C8: the last statement of the macro kernel is [ast.Incr] into the
    result symbol, never [ast.Assign], and what it adds is the
    translation of the root expression under the dictionary that the
    stages of this very kernel built: the terminal temporaries from the
    empty dictionary, then the coefficient temporaries, then the
    auxiliary temporaries.  The statements before it are the ones of
    these stages, in this order; the result symbol is the Eigen map laid
    over the kernel's first argument, the output buffer. *)
Theorem final_statement_increments e p k builder
    (Hgen : generate_kernel e p = Ok k)
    (Hb : new_LocalKernelBuilder e p = Ok builder) :
  exists terminal declared1 subkernel_calls coeff declared2 aux declared3
         matrix_type cpp_string,
    terminal_temporaries builder [] = Ok (terminal, declared1) /\
    tensor_assembly_calls builder = Ok subkernel_calls /\
    match coefficient_vecs builder with
    | [] => Ok ([], declared1)
    | _ => coefficient_temporaries builder declared1
    end = Ok (coeff, declared2) /\
    auxiliary_expressions builder declared2 = Ok (aux, declared3) /\
    eigen_matrixbase_type
      (if rank (attrs_of (tree (expression builder))) =? 0 then [1]
       else shape (attrs_of (tree (expression builder)))) = Ok matrix_type /\
    slate_to_cpp (tree (expression builder)) declared3 None = Ok cpp_string /\
    let result_sym := ("T" ++ fmt_d (length declared3))%string in
    let output := ("A" ++ fmt_d (length declared3))%string in
    let result_statement :=
      ast.FlatBlock (EigenMap (cat ["Eigen::Map<"; matrix_type; " >"]%string)
                              result_sym ScalarType_c output) in
    let increment := ast.Incr (sym result_sym) (ast.FlatExpr cpp_string) in
    kernel_body k
    = opt (needs_cell_facets builder)
          (ast.FlatBlock (FacetCast f_dtype (cell_facet_sym builder) arg_cell_facets))
      ++ terminal ++ subkernel_calls ++ coeff ++ aux
      ++ [ast.FlatBlock (Comment "/* Map eigen tensor into C struct */");
          result_statement;
          ast.FlatBlock (Comment "/* Linear algebra expression */");
          increment] /\
    last (kernel_body k) = Some increment /\
    In result_statement (kernel_body k) /\
    hd_error (kernel_arg_names k) = Some output.
Proof.
  destruct (generate_kernel_ok _ _ _ Hgen)
    as (b & t & d1 & scalls & co & d2 & au & d3 & ki' & _ & Hb' & Ht & Hsc & Hco & Hau
        & Hk & Hki).
  rewrite Hb in Hb'. apply Ok_inj in Hb'. subst b.
  unfold generate_kernel_ast in Hk.
  step Hk ty Hty. step Hk c Hc. apply Ok_inj in Hk.
  exists t, d1, scalls, co, d2, au, d3, ty, c.
  repeat (split; [assumption|]).
  cbv zeta.
  assert (Hbody : kernel_body k
                  = opt (needs_cell_facets builder)
                      (ast.FlatBlock (FacetCast f_dtype (cell_facet_sym builder)
                                                arg_cell_facets))
                    ++ t ++ scalls ++ co ++ au
                    ++ [ast.FlatBlock (Comment "/* Map eigen tensor into C struct */");
                        ast.FlatBlock
                          (EigenMap (cat ["Eigen::Map<"; ty; " >"]%string)
                                    ("T" ++ fmt_d (length d3))%string ScalarType_c
                                    ("A" ++ fmt_d (length d3))%string);
                        ast.FlatBlock (Comment "/* Linear algebra expression */");
                        ast.Incr (sym ("T" ++ fmt_d (length d3))%string) (ast.FlatExpr c)]).
  { unfold kernel_body, macro_kernel_of. rewrite Hki. subst ki'.
    cbn [kernel k_code ast.f_body]. unfold opt.
    destruct (needs_cell_facets builder); cbn [app]; rewrite <- ?app_assoc; reflexivity. }
  split; [exact Hbody|]. split; [|split].
  - rewrite Hbody, !last_app. reflexivity.
  - rewrite Hbody, !in_app_iff. do 5 right. right. left. reflexivity.
  - unfold kernel_arg_names, macro_kernel_of. rewrite Hki. subst ki'. reflexivity.
Qed.

(** *** Argument order *)

Lemma result_map_Forall {A B : Type} (f : A -> result B) (P : B -> Prop) l ys :
  result_map f l = Ok ys ->
  (forall x y, f x = Ok y -> P y) ->
  Forall P ys.
Proof.
  revert ys. induction l as [|x l IH]; simpl; intros ys E HP.
  - apply Ok_inj in E. subst. constructor.
  - step E y Hy. step E ys' Hys. apply Ok_inj in E. subst.
    constructor; [eapply HP; eassumption | apply IH; assumption].
Qed.

Lemma prefix_append (s t : string) : String.prefix s (s ++ t) = true.
Proof.
  induction s as [|a s IH]; simpl.
  - destruct t; reflexivity.
  - destruct (ascii_dec a a); [exact IH | congruence].
Qed.

Lemma coefficient_args_buffers lb shapes_ fns i c get here get' :
  coefficient_args lb shapes_ fns i c get = Ok (here, get') ->
  Forall coefficient_buffer here.
Proof.
  unfold coefficient_args. intros E.
  step E found Hfound.
  assert (Hf : Forall coefficient_buffer found).
  { eapply result_map_Forall; [exact Hfound|].
    intros [k fi] y Hy. simpl in Hy. step Hy shp Hshp. apply Ok_inj in Hy. subst y.
    repeat split. left. apply prefix_append. }
  destruct (indices_of c fns) as [|i0 rest].
  - destruct (element_is_mixed c).
    + step E split_ Hsplit. apply Ok_inj in E. injection E as <- <-.
      apply Forall_app. split; [exact Hf|].
      eapply result_map_Forall; [exact Hsplit|].
      intros j y Hy. simpl in Hy. step Hy ext Hext. apply Ok_inj in Hy. subst y.
      repeat split. right. apply (prefix_append "w_").
    + step E ext Hext. apply Ok_inj in E. injection E as <- <-.
      apply Forall_app. split; [exact Hf|].
      constructor; [|constructor]. repeat split. right. apply (prefix_append "w_").
  - apply Ok_inj in E. injection E as <- <-. exact Hf.
Qed.

Lemma coefficients_args_buffers lb shapes_ fns cs : forall i get l,
  coefficients_args lb shapes_ fns i cs get = Ok l ->
  Forall coefficient_buffer l.
Proof.
  induction cs as [|c cs IH]; simpl; intros i get l E.
  - apply Ok_inj in E. subst. constructor.
  - step E hg Hhere. destruct hg as [here get'].
    step E more Hmore. apply Ok_inj in E. subst l.
    apply Forall_app. split.
    + eapply coefficient_args_buffers; eassumption.
    + eapply IH; eassumption.
Qed.


End Properties.

Lemma final_statement_increments_witness :
  @generate_kernel demo demo_expr demo_params = Ok demo_kernel
  /\ exists cpp_string,
       slate_to_cpp demo_tree (snd demo_auxiliary) None = Ok cpp_string
       /\ gencode_cpp cpp_string
          = "auxT3 * VecTemp0 + (auxT3).transpose() * VecTemp0"%string
       /\ last (kernel_body demo_kernel)
          = Some (ast.Incr (sym "T4") (ast.FlatExpr cpp_string))
       /\ hd_error (kernel_arg_names demo_kernel) = Some "A4"%string.
Proof.
  assert (Hgen : @generate_kernel demo demo_expr demo_params = Ok demo_kernel)
    by (vm_compute; reflexivity).
  split; [exact Hgen|].
  destruct (@final_statement_increments demo demo_expr demo_params demo_kernel
              demo_builder Hgen eq_refl)
    as (t & d1 & sc & co & d2 & au & d3 & ty & c & Ht & _ & Hco & Hau & _ & Hc & _
        & Hlast & _ & Hhd).
  vm_compute in Ht. injection Ht as <- <-.
  vm_compute in Hco. injection Hco as <- <-.
  vm_compute in Hau. injection Hau as <- <-.
  exists c. split; [exact Hc|].
  split; [vm_compute in Hc; injection Hc as <-; vm_compute; reflexivity|].
  split; [exact Hlast | exact Hhd].
Defined.


(** With cell sizes, the macro kernel takes them after the layer index. *)
Example macro_kernel_cell_sizes_are_last :
  map ast.d_sym (@kernel_args demo demo_builder "A4")
  = ["A4"; "coords"; "cell_orientations"; "w_0"; "arg_cell_facets"; "layer";
     "cell_sizes"]%string.
Proof. vm_compute. reflexivity. Qed.

(** *** Coefficient loops *)

(** C3: on a single coefficient of extent 3, the code emits one
    single-level loop over [j1 < 3] that writes [VecTemp0[0 + j1] = w_0[j1]]:
    there is no outer loop over nodes and no [dof_extent * i] term. *)
Theorem coefficient_loop_is_single_level :
  coefficient_temporaries demo_builder []
  = Ok ([ast.FlatBlock (Comment "/* Coefficient temporaries */");
         ast.Decl (plain_decl "Eigen::Matrix<double, 3, 1>" "VecTemp0");
         ast.FlatBlock (Comment "/* Loops for coefficient temps */");
         ast.For (unsigned_counter "j1")
                 (ast.Less (sym "j1") (ast.Lit 3))
                 (ast.Incr (sym "j1") (ast.Lit 1))
                 [ast.Assign
                    (ast.Symbol "VecTemp0" [ast.Sum (ast.Lit 0) (sym "j1")])
                    (ast.Symbol "w_0" [sym "j1"])]],
        [(demo_v, "VecTemp0"%string)]).
Proof. vm_compute. reflexivity. Qed.

(** *** Running the dispatch statements *)

Lemma exec_Block ρ l o : exec ρ (ast.Block l o) = exec_block ρ l.
Proof.
  simpl. induction l as [|x l IH]; simpl; [reflexivity|].
  rewrite IH. reflexivity.
Qed.

Lemma exec_block_app ρ l1 l2 a b :
  exec_block ρ l1 = Some a -> exec_block ρ l2 = Some b ->
  exec_block ρ (l1 ++ l2) = Some (a ++ b).
Proof.
  revert a. induction l1 as [|x l1 IH]; simpl; intros a E1 E2.
  - injection E1 as <-. exact E2.
  - destruct (exec ρ x) as [ax|]; [|discriminate].
    destruct (exec_block ρ l1) as [al|]; [|discriminate].
    injection E1 as <-. rewrite (IH al eq_refl E2). rewrite app_assoc. reflexivity.
Qed.

Lemma exec_block_calls ρ l : exec_block ρ (calls l) = Some l.
Proof.
  induction l as [|c l IH]; simpl; [reflexivity|]. rewrite IH. reflexivity.
Qed.

Lemma scalar_set ρ n v : scalar (set_scalar ρ n v) n = Some v.
Proof. unfold scalar, set_scalar. simpl. rewrite String.eqb_refl. reflexivity. Qed.

Lemma exec_If ρ c t e :
  exec ρ (ast.If c t e)
  = match eval ρ c with
    | Some v =>
        if (v =? 0)%Z
        then match e with Some x => exec ρ x | None => Some [] end
        else exec ρ t
    | None => None
    end.
Proof. destruct e; reflexivity. Qed.

Lemma eval_Eq_scalar ρ n v k :
  scalar ρ n = Some v ->
  eval ρ (ast.Eq (sym n) (ast.Lit k)) = Some (Z_of_bool (v =? k)%Z).
Proof. intros E. simpl. rewrite E. reflexivity. Qed.

Lemma exec_layer_conditional builder num_layers ρ layer :
  exec (set_scalar ρ (mesh_layer_sym builder) layer) (layer_conditional builder num_layers)
  = Some (if (layer =? 0)%Z then bottom_calls builder
          else if (layer =? num_layers - 1)%Z then top_calls builder
               else interior_layer_calls builder).
Proof.
  unfold layer_conditional.
  rewrite exec_If, (eval_Eq_scalar _ _ layer) by apply scalar_set.
  destruct (layer =? 0)%Z; simpl Z_of_bool; cbv iota.
  - change (1 =? 0)%Z with false. cbv iota. rewrite exec_Block. apply exec_block_calls.
  - change (0 =? 0)%Z with true. cbv iota.
    rewrite exec_If, (eval_Eq_scalar _ _ layer) by apply scalar_set.
    destruct (layer =? num_layers - 1)%Z; simpl Z_of_bool; cbv iota.
    + change (1 =? 0)%Z with false. cbv iota. rewrite exec_Block. apply exec_block_calls.
    + change (0 =? 0)%Z with true. cbv iota. rewrite exec_Block. apply exec_block_calls.
Qed.

(** C5 (as the code has it): the statement emitted for a layered mesh is
    one conditional on the layer argument.  Layer 0 runs the bottom calls
    only; a layer equal to [num_layers - 1] and different from 0 runs the
    top calls only; any other layer runs both interior-horizontal call
    lists and no exterior call. *)
Theorem layer_dispatch_three_way builder domain
    (Hd : ufl_domain (expression builder) = Ok domain)
    (Hl : needs_mesh_layers builder = true) :
  exists pre s,
    tensor_assembly_calls builder
    = Ok (pre ++ [ast.FlatBlock (Comment "/* Mesh levels: */"); s]) /\
    forall ρ layer,
      let num_layers := (layers domain - 1)%Z in
      let run := exec (set_scalar ρ (mesh_layer_sym builder) layer) s in
      (layer = 0%Z -> run = Some (bottom_calls builder))
      /\ (layer <> 0%Z -> layer = (num_layers - 1)%Z -> run = Some (top_calls builder))
      /\ (layer <> 0%Z -> layer <> (num_layers - 1)%Z ->
          run = Some (interior_layer_calls builder)).
Proof.
  exists (ast.FlatBlock (Comment "/* Assemble local tensors */")
          :: calls (cell (assembly_calls builder))
          ++ (if needs_cell_facets builder then facet_loop builder (facets_of domain)
              else [])),
         (layer_conditional builder (layers domain - 1)).
  split.
  - unfold tensor_assembly_calls. rewrite Hd, Hl. simpl.
    destruct (needs_cell_facets builder); simpl; unfold layer_dispatch;
      rewrite <- ?app_assoc; reflexivity.
  - intros ρ layer num_layers run. subst run.
    rewrite exec_layer_conditional. fold num_layers.
    repeat split.
    + intros ->. reflexivity.
    + intros Hne ->. apply Z.eqb_neq in Hne. rewrite Hne, Z.eqb_refl. reflexivity.
    + intros Hne Hne'. apply Z.eqb_neq in Hne, Hne'. rewrite Hne, Hne'. reflexivity.
Qed.

Lemma layer_dispatch_counterexample :
  exists pre s,
    tensor_assembly_calls (demo_builder_for single_layer_expr) = Ok (pre ++ [s]) /\
    ~ spec_layer_dispatch (demo_builder_for single_layer_expr) s 1 0.
Proof.
  exists (removelast
            (match tensor_assembly_calls (demo_builder_for single_layer_expr) with
             | Ok l => l
             | Raise _ => []
             end)),
         (layer_conditional (demo_builder_for single_layer_expr) 1).
  split.
  - vm_compute. reflexivity.
  - intros (_ & Htop & _). specialize (Htop eq_refl). vm_compute in Htop. discriminate.
Qed.

Lemma layer_dispatch_three_way_witness :
  ufl_domain (expression demo_builder) = Ok demo_domain /\
  needs_mesh_layers demo_builder = true /\
  exists pre s,
    tensor_assembly_calls demo_builder
    = Ok (pre ++ [ast.FlatBlock (Comment "/* Mesh levels: */"); s]) /\
    forall ρ layer,
      let num_layers := (layers demo_domain - 1)%Z in
      let run := exec (set_scalar ρ (mesh_layer_sym demo_builder) layer) s in
      (layer = 0%Z -> run = Some (bottom_calls demo_builder))
      /\ (layer <> 0%Z -> layer = (num_layers - 1)%Z -> run = Some (top_calls demo_builder))
      /\ (layer <> 0%Z -> layer <> (num_layers - 1)%Z ->
          run = Some (interior_layer_calls demo_builder)).
Proof.
  split; [reflexivity|]. split; [reflexivity|].
  apply (layer_dispatch_three_way demo_builder demo_domain); reflexivity.
Defined.

(** *** Facet dispatch *)

Lemma run_groups_absent sd groups :
  ~ In sd (map fst groups) -> run_groups sd groups = [].
Proof.
  induction groups as [|[k ms] rest IH]; simpl; intros Hn; [reflexivity|].
  destruct (Z.eqb_spec sd k) as [->|Hne].
  - exfalso. apply Hn. left. reflexivity.
  - apply IH. intros Hin. apply Hn. right. exact Hin.
Qed.

Lemma group_insert_spec x groups :
  List.NoDup (map fst groups) ->
  List.NoDup (map fst (group_insert x groups))
  /\ (forall k, In k (map fst (group_insert x groups)) -> k = fst x \/ In k (map fst groups))
  /\ (forall sd, run_groups sd (group_insert x groups)
                 = run_groups sd groups ++ (if Z.eqb sd (fst x) then [snd x] else [])).
Proof.
  induction groups as [|[k ms] rest IH]; simpl; intros Hnd.
  - split; [repeat constructor; intros []|]. split.
    + intros k [<-|[]]. left. reflexivity.
    + intros sd. destruct (Z.eqb sd (fst x)); reflexivity.
  - inversion Hnd as [|k' l' Hk Hrest]; subst.
    destruct (Z.eqb_spec (fst x) k) as [Heq|Hne]; simpl.
    + split; [exact Hnd|]. split; [intros k0 Hin; right; exact Hin|].
      intros sd. rewrite Heq. destruct (Z.eqb_spec sd k) as [->|Hsd].
      * rewrite (run_groups_absent k rest Hk), map_app, !app_nil_r. reflexivity.
      * rewrite app_nil_r. reflexivity.
    + destruct (IH Hrest) as (Hnd' & Hkeys & Hrun).
      split; [|split].
      * constructor; [|exact Hnd'].
        intros Hin. destruct (Hkeys k Hin) as [->|Hin']; [congruence | contradiction].
      * intros k0 [<-|Hin]; [right; left; reflexivity|].
        destruct (Hkeys k0 Hin) as [->|Hin']; [left; reflexivity | right; right; exact Hin'].
      * intros sd. rewrite Hrun, app_assoc. reflexivity.
Qed.

Lemma run_groups_fold sd l : forall groups,
  List.NoDup (map fst groups) ->
  run_groups sd (fold_left (fun g x => group_insert x g) l groups)
  = run_groups sd groups ++ with_subdomain sd l.
Proof.
  induction l as [|x l IH]; simpl; intros groups Hnd.
  - rewrite app_nil_r. reflexivity.
  - destruct (group_insert_spec x groups Hnd) as (Hnd' & _ & Hrun).
    rewrite (IH _ Hnd'), Hrun, <- app_assoc. f_equal.
    unfold with_subdomain. simpl. rewrite (Z.eqb_sym (fst x) sd).
    destruct (Z.eqb sd (fst x)); reflexivity.
Qed.

Lemma run_groups_groupby sd l : run_groups sd (groupby l) = with_subdomain sd l.
Proof. unfold groupby. rewrite run_groups_fold; [reflexivity | constructor]. Qed.

Lemma exec_subdomain_stmts ρ builder l sd :
  eval ρ (ast.Symbol (cell_facet_sym builder) [sym (it_sym builder); ast.Lit 1]) = Some sd ->
  exec_block ρ (subdomain_stmts builder l) = Some (with_subdomain sd l).
Proof.
  intros Hsd. rewrite <- run_groups_groupby. unfold subdomain_stmts.
  induction (groupby l) as [|[k ms] groups IH]; [reflexivity|].
  cbn [map exec_block fst snd]. rewrite IH, exec_If.
  assert (Hc : eval ρ (ast.Eq (ast.Symbol (cell_facet_sym builder)
                                 [sym (it_sym builder); ast.Lit 1]) (ast.Lit k))
               = Some (Z_of_bool (sd =? k)%Z)).
  { cbn [eval] in Hsd |- *. rewrite Hsd. reflexivity. }
  rewrite Hc. cbn [run_groups flat_map fst snd].
  destruct (sd =? k)%Z; cbn [Z_of_bool].
  - change (1 =? 0)%Z with false. cbv iota. rewrite exec_Block, exec_block_calls.
    reflexivity.
  - reflexivity.
Qed.

Lemma marker_eval builder markers i row c v :
  nth_error markers i = Some row ->
  nth_error row c = Some v ->
  eval (set_scalar (facet_env builder markers) (it_sym builder) (Z.of_nat i))
       (ast.Symbol (cell_facet_sym builder) [sym (it_sym builder); ast.Lit (Z.of_nat c)])
  = Some v.
Proof.
  intros Hrow Hv. cbn [eval sym]. rewrite scalar_set.
  unfold array_at, set_scalar, facet_env. cbn [arrays find fst snd].
  rewrite String.eqb_refl.
  replace ((Z.of_nat i <? 0) || (Z.of_nat c <? 0))%Z with false
    by (symmetry; apply orb_false_iff; split; apply Z.ltb_ge; lia).
  rewrite !Nat2Z.id. cbn [snd]. rewrite Hrow. exact Hv.
Qed.

Lemma exec_guarded ρ cond (b : bool) stmts out :
  eval ρ cond = Some (Z_of_bool b) ->
  exec_block ρ stmts = Some out ->
  exec_block ρ (match stmts with
                | [] => []
                | _ => [ast.If cond (ast.Block stmts true) None]
                end)
  = Some (if b then out else []).
Proof.
  intros Hc Hs. destruct stmts as [|s0 stmts].
  - simpl in Hs. injection Hs as <-. destruct b; reflexivity.
  - cbn [exec_block]. rewrite exec_If, Hc, exec_Block, Hs.
    destruct b; cbn [Z_of_bool]; [change (1 =? 0)%Z with false | change (0 =? 0)%Z with true];
      cbv iota; [rewrite app_nil_r|]; reflexivity.
Qed.

Lemma exec_facet_body builder markers i kind sd body :
  nth_error markers i = Some [kind; sd] ->
  facet_for builder (length markers)
  = ast.For (unsigned_counter (it_sym builder))
            (ast.Less (sym (it_sym builder)) (ast.Lit (Z.of_nat (length markers))))
            (ast.Incr (sym (it_sym builder)) (ast.Lit 1)) body ->
  exec_block (set_scalar (facet_env builder markers) (it_sym builder) (Z.of_nat i)) body
  = Some (calls_for_facet builder [kind; sd]).
Proof.
  intros Hrow Hbody. unfold facet_for in Hbody. injection Hbody as <-.
  set (ρ := set_scalar (facet_env builder markers) (it_sym builder) (Z.of_nat i)).
  assert (Hkind : eval ρ (ast.Symbol (cell_facet_sym builder)
                            [sym (it_sym builder); ast.Lit 0]) = Some kind)
    by (apply (marker_eval builder markers i [kind; sd] 0 kind); [exact Hrow | reflexivity]).
  assert (Hsd : eval ρ (ast.Symbol (cell_facet_sym builder)
                          [sym (it_sym builder); ast.Lit 1]) = Some sd)
    by (apply (marker_eval builder markers i [kind; sd] 1 sd); [exact Hrow | reflexivity]).
  assert (Hcond : forall k,
             eval ρ (ast.Eq (ast.Symbol (cell_facet_sym builder)
                               [sym (it_sym builder); ast.Lit 0]) (ast.Lit k))
             = Some (Z_of_bool (kind =? k)%Z)).
  { intros k. cbn [eval] in Hkind |- *. rewrite Hkind. reflexivity. }
  unfold calls_for_facet.
  apply exec_block_app.
  - apply exec_guarded; [apply Hcond|].
    rewrite app_assoc. apply exec_block_app;
      [apply exec_block_calls | apply exec_subdomain_stmts; exact Hsd].
  - apply exec_guarded; [apply Hcond|].
    rewrite app_assoc. apply exec_block_app;
      [apply exec_block_calls | apply exec_subdomain_stmts; exact Hsd].
Qed.

Lemma iterate_rows (run : Z -> option (list call)) (f : list Z -> list call) :
  forall rest k,
    (forall i row, nth_error rest i = Some row -> run (Z.of_nat (k + i)) = Some (f row)) ->
    iterate run (Z.of_nat k) (length rest) = Some (flat_map f rest).
Proof.
  induction rest as [|row rest IH]; intros k Hrun; [reflexivity|].
  cbn [length iterate flat_map].
  pose proof (Hrun 0 row eq_refl) as H0. rewrite Nat.add_0_r in H0. rewrite H0.
  replace (Z.of_nat k + 1)%Z with (Z.of_nat (S k)) by lia.
  rewrite IH; [reflexivity|].
  intros i r Hi. rewrite <- (Hrun (S i) r Hi). f_equal. lia.
Qed.

Lemma iterate_ext (f g : Z -> option (list call)) :
  (forall i, f i = g i) -> forall n lo, iterate f lo n = iterate g lo n.
Proof.
  intros Hfg. induction n as [|n IH]; intros lo; [reflexivity|].
  simpl. rewrite Hfg, IH. reflexivity.
Qed.

Lemma exec_For ρ v hi body :
  exec ρ (ast.For (unsigned_counter v) (ast.Less (sym v) (ast.Lit hi))
                  (ast.Incr (sym v) (ast.Lit 1)) body)
  = iterate (fun i => exec_block (set_scalar ρ v i) body) 0 (Z.to_nat hi).
Proof.
  cbn [exec sym unsigned_counter ast.d_init ast.d_sym].
  rewrite String.eqb_refl. cbn [andb]. rewrite Z.sub_0_r.
  apply iterate_ext. intros i.
  induction body as [|x body IH]; [reflexivity|].
  cbn [exec_block]. rewrite <- IH. reflexivity.
Qed.

(** C4: when facet integrals are needed the kernel holds one loop over
    the facets of the cell; run on a facet-marker buffer with one row of
    two columns per facet, it makes for each facet in turn the exterior
    calls when column 0 is 0 and the interior calls when column 0 is 1,
    the calls restricted to a subdomain being made only when column 1
    equals their subdomain id. *)
Theorem facet_dispatch builder domain markers
    (Hd : ufl_domain (expression builder) = Ok domain)
    (Hf : needs_cell_facets builder = true)
    (Hrows : Forall (fun row => length row = 2) markers)
    (Hn : length markers = facets_of domain) :
  exists pre loop post,
    tensor_assembly_calls builder
    = Ok (pre ++ [ast.FlatBlock (Comment "/* Loop over cell facets */"); loop] ++ post) /\
    exec (facet_env builder markers) loop
    = Some (flat_map (calls_for_facet builder) markers).
Proof.
  exists (ast.FlatBlock (Comment "/* Assemble local tensors */")
          :: calls (cell (assembly_calls builder))),
         (facet_for builder (facets_of domain)),
         (if needs_mesh_layers builder
          then layer_dispatch builder (layers domain - 1) else []).
  split.
  - unfold tensor_assembly_calls. rewrite Hd, Hf. simpl.
    destruct (needs_mesh_layers builder); reflexivity.
  - rewrite <- Hn.
    assert (Hshape : exists body,
               facet_for builder (length markers)
               = ast.For (unsigned_counter (it_sym builder))
                   (ast.Less (sym (it_sym builder)) (ast.Lit (Z.of_nat (length markers))))
                   (ast.Incr (sym (it_sym builder)) (ast.Lit 1)) body)
      by (eexists; reflexivity).
    destruct Hshape as [body Hbody]. rewrite Hbody, exec_For, Nat2Z.id.
    apply (iterate_rows _ (calls_for_facet builder) markers 0).
    intros i row Hrow. cbn [Nat.add].
    assert (Hlen : length row = 2).
    { rewrite List.Forall_forall in Hrows. apply Hrows. eapply nth_error_In. exact Hrow. }
    destruct row as [|kind [|sd [|? ?]]]; try discriminate Hlen.
    eapply exec_facet_body; eassumption.
Qed.

Lemma facet_dispatch_witness :
  ufl_domain (expression demo_builder) = Ok demo_domain /\
  needs_cell_facets demo_builder = true /\
  Forall (fun row => length row = 2) demo_markers /\
  length demo_markers = facets_of demo_domain /\
  exists pre loop post,
    tensor_assembly_calls demo_builder
    = Ok (pre ++ [ast.FlatBlock (Comment "/* Loop over cell facets */"); loop] ++ post) /\
    exec (facet_env demo_builder demo_markers) loop
    = Some (flat_map (calls_for_facet demo_builder) demo_markers).
Proof.
  split; [reflexivity|]. split; [reflexivity|].
  split; [repeat constructor|]. split; [reflexivity|].
  apply (facet_dispatch demo_builder demo_domain demo_markers);
    [reflexivity | reflexivity | repeat constructor | reflexivity].
Defined.

(** On the buffer [[1,0],[0,0],[1,2]]: facets 0 and 2 make the interior
    calls, facet 2 also the one restricted to subdomain 2, and facet 1
    makes the exterior calls. *)
Example facet_dispatch_example :
  map kernel_name (flat_map (calls_for_facet demo_builder) demo_markers)
  = ["interior_facet_integral"; "exterior_facet_integral";
     "interior_facet_integral"; "interior_facet_sd2"]%string
  /\ exec (facet_env demo_builder demo_markers) (facet_for demo_builder 3)
     = Some (flat_map (calls_for_facet demo_builder) demo_markers).
Proof. split; vm_compute; reflexivity. Qed.

(** *** The sorted parameter items *)

Lemma compare_trans_lt s t u :
  String.compare s t = Lt -> String.compare t u = Lt -> String.compare s u = Lt.
Proof.
  intros H1 H2. apply String_as_OT.cmp_lt in H1, H2. apply String_as_OT.cmp_lt.
  eapply String_as_OT.lt_trans; eassumption.
Qed.

Lemma compare_refl s : String.compare s s = Eq.
Proof. apply (proj2 (String_as_OT.cmp_eq s s)). reflexivity. Qed.

Lemma leb_trans s t u :
  String.leb s t = true -> String.leb t u = true -> String.leb s u = true.
Proof.
  unfold String.leb. intros H1 H2.
  destruct (String.compare s t) eqn:E1; try discriminate;
    destruct (String.compare t u) eqn:E2; try discriminate.
  - apply String_as_OT.cmp_eq in E1, E2. subst.
    rewrite compare_refl. reflexivity.
  - apply String_as_OT.cmp_eq in E1. subst. rewrite E2. reflexivity.
  - apply String_as_OT.cmp_eq in E2. subst. rewrite E1. reflexivity.
  - rewrite (compare_trans_lt _ _ _ E1 E2). reflexivity.
Qed.

Lemma item_le_total x y : item_le x y \/ item_le y x.
Proof.
  unfold item_le, item_leb. rewrite (String.compare_antisym (fst y) (fst x)).
  destruct (String.compare (fst x) (fst y)); simpl; auto.
  destruct (String.leb_total (snd x) (snd y)); auto.
Qed.

Lemma item_le_antisym x y : item_le x y -> item_le y x -> x = y.
Proof.
  unfold item_le, item_leb. rewrite (String.compare_antisym (fst y) (fst x)).
  destruct x as [k1 v1], y as [k2 v2]. simpl.
  destruct (String.compare k1 k2) eqn:E; simpl; try discriminate.
  intros H1 H2. apply String.compare_eq_iff in E. subst.
  f_equal. apply String.leb_antisym; assumption.
Qed.

Lemma item_le_trans x y z : item_le x y -> item_le y z -> item_le x z.
Proof.
  unfold item_le, item_leb.
  destruct (String.compare (fst x) (fst y)) eqn:E1; try discriminate;
    destruct (String.compare (fst y) (fst z)) eqn:E2; try discriminate; intros H1 H2.
  - apply String_as_OT.cmp_eq in E1, E2. rewrite E1, E2.
    rewrite compare_refl.
    eapply leb_trans; eassumption.
  - apply String_as_OT.cmp_eq in E1. rewrite E1, E2. reflexivity.
  - apply String_as_OT.cmp_eq in E2. rewrite <- E2, E1. reflexivity.
  - rewrite (compare_trans_lt _ _ _ E1 E2). reflexivity.
Qed.

Lemma insert_item_perm x l : Permutation (insert_item x l) (x :: l).
Proof.
  induction l as [|y l IH]; simpl; [reflexivity|].
  destruct (item_leb x y); [reflexivity|].
  rewrite IH. apply perm_swap.
Qed.

Lemma sorted_perm l : Permutation (sorted l) l.
Proof.
  induction l as [|x l IH]; simpl; [reflexivity|].
  rewrite insert_item_perm, IH. reflexivity.
Qed.

Lemma insert_item_sorted x l :
  StronglySorted item_le l -> StronglySorted item_le (insert_item x l).
Proof.
  induction 1 as [|y l Hl IH Hy]; simpl.
  - repeat constructor.
  - destruct (item_leb x y) eqn:E.
    + constructor; [constructor; assumption|].
      constructor; [exact E|].
      rewrite List.Forall_forall in Hy |- *. intros z Hz.
      eapply item_le_trans; [exact E | apply Hy; exact Hz].
    + constructor; [exact IH|].
      assert (Hyx : item_le y x)
        by (destruct (item_le_total x y) as [Hxy|Hyx]; [unfold item_le in Hxy; congruence | exact Hyx]).
      rewrite List.Forall_forall in Hy |- *. intros z Hz.
      apply (Permutation_in _ (insert_item_perm x l)) in Hz.
      destruct Hz as [<-|Hz]; [exact Hyx | apply Hy; exact Hz].
Qed.

Lemma sorted_sorted l : StronglySorted item_le (sorted l).
Proof.
  induction l as [|x l IH]; simpl; [constructor | apply insert_item_sorted; exact IH].
Qed.

Lemma strongly_sorted_unique l1 : forall l2,
  StronglySorted item_le l1 -> StronglySorted item_le l2 ->
  Permutation l1 l2 -> l1 = l2.
Proof.
  induction l1 as [|a l1 IH]; intros l2 H1 H2 Hp.
  - apply Permutation_nil in Hp. subst. reflexivity.
  - destruct l2 as [|b l2];
      [apply Permutation_sym, Permutation_nil in Hp; discriminate|].
    inversion H1 as [|? ? Hs1 Ha]; subst. inversion H2 as [|? ? Hs2 Hb]; subst.
    assert (Hab : a = b).
    { rewrite List.Forall_forall in Ha, Hb.
      assert (Ina : In a (b :: l2)) by (eapply Permutation_in; [exact Hp | left; reflexivity]).
      assert (Inb : In b (a :: l1))
        by (eapply Permutation_in; [apply Permutation_sym; exact Hp | left; reflexivity]).
      destruct Ina as [->|Ina]; [reflexivity|].
      destruct Inb as [->|Inb]; [reflexivity|].
      apply item_le_antisym; [apply Ha; exact Inb | apply Hb; exact Ina]. }
    subst b. f_equal. apply IH; try assumption.
    eapply Permutation_cons_inv. exact Hp.
Qed.

(** Dictionaries with the same items have the same sorted items,
    whatever their insertion order. *)
Lemma sorted_permutation p p' : Permutation p p' -> sorted p = sorted p'.
Proof.
  intros Hp. apply strongly_sorted_unique; try apply sorted_sorted.
  rewrite !sorted_perm. exact Hp.
Qed.

Section CacheProperties.
Context `{Collaborators}.

(** *** Unsupported expressions *)

Lemma generate_kernel_unsupported e p :
  is_mixed e = true \/ 1 < length (ufl_domains e) ->
  generate_kernel e p
  = Raise (NotImplementedError (if is_mixed e then mixed_msg else domains_msg))
  /\ generate_loopy_kernel e p
     = Raise (NotImplementedError (if is_mixed e then mixed_msg else domains_msg)).
Proof.
  intros Hbad. unfold generate_kernel, generate_loopy_kernel.
  destruct (is_mixed e); [split; reflexivity|].
  destruct Hbad as [Hm|Hd]; [discriminate|].
  apply Nat.ltb_lt in Hd. rewrite Hd. split; reflexivity.
Qed.

(** C10: a mixed expression, or one with more than one domain, makes both
    kernel generators raise [NotImplementedError] at their first test,
    whatever the builder, the translator and the code generator are;
    [compile_expression] then raises the same error and leaves every
    [_metakernel_cache] as it was. *)
Theorem unsupported_expressions_raise e tp coffee st
    (Hbad : is_mixed e = true \/ 1 < length (ufl_domains e))
    (Hmiss : _metakernel_cache st e !! str (sorted (resolve tp)) = None) :
  let err := NotImplementedError (if is_mixed e then mixed_msg else domains_msg) in
  generate_kernel e (resolve tp) = Raise err
  /\ generate_loopy_kernel e (resolve tp) = Raise err
  /\ fst (compile_expression (PyTensor e) tp coffee st) = Raise err
  /\ caches (snd (compile_expression (PyTensor e) tp coffee st)) = caches st.
Proof.
  intros err. destruct (generate_kernel_unsupported e (resolve tp) Hbad) as [Hg Hl].
  split; [exact Hg|]. split; [exact Hl|].
  unfold compile_expression. fold (resolve tp). rewrite Hmiss.
  unfold SlateKernel_init. destruct coffee; [rewrite Hg | rewrite Hl]; split; reflexivity.
Qed.

(** *** The cache of compiled kernels *)



Lemma compilations_app st r :
  compilations (mk_state (caches st) (runs st ++ [r]))
  = compilations st ++ (if snd r then [fst r] else []).
Proof.
  unfold compilations. simpl. rewrite List.filter_app, map_app. simpl.
  destruct (snd r); reflexivity.
Qed.






End CacheProperties.


Lemma unsupported_expressions_raise_witness :
  (is_mixed mixed_expr = true \/ 1 < length (ufl_domains mixed_expr)) /\
  _metakernel_cache initial_state mixed_expr !! str (sorted (@resolve demo None)) = None /\
  @generate_kernel demo mixed_expr (@resolve demo None)
  = Raise (NotImplementedError mixed_msg) /\
  caches (snd (@compile_expression demo (PyTensor mixed_expr) None false initial_state))
  = caches initial_state.
Proof.
  split; [left; reflexivity|]. split; [reflexivity|].
  destruct (@unsupported_expressions_raise demo mixed_expr None false initial_state)
    as (Hg & _ & _ & Hc); [left; reflexivity | reflexivity |].
  split; [exact Hg | exact Hc].
Defined.


(** *** Dictionaries *)

Lemma lookup_temp_In e d t : lookup_temp e d = Some t -> In (e, t) d.
Proof.
  induction d as [|[k v] d IH]; simpl; [discriminate|].
  destruct (expr_eq_dec e k) as [->|Hne].
  - intros E. injection E as <-. left. reflexivity.
  - intros E. right. apply IH. exact E.
Qed.

Lemma lookup_temp_None e d : lookup_temp e d = None -> forall t, ~ In (e, t) d.
Proof.
  induction d as [|[k v] d IH]; simpl; intros E t; [tauto|].
  destruct (expr_eq_dec e k) as [->|Hne]; [discriminate|].
  intros [Heq|Hin]; [congruence | exact (IH E t Hin)].
Qed.

Lemma dict_set_In e t d k v :
  In (k, v) (dict_set e t d) -> (k = e /\ v = t) \/ In (k, v) d.
Proof.
  induction d as [|[k0 v0] d IH]; simpl.
  - intros [E|[]]. left. split; congruence.
  - destruct (expr_eq_dec e k0) as [->|Hne]; simpl.
    + intros [E|Hin]; [left; split; congruence | right; right; exact Hin].
    + intros [E|Hin]; [right; left; exact E|].
      destruct (IH Hin) as [Hl|Hr]; [left; exact Hl | right; right; exact Hr].
Qed.

Lemma dict_set_lookup e t d : lookup_temp e (dict_set e t d) = Some t.
Proof.
  induction d as [|[k0 v0] d IH]; simpl.
  - destruct (expr_eq_dec e e); [reflexivity | congruence].
  - destruct (expr_eq_dec e k0) as [->|Hne]; simpl.
    + destruct (expr_eq_dec k0 k0); [reflexivity | congruence].
    + destruct (expr_eq_dec e k0); [congruence | exact IH].
Qed.

Lemma dict_set_lookup_ne e t d x :
  x <> e -> lookup_temp x (dict_set e t d) = lookup_temp x d.
Proof.
  intros Hne. induction d as [|[k0 v0] d IH]; simpl.
  - destruct (expr_eq_dec x e); [congruence | reflexivity].
  - destruct (expr_eq_dec e k0) as [->|Hne0]; simpl.
    + destruct (expr_eq_dec x k0); [congruence | reflexivity].
    + destruct (expr_eq_dec x k0); [reflexivity | exact IH].
Qed.

Lemma keys_satisfy_set P e t d :
  keys_satisfy P d -> P e = true -> keys_satisfy P (dict_set e t d).
Proof.
  intros Hd He k v Hin. destruct (dict_set_In _ _ _ _ _ Hin) as [[-> _]|Hin'].
  - exact He.
  - exact (Hd k v Hin').
Qed.

(** *** Translation of a block *)

Lemma slate_to_cpp_eq e temps prec_ :
  slate_to_cpp e temps prec_
  = match lookup_temp e temps with
    | Some t => Ok (CSym t)
    | None =>
        match e with
        | Transpose _ tensor =>
            c <~ slate_to_cpp tensor temps None ;; Ok (CTranspose e c)
        | Inverse _ tensor =>
            c <~ slate_to_cpp tensor temps None ;; Ok (CInverse e c)
        | Negative a tensor =>
            c <~ slate_to_cpp tensor temps (prec a) ;;
            Ok (parenthesize (CNeg e c) (prec a) prec_)
        | Add a x y =>
            cx <~ slate_to_cpp x temps (prec a) ;;
            cy <~ slate_to_cpp y temps (prec a) ;;
            Ok (parenthesize (CBin e "+" cx cy) (prec a) prec_)
        | Mul a x y =>
            cx <~ slate_to_cpp x temps (prec a) ;;
            cy <~ slate_to_cpp y temps (prec a) ;;
            Ok (parenthesize (CBin e "*" cx cy) (prec a) prec_)
        | Block a tensor indices =>
            '(rids, cids) <~ unpack_indices indices ;;
            if negb (contiguous rids && contiguous cids)
            then Raise (NotImplementedError non_contiguous_msg)
            else
              rshape <~ index (shape a) 0 ;;
              rstart <~ block_start tensor 0 rids ;;
              '(cshape, cstart) <~
                 (if rank a =? 1 then Ok (1, 0)
                  else cshape <~ index (shape a) 1 ;;
                       cstart <~ block_start tensor 1 cids ;;
                       Ok (cshape, cstart)) ;;
              c <~ slate_to_cpp tensor temps (prec a) ;;
              Ok (parenthesize (CBlock e c rshape cshape rstart cstart) (prec a) prec_)
        | Solve a x y =>
            cx <~ slate_to_cpp x temps (prec a) ;;
            cy <~ slate_to_cpp y temps (prec a) ;;
            Ok (parenthesize (CSolve e cx cy) (prec a) prec_)
        | _ => Raise (NotImplementedError unsupported_type_msg)
        end
    end.
Proof. destruct e; reflexivity. Qed.

Lemma slate_to_cpp_contiguous x : forall d prec_ c,
  slate_to_cpp x d prec_ = Ok c ->
  contiguous_keys d ->
  all_blocks_contiguous x = true.
Proof.
  induction x; intros d prec_ c E Hd; rewrite slate_to_cpp_eq in E;
    (destruct (lookup_temp _ d) as [t|] eqn:El;
     [exact (Hd _ _ (lookup_temp_In _ _ _ El)) |]); try discriminate E; simpl.
  - step E c1 H1. eapply IHx; eassumption.
  - step E c1 H1. eapply IHx; eassumption.
  - step E c1 H1. eapply IHx; eassumption.
  - step E c1 H1. step E c2 H2.
    rewrite (IHx1 _ _ _ H1 Hd), (IHx2 _ _ _ H2 Hd). reflexivity.
  - step E c1 H1. step E c2 H2.
    rewrite (IHx1 _ _ _ H1 Hd), (IHx2 _ _ _ H2 Hd). reflexivity.
  - step E rc Hrc. destruct rc as [rids cids]. rewrite Hrc.
    destruct (contiguous rids && contiguous cids); [|discriminate E]. simpl in E.
    step E rshape Hrs. step E rstart Hst. step E cc Hcc.
    destruct cc as [cshape cstart]. step E c1 H1.
    simpl. eapply IHx; eassumption.
  - step E c1 H1. step E c2 H2.
    rewrite (IHx1 _ _ _ H1 Hd), (IHx2 _ _ _ H2 Hd). reflexivity.
Qed.

Lemma subexpr_blocks s x :
  subexpr s x -> all_blocks_contiguous x = true -> all_blocks_contiguous s = true.
Proof.
  induction x; simpl; intros [->|Hs] Hx; try exact Hx; try contradiction;
    try (apply andb_prop in Hx; destruct Hx as [Hx1 Hx2]);
    try (destruct Hs as [Hs|Hs]); auto.
Qed.

(** *** Direct indexing *)

Lemma list_sum_firstn_S (k : nat) : forall exts : list nat,
  list_sum (firstn (S k) exts) = list_sum (firstn k exts) + nth k exts 0.
Proof.
  induction k as [|k IH]; intros [|x exts]; try reflexivity.
  - simpl. lia.
  - rewrite (firstn_cons (S k)), (firstn_cons k).
    cbn [nth]. unfold list_sum in *. cbn [fold_right]. rewrite IH. lia.
Qed.

Lemma rows_of_contiguous exts ids : forall a rest,
  ids = a :: rest -> contiguous ids = true ->
  rows_of exts ids = seq (list_sum (firstn a exts)) (length (rows_of exts ids)).
Proof.
  induction ids as [|x ids IH]; intros a rest E Hc; [discriminate|].
  injection E as -> ->.
  destruct rest as [|b rest].
  - unfold rows_of. cbn [flat_map]. rewrite app_nil_r. unfold field_rows.
    rewrite List.length_seq. reflexivity.
  - cbn [contiguous] in Hc. apply andb_prop in Hc. destruct Hc as [Hab Hc].
    apply Nat.eqb_eq in Hab. subst b.
    specialize (IH (a + 1) rest eq_refl Hc).
    unfold rows_of in *. cbn [flat_map] in *.
    set (R := field_rows exts (a + 1) ++ flat_map (field_rows exts) rest) in *.
    rewrite List.length_app. unfold field_rows. rewrite List.length_seq, List.seq_app.
    f_equal. rewrite IH at 1. f_equal.
    rewrite Nat.add_1_r. apply list_sum_firstn_S.
Qed.

Lemma fold_min_le l : forall a, (forall x, In x l -> a <= x) -> fold_left Nat.min l a = a.
Proof.
  induction l as [|y l IH]; intros a Ha; [reflexivity|].
  cbn [fold_left]. rewrite Nat.min_l by (apply Ha; left; reflexivity).
  apply IH. intros x Hx. apply Ha. right. exact Hx.
Qed.

Lemma contiguous_lower_bound ids : forall a rest,
  ids = a :: rest -> contiguous ids = true -> forall x, In x rest -> a <= x.
Proof.
  induction ids as [|y ids IH]; intros a rest E Hc x Hx; [discriminate|].
  injection E as -> ->.
  destruct rest as [|b rest]; [contradiction|].
  cbn [contiguous] in Hc. apply andb_prop in Hc. destruct Hc as [Hab Hc].
  apply Nat.eqb_eq in Hab. subst b.
  destruct Hx as [<-|Hx]; [lia|].
  specialize (IH (a + 1) rest eq_refl Hc x Hx). lia.
Qed.

Lemma py_min_contiguous a rest :
  contiguous (a :: rest) = true -> py_min (a :: rest) = Ok a.
Proof.
  intros Hc. unfold py_min. f_equal. apply fold_min_le.
  eapply contiguous_lower_bound; [reflexivity | exact Hc].
Qed.

(** The [i]-th row that direct indexing selects is row [start + i] of
    the operand. *)
Lemma direct_index_rows exts ids start i :
  contiguous ids = true ->
  py_min ids = Ok start ->
  i < length (rows_of exts ids) ->
  nth_error (rows_of exts ids) i = Some (list_sum (firstn start exts) + i).
Proof.
  intros Hc Hmin Hi. destruct ids as [|a rest]; [discriminate|].
  rewrite (py_min_contiguous a rest Hc) in Hmin. apply Ok_inj in Hmin. subst start.
  rewrite (rows_of_contiguous exts (a :: rest) a rest eq_refl Hc) in Hi |- *.
  rewrite List.length_seq in Hi.
  rewrite nth_error_nth' with (d := 0) by (rewrite List.length_seq; exact Hi).
  rewrite seq_nth by exact Hi. reflexivity.
Qed.

Lemma block_start_extents tensor axis ids start :
  block_start tensor axis ids = Ok start ->
  exists k, py_min ids = Ok k /\ start = list_sum (firstn k (extents tensor axis)).
Proof.
  unfold block_start, extents. intros E.
  destruct (nth_error (shapes (attrs_of tensor)) axis) as [l|] eqn:El; [|discriminate].
  cbn [bind] in E. step E k Hk. apply Ok_inj in E. subst.
  exists k. split; [exact Hk|].
  rewrite (nth_error_nth _ _ _ El). reflexivity.
Qed.

Lemma block_start_total tensor axis ids k :
  nth_error (shapes (attrs_of tensor)) axis <> None ->
  py_min ids = Ok k ->
  block_start tensor axis ids = Ok (list_sum (firstn k (extents tensor axis))).
Proof.
  unfold block_start, extents. intros Hs Hk.
  destruct (nth_error (shapes (attrs_of tensor)) axis) as [l|] eqn:El; [|congruence].
  cbn [bind]. rewrite Hk. cbn [bind]. rewrite (nth_error_nth _ _ _ El). reflexivity.
Qed.

Section BlockProperties.
Context `{Collaborators}.

(** *** The dictionary through the stages *)

Lemma terminal_temporaries_keys P items : forall d s d',
  holds_of_terminals P ->
  terminal_temporaries_loop items d = Ok (s, d') ->
  Forall (fun kv => is_Tensor (fst kv) = true) items ->
  keys_satisfy P d -> keys_satisfy P d'.
Proof.
  induction items as [|[exp t] items IH]; simpl; intros d s d' HP E Hi Hd.
  - apply Ok_inj in E. injection E as <- <-. exact Hd.
  - step E ty Hty. step E md Hm. destruct md as [more d1]. apply Ok_inj in E.
    injection E as <- <-. inversion Hi as [|? ? Ht Hi']; subst.
    eapply IH; [exact HP | exact Hm | exact Hi' |].
    apply keys_satisfy_set; [exact Hd|].
    apply HP. simpl in Ht. rewrite Ht. reflexivity.
Qed.

Lemma coefficient_assignments_keys P builder l : forall d decls assigns_ d',
  holds_of_terminals P ->
  coefficient_assignments builder l d = Ok (decls, assigns_, d') ->
  keys_satisfy P d -> keys_satisfy P d'.
Proof.
  induction l as [|ci l IH]; simpl; intros d decls assigns_ d' HP E Hd.
  - apply Ok_inj in E. injection E as <- <- <-. exact Hd.
  - step E f Hf. step E dd Hdd. destruct dd as [declaration d1].
    step E w Hw. step E rest Hrest. destruct rest as [[ds as_] d2].
    apply Ok_inj in E. injection E as <- <- <-.
    eapply IH; [exact HP | exact Hrest|].
    destruct (lookup_temp (vector ci) d).
    + apply Ok_inj in Hdd. injection Hdd as <- <-. exact Hd.
    + step Hdd cty Hcty. apply Ok_inj in Hdd. injection Hdd as <- <-.
      apply keys_satisfy_set; [exact Hd|].
      apply HP. unfold function_of in Hf. destruct (vector ci); try discriminate.
      reflexivity.
Qed.

Lemma coefficient_loops_keys P builder items : forall d decls loops d',
  holds_of_terminals P ->
  coefficient_loops builder items d = Ok (decls, loops, d') ->
  keys_satisfy P d -> keys_satisfy P d'.
Proof.
  induction items as [|[dofs l] items IH]; simpl; intros d decls loops d' HP E Hd.
  - apply Ok_inj in E. injection E as <- <- <-. exact Hd.
  - step E r1 H1. destruct r1 as [[ds as_] d1].
    step E r2 H2. destruct r2 as [[ds' ls] d2].
    apply Ok_inj in E. injection E as <- <- <-.
    eapply IH; [exact HP | exact H2|].
    eapply coefficient_assignments_keys; eassumption.
Qed.

(** The dictionary handed to [auxiliary_expressions] holds terminal
    tensors and assembled vectors only. *)
Lemma declared_before_auxiliary P builder tm d1 co d2 :
  holds_of_terminals P ->
  Forall (fun kv => is_Tensor (fst kv) = true) (temps builder) ->
  terminal_temporaries builder [] = Ok (tm, d1) ->
  match coefficient_vecs builder with
  | [] => Ok ([], d1)
  | _ => coefficient_temporaries builder d1
  end = Ok (co, d2) ->
  keys_satisfy P d2.
Proof.
  intros HP Hterm Ht Hco.
  assert (Hd1 : keys_satisfy P d1).
  { unfold terminal_temporaries in Ht. step Ht dd Hdd. destruct dd as [decls d1'].
    apply Ok_inj in Ht. injection Ht as <- <-.
    eapply terminal_temporaries_keys; [exact HP | exact Hdd | exact Hterm |].
    intros k0 v0 []. }
  destruct (coefficient_vecs builder) as [|cv cvs] eqn:Ecv.
  - apply Ok_inj in Hco. injection Hco as <- <-. exact Hd1.
  - unfold coefficient_temporaries in Hco. rewrite Ecv in Hco.
    step Hco r Hr. destruct r as [[ds ls] d2']. apply Ok_inj in Hco.
    injection Hco as <- <-.
    eapply coefficient_loops_keys; eassumption.
Qed.

Lemma terminals_contiguous : holds_of_terminals all_blocks_contiguous.
Proof. intros x Hx. destruct x; try discriminate; reflexivity. Qed.

Lemma auxiliary_statement_contiguous exp d stmts t :
  auxiliary_statement exp d = Ok (stmts, t) ->
  contiguous_keys d -> all_blocks_contiguous exp = true.
Proof.
  intros E Hd. unfold auxiliary_statement in E.
  destruct exp;
    try (step E c Hc; eapply slate_to_cpp_contiguous; eassumption).
  step E c Hc. simpl. eapply slate_to_cpp_contiguous; eassumption.
Qed.

Lemma auxiliary_loop_contiguous exprs : forall d s d',
  auxiliary_loop exprs d = Ok (s, d') ->
  contiguous_keys d -> contiguous_keys d'.
Proof.
  induction exprs as [|exp exprs IH]; simpl; intros d s d' E Hd.
  - apply Ok_inj in E. injection E as <- <-. exact Hd.
  - destruct (lookup_temp exp d); [eapply IH; eassumption|].
    step E st Hst. destruct st as [stmts t].
    step E md Hm. destruct md as [more d1]. apply Ok_inj in E. injection E as <- <-.
    eapply IH; [exact Hm|].
    apply keys_satisfy_set; [exact Hd|].
    eapply auxiliary_statement_contiguous; eassumption.
Qed.

Lemma generate_kernel_contiguous e p k builder :
  generate_kernel e p = Ok k ->
  new_LocalKernelBuilder e p = Ok builder ->
  Forall (fun kv => is_Tensor (fst kv) = true) (temps builder) ->
  all_blocks_contiguous (tree (expression builder)) = true.
Proof.
  intros Hgen Hb Hterm.
  destruct (generate_kernel_ok _ _ _ Hgen)
    as (b & t & d1 & scalls & co & d2 & au & d3 & ki & _ & Hb' & Ht & _ & Hco & Hau & Hk & _).
  rewrite Hb in Hb'. apply Ok_inj in Hb'. subst b.
  destruct (generate_kernel_ast_ok _ _ _ _ Hk) as (ty & c & Hc & _).
  eapply slate_to_cpp_contiguous; [exact Hc|].
  unfold auxiliary_expressions in Hau.
  eapply auxiliary_loop_contiguous; [exact Hau|].
  eapply declared_before_auxiliary; [apply terminals_contiguous | eassumption ..].
Qed.

(** C6: translating a [Block] whose row or column indices are not
    contiguous raises [NotImplementedError], and an expression holding
    such a block is never compiled to a kernel.  A [Block] with
    contiguous indices is lowered: whenever its operand is translated,
    the block has its extents and the indices are not empty, the
    translation returns the Eigen sub-matrix of the block's own shape
    that starts at the sum of the operand's extents before its first row
    and column index, and returns nothing else; the rows and columns
    that direct indexing of the operand by these indices selects are the
    consecutive ones from that start. *)
Theorem block_lowering a tensor indices rids cids temps_ prec_ e p
    (Hnew : lookup_temp (Block a tensor indices) temps_ = None)
    (Hidx : unpack_indices indices = Ok (rids, cids))
    (Hbuilder : forall builder, new_LocalKernelBuilder e p = Ok builder ->
       expression builder = e /\
       Forall (fun kv => is_Tensor (fst kv) = true) (temps builder))
    (Hnode : subexpr (Block a tensor indices) (tree e)) :
  (contiguous rids && contiguous cids = false ->
     slate_to_cpp (Block a tensor indices) temps_ prec_
     = Raise (NotImplementedError non_contiguous_msg)
     /\ is_ok (generate_kernel e p) = false)
  /\
  (contiguous rids && contiguous cids = true ->
     (forall operand rshape rmin cshape cstart,
        slate_to_cpp tensor temps_ (prec a) = Ok operand ->
        index (shape a) 0 = Ok rshape ->
        py_min rids = Ok rmin ->
        nth_error (shapes (attrs_of tensor)) 0 <> None ->
        (if rank a =? 1 then cshape = 1 /\ cstart = 0
         else index (shape a) 1 = Ok cshape /\
              nth_error (shapes (attrs_of tensor)) 1 <> None /\
              exists cmin, py_min cids = Ok cmin /\
                           cstart = list_sum (firstn cmin (extents tensor 1))) ->
        slate_to_cpp (Block a tensor indices) temps_ prec_
        = Ok (parenthesize
                (CBlock (Block a tensor indices) operand rshape cshape
                        (list_sum (firstn rmin (extents tensor 0))) cstart)
                (prec a) prec_))
     /\
     (forall c, slate_to_cpp (Block a tensor indices) temps_ prec_ = Ok c ->
      exists operand rshape cshape rstart cstart rmin cmin,
        slate_to_cpp tensor temps_ (prec a) = Ok operand /\
        c = parenthesize (CBlock (Block a tensor indices) operand rshape cshape rstart cstart)
                         (prec a) prec_ /\
        index (shape a) 0 = Ok rshape /\
        py_min rids = Ok rmin /\
        rstart = list_sum (firstn rmin (extents tensor 0)) /\
        (forall i, i < length (rows_of (extents tensor 0) rids) ->
           nth_error (rows_of (extents tensor 0) rids) i = Some (rstart + i)) /\
        (if rank a =? 1 then cshape = 1 /\ cstart = 0
         else index (shape a) 1 = Ok cshape /\
              py_min cids = Ok cmin /\
              cstart = list_sum (firstn cmin (extents tensor 1)) /\
              forall j, j < length (rows_of (extents tensor 1) cids) ->
                nth_error (rows_of (extents tensor 1) cids) j = Some (cstart + j)))).
Proof.
  split; intros Hc.
  - split.
    + rewrite slate_to_cpp_eq, Hnew. cbn [bind]. rewrite Hidx. cbn [bind].
      rewrite Hc. reflexivity.
    + destruct (generate_kernel e p) as [k|x] eqn:Hgen; [|reflexivity]. exfalso.
      destruct (generate_kernel_ok _ _ _ Hgen)
        as (b & _ & _ & _ & _ & _ & _ & _ & _ & _ & Hb & _).
      destruct (Hbuilder b Hb) as [He Hterm].
      pose proof (generate_kernel_contiguous _ _ _ _ Hgen Hb Hterm) as Hall.
      rewrite He in Hall.
      pose proof (subexpr_blocks _ _ Hnode Hall) as Hblock.
      simpl in Hblock. rewrite Hidx, Hc in Hblock. discriminate.
  - split.
    + intros operand rshape rmin cshape cstart Hop Hrs Hrm Hs0 Hcol.
      rewrite slate_to_cpp_eq, Hnew. cbn [bind]. rewrite Hidx. cbn [bind].
      rewrite Hc. cbn [negb]. rewrite Hrs. cbn [bind].
      rewrite (block_start_total _ _ _ _ Hs0 Hrm). cbn [bind].
      destruct (rank a =? 1).
      * destruct Hcol as [-> ->]. cbn [bind]. rewrite Hop. reflexivity.
      * destruct Hcol as (Hcs & Hs1 & cmin & Hcm & ->). rewrite Hcs. cbn [bind].
        rewrite (block_start_total _ _ _ _ Hs1 Hcm). cbn [bind]. rewrite Hop. reflexivity.
    + intros c E. rewrite slate_to_cpp_eq, Hnew in E. cbn [bind] in E.
      rewrite Hidx in E. cbn [bind] in E. rewrite Hc in E. cbn [negb] in E.
      step E rshape Hrs. step E rstart Hst. step E cc Hcc.
      destruct cc as [cshape cstart]. step E operand Hop. apply Ok_inj in E.
      apply andb_prop in Hc. destruct Hc as [Hcr Hcc'].
      apply block_start_extents in Hst. destruct Hst as (rmin & Hrm & Hst).
      destruct (rank a =? 1) eqn:Erank.
      * apply Ok_inj in Hcc. injection Hcc as <- <-.
        exists operand, rshape, 1, rstart, 0, rmin, 0.
        repeat split; auto.
        intros i Hi. subst rstart. apply direct_index_rows; assumption.
      * step Hcc cs Hcs. step Hcc cst Hcst. apply Ok_inj in Hcc.
        injection Hcc as <- <-. apply block_start_extents in Hcst.
        destruct Hcst as (cmin & Hcm & Hcst).
        exists operand, rshape, cs, rstart, cst, rmin, cmin.
        repeat split; auto.
        -- intros i Hi. subst rstart. apply direct_index_rows; assumption.
        -- intros j Hj. subst cst. apply direct_index_rows; assumption.
Qed.

End BlockProperties.

(** *** Reads follow writes: general facts *)

Lemma defined_after_In l : forall D x,
  In x (defined_after D l) <-> In x D \/ In x (flat_map writes l).
Proof.
  induction l as [|s l IH]; intros D x; simpl.
  - tauto.
  - unfold defined_after in *. simpl. rewrite IH, !in_app_iff. tauto.
Qed.

Lemma raw_weaken l : forall D D',
  incl D D' -> reads_after_writes D l -> reads_after_writes D' l.
Proof.
  induction l as [|s l IH]; simpl; intros D D' Hi; [tauto|].
  intros [Hr Hl]. split.
  - intros x Hx. apply Hi, Hr, Hx.
  - eapply IH; [|exact Hl]. apply incl_app; [apply incl_appl, incl_refl|].
    apply incl_appr. exact Hi.
Qed.

Lemma raw_app l1 : forall D l2,
  reads_after_writes D l1 ->
  reads_after_writes (defined_after D l1) l2 ->
  reads_after_writes D (l1 ++ l2).
Proof.
  induction l1 as [|s l1 IH]; simpl; intros D l2 H1 H2; [exact H2|].
  destruct H1 as [Hr H1]. split; [exact Hr|]. apply IH; assumption.
Qed.

(** A block whose statements read only names already defined. *)
Lemma raw_all_reads l : forall D,
  (forall s, In s l -> incl (reads s) D) -> reads_after_writes D l.
Proof.
  induction l as [|s l IH]; simpl; intros D Hl; [exact I|]. split.
  - apply Hl. left. reflexivity.
  - apply IH. intros s' Hs'. apply incl_appr. apply Hl. right. exact Hs'.
Qed.

Lemma without_In x y l : In x (without y l) -> In x l.
Proof. unfold without. intros Hx. apply List.filter_In in Hx. tauto. Qed.

Lemma without_not x l : ~ In x (without x l).
Proof.
  unfold without. intros Hx. apply List.filter_In in Hx. destruct Hx as [_ Hx].
  rewrite String.eqb_refl in Hx. discriminate.
Qed.

(** *** The names in a translated expression *)

Lemma parenthesize_names c p q : cpp_names (parenthesize c p q) = cpp_names c.
Proof.
  unfold parenthesize. destruct p as [p|], q as [q|]; try reflexivity.
  destruct (q <=? p); reflexivity.
Qed.

Lemma slate_to_cpp_names x : forall d prec_ c,
  slate_to_cpp x d prec_ = Ok c ->
  incl (cpp_names c) (map snd d).
Proof.
  induction x; intros d prec_ c E; rewrite slate_to_cpp_eq in E;
    (destruct (lookup_temp _ d) as [t|] eqn:El;
     [apply Ok_inj in E; subst c; intros y [<-|[]];
      apply (in_map snd _ _ (lookup_temp_In _ _ _ El)) |]); try discriminate E.
  - step E c1 H1. apply Ok_inj in E. subst c. simpl. eapply IHx; eassumption.
  - step E c1 H1. apply Ok_inj in E. subst c. simpl. eapply IHx; eassumption.
  - step E c1 H1. apply Ok_inj in E. subst c. rewrite parenthesize_names. simpl.
    eapply IHx; eassumption.
  - step E c1 H1. step E c2 H2. apply Ok_inj in E. subst c.
    rewrite parenthesize_names. simpl. apply incl_app; [eapply IHx1 | eapply IHx2]; eassumption.
  - step E c1 H1. step E c2 H2. apply Ok_inj in E. subst c.
    rewrite parenthesize_names. simpl. apply incl_app; [eapply IHx1 | eapply IHx2]; eassumption.
  - step E rc Hrc. destruct rc as [rids cids].
    destruct (negb (contiguous rids && contiguous cids)); [discriminate E|].
    step E rshape Hrs. step E rstart Hst. step E cc Hcc.
    destruct cc as [cshape cstart]. step E c1 H1. apply Ok_inj in E. subst c.
    rewrite parenthesize_names. simpl. eapply IHx; eassumption.
  - step E c1 H1. step E c2 H2. apply Ok_inj in E. subst c.
    rewrite parenthesize_names. simpl. apply incl_app; [eapply IHx1 | eapply IHx2]; eassumption.
Qed.

(** *** The terminal declarations *)

Lemma terminal_loop_shape items : forall d s d',
  terminal_temporaries_loop items d = Ok (s, d') ->
  Forall (fun x => is_prologue x = true) s
  /\ (forall x, In x s -> reads x = [])
  /\ (forall exp t, In (exp, t) items ->
        exists ty l1 l2,
          s = l1 ++ ast.Decl (plain_decl ty t) :: ast.FlatBlock (SetZero t) :: l2)
  /\ (forall exp t, In (exp, t) items -> In t (flat_map writes s))
  /\ (forall k v, In (k, v) d' -> In (k, v) d \/ In (k, v) items).
Proof.
  induction items as [|[exp t] items IH]; simpl; intros d s d' E.
  - apply Ok_inj in E. injection E as <- <-.
    repeat split; try constructor; try (intros; contradiction); auto.
  - step E ty Hty. step E md Hm. destruct md as [more d1]. apply Ok_inj in E.
    injection E as <- <-.
    destruct (IH _ _ _ Hm) as (Hp & Hr & Hd & Hw & Hk).
    split; [repeat constructor; exact Hp|].
    split; [intros x [<-|[<-|Hx]]; [reflexivity | reflexivity | apply Hr; exact Hx]|].
    split; [|split].
    + intros exp0 t0 [E0|Hin].
      * injection E0 as <- <-. exists ty, [], more. reflexivity.
      * destruct (Hd _ _ Hin) as (ty0 & l1 & l2 & ->).
        exists ty0, (ast.Decl (plain_decl ty t) :: ast.FlatBlock (SetZero t) :: l1), l2.
        reflexivity.
    + intros exp0 t0 [E0|Hin].
      * injection E0 as <- <-. simpl. left. reflexivity.
      * simpl. right. eapply Hw. exact Hin.
    + intros k v Hin. destruct (Hk _ _ Hin) as [Hd1|Hi]; [|right; right; exact Hi].
      destruct (dict_set_In _ _ _ _ _ Hd1) as [[-> ->]|Hd0];
        [right; left; reflexivity | left; exact Hd0].
Qed.

(** *** The assembly calls *)

Lemma reads_calls l : flat_map reads (calls l) = map call_tensor l.
Proof. induction l as [|c l IH]; simpl; [reflexivity | rewrite IH; reflexivity]. Qed.

Lemma reads_calls_tensor builder l x :
  incl l (all_calls builder) -> In x (flat_map reads (calls l)) -> tensor_of builder x.
Proof.
  intros Hl Hx. rewrite reads_calls in Hx. apply in_map_iff in Hx.
  destruct Hx as (c & <- & Hc). exists c. split; [apply Hl; exact Hc | reflexivity].
Qed.

Lemma group_insert_members x groups g m :
  In g (group_insert x groups) -> In m (snd g) ->
  m = x \/ exists g', In g' groups /\ In m (snd g').
Proof.
  induction groups as [|[k ms] rest IH]; simpl.
  - intros [<-|[]] Hm. simpl in Hm. destruct Hm as [<-|[]]. left. reflexivity.
  - destruct (Z.eqb (fst x) k).
    + intros [<-|Hg] Hm.
      * simpl in Hm. apply in_app_or in Hm. destruct Hm as [Hm|[<-|[]]].
        -- right. exists (k, ms). split; [left; reflexivity | exact Hm].
        -- left. reflexivity.
      * right. exists g. split; [right; exact Hg | exact Hm].
    + intros [<-|Hg] Hm.
      * right. exists (k, ms). split; [left; reflexivity | exact Hm].
      * destruct (IH Hg Hm) as [->|(g' & Hg' & Hm')]; [left; reflexivity|].
        right. exists g'. split; [right; exact Hg' | exact Hm'].
Qed.

Lemma fold_group_members l : forall groups g m,
  In g (fold_left (fun gs x => group_insert x gs) l groups) -> In m (snd g) ->
  In m l \/ exists g', In g' groups /\ In m (snd g').
Proof.
  induction l as [|x l IH]; simpl; intros groups g m Hg Hm.
  - right. exists g. split; assumption.
  - destruct (IH _ _ _ Hg Hm) as [Hl|(g' & Hg' & Hm')]; [left; right; exact Hl|].
    destruct (group_insert_members _ _ _ _ Hg' Hm') as [->|Hold];
      [left; left; reflexivity | right; exact Hold].
Qed.

Lemma groupby_members l g m : In g (groupby l) -> In m (snd g) -> In m l.
Proof.
  intros Hg Hm. destruct (fold_group_members l [] g m Hg Hm) as [Hl|(g' & [] & _)].
  exact Hl.
Qed.

Lemma subdomain_stmts_reads builder l x :
  incl (map snd l) (all_calls builder) ->
  In x (flat_map reads (subdomain_stmts builder l)) ->
  x = cell_facet_sym builder \/ x = it_sym builder \/ tensor_of builder x.
Proof.
  intros Hl Hx. unfold subdomain_stmts in Hx.
  apply in_flat_map in Hx. destruct Hx as (s & Hs & Hx).
  apply in_map_iff in Hs. destruct Hs as (g & <- & Hg).
  cbn [reads names sym flat_map] in Hx. rewrite !app_nil_r in Hx.
  apply in_app_or in Hx.
  destruct Hx as [[<-|[<-|[]]]|Hx]; [left; reflexivity | right; left; reflexivity |].
  right. right. eapply reads_calls_tensor; [|exact Hx].
  intros c Hc. apply Hl. apply in_map_iff in Hc. destruct Hc as (m & <- & Hm).
  apply in_map. eapply groupby_members; eassumption.
Qed.

Lemma guarded_reads builder cond stmts x :
  (forall y, In y (names cond) -> y = cell_facet_sym builder \/ y = it_sym builder) ->
  (forall y, In y (flat_map reads stmts) ->
     y = cell_facet_sym builder \/ y = it_sym builder \/ tensor_of builder y) ->
  In x (flat_map reads (match stmts with
                        | [] => []
                        | _ => [ast.If cond (ast.Block stmts true) None]
                        end)) ->
  x = cell_facet_sym builder \/ x = it_sym builder \/ tensor_of builder x.
Proof.
  intros Hc Hs Hx. destruct stmts as [|s0 stmts]; [contradiction|].
  cbn [flat_map reads] in Hx. rewrite !app_nil_r in Hx.
  apply in_app_or in Hx. destruct Hx as [Hx|Hx].
  - destruct (Hc _ Hx); auto.
  - apply Hs. exact Hx.
Qed.

Lemma all_calls_incl builder :
  let ac := assembly_calls builder in
  incl (cell ac) (all_calls builder)
  /\ incl (interior_facet ac ++ interior_facet_vert ac) (all_calls builder)
  /\ incl (exterior_facet ac ++ exterior_facet_vert ac) (all_calls builder)
  /\ incl (map snd (subdomains_exterior_facet ac)) (all_calls builder)
  /\ incl (map snd (subdomains_interior_facet ac)) (all_calls builder)
  /\ incl (interior_facet_horiz_top ac ++ exterior_facet_bottom ac) (all_calls builder)
  /\ incl (interior_facet_horiz_bottom ac ++ exterior_facet_top ac) (all_calls builder)
  /\ incl (interior_facet_horiz_bottom ac ++ interior_facet_horiz_top ac) (all_calls builder).
Proof.
  cbv zeta. unfold all_calls, incl.
  repeat split; intros c Hc; repeat rewrite in_app_iff in *; tauto.
Qed.

Lemma facet_for_reads builder n x :
  In x (reads (facet_for builder n)) ->
  x = cell_facet_sym builder \/ tensor_of builder x.
Proof.
  destruct (all_calls_incl builder) as (_ & Hint & Hext & Hsde & Hsdi & _).
  unfold facet_for. cbn [reads]. intros Hx.
  assert (Hne : x <> it_sym builder)
    by (intros ->; exact (without_not _ _ Hx)).
  apply without_In in Hx.
  assert (Hall : x = cell_facet_sym builder \/ x = it_sym builder \/ tensor_of builder x).
  { cbn [names sym flat_map ast.d_sym unsigned_counter app] in Hx.
    destruct Hx as [<-|[<-|Hx]]; [auto | auto |].
    rewrite flat_map_app in Hx. apply in_app_or in Hx.
    assert (Hmark : forall k y,
               In y (names (ast.Eq (ast.Symbol (cell_facet_sym builder)
                                      [ast.Symbol (it_sym builder) []; ast.Lit 0])
                                   (ast.Lit k))) ->
               y = cell_facet_sym builder \/ y = it_sym builder).
    { intros k y Hy. cbn in Hy. destruct Hy as [<-|[<-|[]]]; auto. }
    destruct Hx as [Hx|Hx]; (eapply guarded_reads; [apply Hmark | | exact Hx]);
      intros y Hy; rewrite flat_map_app in Hy; apply in_app_or in Hy;
      destruct Hy as [Hy|Hy].
    - right. right. eapply reads_calls_tensor; [exact Hext | exact Hy].
    - eapply subdomain_stmts_reads; [exact Hsde | exact Hy].
    - right. right. eapply reads_calls_tensor; [exact Hint | exact Hy].
    - eapply subdomain_stmts_reads; [exact Hsdi | exact Hy]. }
  destruct Hall as [?|[?|?]]; [left; assumption | contradiction | right; assumption].
Qed.

Lemma layer_conditional_reads builder n x :
  In x (reads (layer_conditional builder n)) ->
  x = mesh_layer_sym builder \/ tensor_of builder x.
Proof.
  destruct (all_calls_incl builder) as (_ & _ & _ & _ & _ & Hbot & Htop & Hrest).
  unfold layer_conditional. cbn [reads names sym flat_map app].
  intros [<-|Hx]; [left; reflexivity|].
  apply in_app_or in Hx. destruct Hx as [Hx|[<-|Hx]].
  - right. eapply reads_calls_tensor; [exact Hbot | exact Hx].
  - left. reflexivity.
  - right. apply in_app_or in Hx. destruct Hx as [Hx|Hx];
      [eapply reads_calls_tensor; [exact Htop | exact Hx]
      | eapply reads_calls_tensor; [exact Hrest | exact Hx]].
Qed.

Lemma tensor_assembly_calls_reads builder stmts s x :
  tensor_assembly_calls builder = Ok stmts ->
  In s stmts -> In x (reads s) ->
  (needs_cell_facets builder = true /\ x = cell_facet_sym builder)
  \/ (needs_mesh_layers builder = true /\ x = mesh_layer_sym builder)
  \/ tensor_of builder x.
Proof.
  destruct (all_calls_incl builder) as (Hcell & _).
  unfold tensor_assembly_calls. intros E Hs Hx.
  step E facets Hf. step E levels Hl. apply Ok_inj in E. subst stmts.
  destruct Hs as [<-|Hs]; [contradiction|].
  apply in_app_or in Hs. destruct Hs as [Hs|Hs].
  - right. right. eapply reads_calls_tensor; [exact Hcell|].
    apply in_flat_map. exists s. split; assumption.
  - apply in_app_or in Hs. destruct Hs as [Hs|Hs].
    + destruct (needs_cell_facets builder); [|apply Ok_inj in Hf; subst; contradiction].
      step Hf domain Hd. apply Ok_inj in Hf. subst facets.
      destruct Hs as [<-|[<-|[]]]; [contradiction|].
      destruct (facet_for_reads _ _ _ Hx); auto.
    + destruct (needs_mesh_layers builder); [|apply Ok_inj in Hl; subst; contradiction].
      step Hl domain Hd. apply Ok_inj in Hl. subst levels.
      destruct Hs as [<-|[<-|[]]]; [contradiction|].
      destruct (layer_conditional_reads _ _ _ Hx); auto.
Qed.

(** *** The coefficient temporaries *)

Lemma index_In {A : Type} (l : list A) i x : index l i = Ok x -> In x l.
Proof.
  unfold index. destruct (nth_error l i) eqn:E; intros Hx; [|discriminate].
  apply Ok_inj in Hx. subst. eapply nth_error_In. exact E.
Qed.

Lemma coefficient_assignments_shape builder l : forall d decls assigns_ d',
  coefficient_assignments builder l d = Ok (decls, assigns_, d') ->
  (forall s, In s decls -> reads s = [] /\ is_prologue s = true)
  /\ (forall x, In x (flat_map reads assigns_) ->
        x = j1 \/ coefficient_symbol builder l x)
  /\ (forall k v, In (k, v) d' ->
        In (k, v) d \/ exists ci, In ci l /\ v = local_temp ci)
  /\ (forall ci, In ci l -> In (local_temp ci) (flat_map writes assigns_)).
Proof.
  induction l as [|ci l IH]; simpl; intros d decls assigns_ d' E.
  - apply Ok_inj in E. injection E as <- <- <-.
    repeat split; try (intros; contradiction); auto.
  - step E f Hf. step E dd Hdd. destruct dd as [declaration d1].
    step E w Hw. step E rest Hrest. destruct rest as [[ds as_] d2].
    apply Ok_inj in E. injection E as <- <- <-.
    destruct (IH _ _ _ _ Hrest) as (Hdecl & Hreads & Hdict & Hwrites).
    assert (Hdd' : (forall s, In s declaration -> reads s = [] /\ is_prologue s = true)
                   /\ forall k v, In (k, v) d1 -> In (k, v) d \/ v = local_temp ci).
    { destruct (lookup_temp (vector ci) d) as [t0|].
      - apply Ok_inj in Hdd. injection Hdd as <- <-. split; [intros s []|auto].
      - step Hdd cty Hcty. apply Ok_inj in Hdd. injection Hdd as <- <-. split.
        + intros s [<-|[]]. split; reflexivity.
        + intros k v Hin. destruct (dict_set_In _ _ _ _ _ Hin) as [[_ ->] | Hd]; auto. }
    destruct Hdd' as [Hdecl0 Hdict0].
    split; [|split; [|split]].
    + intros s Hs. apply in_app_or in Hs. destruct Hs as [Hs|Hs]; auto.
    + intros x Hx. cbn [flat_map reads names sym app] in Hx.
      destruct Hx as [<-|[<-|[<-|Hx]]]; auto.
      * right. exists ci, f.
        split; [left; reflexivity | split; [exact Hf | eapply index_In; exact Hw]].
      * destruct (Hreads _ Hx) as [->|(ci' & f' & Hci & Hf' & Hx')]; [left; reflexivity|].
        right. exists ci', f'.
        split; [right; exact Hci | split; [exact Hf' | exact Hx']].
    + intros k v Hin. destruct (Hdict _ _ Hin) as [Hd1|(ci' & Hci & ->)].
      * destruct (Hdict0 _ _ Hd1) as [Hd | ->]; [left; exact Hd|].
        right. exists ci. split; [left; reflexivity | reflexivity].
      * right. exists ci'. split; [right; exact Hci | reflexivity].
    + intros ci' [<-|Hci]; cbn [flat_map writes app]; [left; reflexivity|].
      right. apply Hwrites. exact Hci.
Qed.

Lemma coefficient_symbol_mono builder l l' x :
  incl l l' -> coefficient_symbol builder l x -> coefficient_symbol builder l' x.
Proof. intros Hl (ci & f & Hci & Hf & Hx). exists ci, f. auto. Qed.

Lemma coefficient_loops_shape builder items : forall d decls loops d',
  coefficient_loops builder items d = Ok (decls, loops, d') ->
  (forall s, In s decls -> reads s = [] /\ is_prologue s = true)
  /\ (forall s x, In s loops -> In x (reads s) ->
        coefficient_symbol builder (flat_map snd items) x)
  /\ (forall k v, In (k, v) d' ->
        In (k, v) d \/ exists ci, In ci (flat_map snd items) /\ v = local_temp ci)
  /\ (forall ci, In ci (flat_map snd items) ->
        In (local_temp ci) (flat_map writes loops)).
Proof.
  induction items as [|[dofs l] items IH]; simpl; intros d decls loops d' E.
  - apply Ok_inj in E. injection E as <- <- <-.
    repeat split; try (intros; contradiction); auto.
  - step E r1 H1. destruct r1 as [[ds as_] d1].
    step E r2 H2. destruct r2 as [[ds' ls] d2].
    apply Ok_inj in E. injection E as <- <- <-.
    destruct (coefficient_assignments_shape _ _ _ _ _ _ H1) as (Hdecl1 & Hreads1 & Hdict1 & Hw1).
    destruct (IH _ _ _ _ H2) as (Hdecl2 & Hreads2 & Hdict2 & Hw2).
    split; [|split; [|split]].
    + intros s Hs. apply in_app_or in Hs. destruct Hs as [Hs|Hs]; auto.
    + intros s x [<-|Hs] Hx.
      * cbn [reads ast.d_sym unsigned_counter] in Hx.
        assert (Hne : x <> j1) by (intros ->; exact (without_not _ _ Hx)).
        apply without_In in Hx. cbn [names sym flat_map app] in Hx.
        destruct Hx as [<-|[<-|Hx]]; try congruence.
        destruct (Hreads1 _ Hx) as [->|Hc]; [congruence|].
        eapply coefficient_symbol_mono; [|exact Hc]. apply incl_appl, incl_refl.
      * eapply coefficient_symbol_mono; [|eapply Hreads2; eassumption].
        apply incl_appr, incl_refl.
    + intros k v Hin. destruct (Hdict2 _ _ Hin) as [Hd1|(ci & Hci & ->)].
      * destruct (Hdict1 _ _ Hd1) as [Hd|(ci & Hci & ->)]; [left; exact Hd|].
        right. exists ci. split; [apply in_or_app; left; exact Hci | reflexivity].
      * right. exists ci. split; [apply in_or_app; right; exact Hci | reflexivity].
    + intros ci Hci. apply in_app_or in Hci. cbn [flat_map writes].
      apply in_or_app. destruct Hci as [Hci|Hci]; [left; apply Hw1 | right; apply Hw2];
        exact Hci.
Qed.

(** *** The auxiliary expressions *)

Lemma auxiliary_statement_reads exp d stmts t :
  auxiliary_statement exp d = Ok (stmts, t) ->
  (forall s, In s stmts -> incl (reads s) (map snd d))
  /\ In t (flat_map writes stmts).
Proof.
  intros E. unfold auxiliary_statement in E.
  assert (Hplain : forall c ty t0,
             slate_to_cpp exp d None = Ok c ->
             (forall s, In s [ast.Decl (plain_decl ty t0);
                              ast.Assign (sym t0) (ast.FlatExpr c)] ->
                        incl (reads s) (map snd d))
             /\ In t0 (flat_map writes [ast.Decl (plain_decl ty t0);
                                        ast.Assign (sym t0) (ast.FlatExpr c)])).
  { intros c ty t0 Hc. split.
    - intros s [<-|[<-|[]]]; [intros x []|].
      cbn [reads sym flat_map names app]. eapply slate_to_cpp_names. exact Hc.
    - cbn. left. reflexivity. }
  destruct exp;
    try (step E c Hc; step E ty Hty; apply Ok_inj in E; injection E as <- <-;
         apply Hplain; exact Hc).
  step E c Hc. step E ty Hty. apply Ok_inj in E. injection E as <- <-. split.
  - intros s [<-|[]]. cbn [reads text_reads]. eapply slate_to_cpp_names. exact Hc.
  - cbn. left. reflexivity.
Qed.

Lemma defined_after_app D l1 l2 :
  defined_after D (l1 ++ l2) = defined_after (defined_after D l1) l2.
Proof. unfold defined_after. apply fold_left_app. Qed.

Lemma defined_after_incl D l : incl D (defined_after D l).
Proof. intros x Hx. apply defined_after_In. left. exact Hx. Qed.

Lemma auxiliary_loop_raw exprs : forall d s d' D,
  auxiliary_loop exprs d = Ok (s, d') ->
  incl (map snd d) D ->
  reads_after_writes D s /\ incl (map snd d') (defined_after D s).
Proof.
  induction exprs as [|exp exprs IH]; simpl; intros d s d' D E Hd.
  - apply Ok_inj in E. injection E as <- <-. split; [exact I | exact Hd].
  - destruct (lookup_temp exp d); [eapply IH; eassumption|].
    step E st Hst. destruct st as [stmts t].
    step E md Hm. destruct md as [more d1]. apply Ok_inj in E. injection E as <- <-.
    destruct (auxiliary_statement_reads _ _ _ _ Hst) as [Hreads Ht].
    assert (Hd1 : incl (map snd (dict_set exp t d)) (defined_after D stmts)).
    { intros v Hv. apply in_map_iff in Hv. destruct Hv as ([k v'] & <- & Hin).
      apply defined_after_In.
      destruct (dict_set_In _ _ _ _ _ Hin) as [[_ ->]|Hold]; [right; exact Ht|].
      left. apply Hd. apply (in_map snd _ _ Hold). }
    destruct (IH _ _ _ _ Hm Hd1) as [Hraw Hincl].
    split.
    + apply raw_app; [|exact Hraw].
      apply raw_all_reads. intros s Hs x Hx. apply Hd. eapply Hreads; eassumption.
    + rewrite defined_after_app. exact Hincl.
Qed.

(** *** Where the zero-fills are *)

Lemma tensor_assembly_calls_no_zero_fill builder stmts :
  tensor_assembly_calls builder = Ok stmts ->
  Forall (fun s => is_zero_fill s = false) stmts.
Proof.
  unfold tensor_assembly_calls. intros E.
  step E facets Hf. step E levels Hl. apply Ok_inj in E. subst stmts.
  cbn [app].
  constructor; [reflexivity|].
  apply Forall_app. split; [|apply Forall_app; split].
  - apply List.Forall_forall. intros s Hs. unfold calls in Hs.
    apply in_map_iff in Hs. destruct Hs as (c & <- & _). reflexivity.
  - destruct (needs_cell_facets builder).
    + step Hf dm Hd. apply Ok_inj in Hf. subst facets. repeat constructor.
    + apply Ok_inj in Hf. subst facets. constructor.
  - destruct (needs_mesh_layers builder).
    + step Hl dm Hd. apply Ok_inj in Hl. subst levels. repeat constructor.
    + apply Ok_inj in Hl. subst levels. constructor.
Qed.

Lemma coefficient_assignments_no_zero_fill builder l : forall d decls assigns_ d',
  coefficient_assignments builder l d = Ok (decls, assigns_, d') ->
  Forall (fun s => is_zero_fill s = false) decls.
Proof.
  induction l as [|ci l IH]; intros d decls assigns_ d' E;
    cbn [coefficient_assignments] in E.
  - apply Ok_inj in E. injection E as <- <- <-. constructor.
  - step E f Hf. step E dd Hdd. destruct dd as [declaration d1].
    step E w Hw. step E r Hr. destruct r as [[ds as_] d2].
    apply Ok_inj in E. injection E as <- <- <-.
    apply Forall_app. split; [|eapply IH; exact Hr].
    destruct (lookup_temp (vector ci) d).
    + apply Ok_inj in Hdd. injection Hdd as <- <-. constructor.
    + step Hdd ty Hty. apply Ok_inj in Hdd. injection Hdd as <- <-. repeat constructor.
Qed.

Lemma coefficient_loops_no_zero_fill builder items : forall d decls loops d',
  coefficient_loops builder items d = Ok (decls, loops, d') ->
  Forall (fun s => is_zero_fill s = false) (decls ++ loops).
Proof.
  induction items as [|[dofs cl] items IH]; intros d decls loops d' E;
    cbn [coefficient_loops] in E.
  - apply Ok_inj in E. injection E as <- <- <-. constructor.
  - step E r Hr. destruct r as [[ds as_] d1].
    step E r' Hr'. destruct r' as [[ds' ls] d2].
    apply Ok_inj in E. injection E as <- <- <-.
    pose proof (coefficient_assignments_no_zero_fill _ _ _ _ _ _ Hr) as Hds.
    pose proof (IH _ _ _ _ Hr') as Hrest. apply Forall_app in Hrest.
    destruct Hrest as [Hds' Hls].
    rewrite <- app_assoc. apply Forall_app; split; [exact Hds|].
    apply Forall_app; split; [exact Hds'|].
    constructor; [reflexivity | exact Hls].
Qed.

Lemma auxiliary_loop_no_zero_fill exprs : forall d s d',
  auxiliary_loop exprs d = Ok (s, d') ->
  Forall (fun x => is_zero_fill x = false) s.
Proof.
  induction exprs as [|exp exprs IH]; intros d s d' E; cbn [auxiliary_loop] in E.
  - apply Ok_inj in E. injection E as <- <-. constructor.
  - destruct (lookup_temp exp d); [eapply IH; exact E|].
    step E st Hst. destruct st as [stmts t].
    step E md Hm. destruct md as [more d1]. apply Ok_inj in E. injection E as <- <-.
    apply Forall_app. split; [|eapply IH; exact Hm].
    unfold auxiliary_statement in Hst.
    destruct exp; step Hst c Hc; step Hst ty Hty; apply Ok_inj in Hst;
      injection Hst as <- <-; repeat constructor.
Qed.

Section Ordering.
Context `{Collaborators}.

Lemma kernel_args_names builder r :
  let args := map ast.d_sym (kernel_args builder r) in
  In r args
  /\ (needs_cell_facets builder = true -> In arg_cell_facets args)
  /\ (needs_mesh_layers builder = true -> In (mesh_layer_sym builder) args)
  /\ (forall f x, In f (coefficients (expression builder)) ->
        In x (coefficient builder f) -> In x args).
Proof.
  cbv zeta. unfold kernel_args. rewrite !map_app.
  split; [left; reflexivity|]. split; [|split].
  - intros ->. rewrite !in_app_iff. do 3 right. left. left. reflexivity.
  - intros ->. rewrite !in_app_iff. do 4 right. left. left. reflexivity.
  - intros f x Hf Hx. rewrite !in_app_iff. do 2 right. left. apply in_map_iff.
    exists (restrict_const ScalarType_c x). split; [reflexivity|].
    apply in_flat_map. exists f. split; [exact Hf|]. apply in_map. exact Hx.
Qed.

(** C7 (as the code has it): in the macro kernel every temporary of
    [builder.temps], the temporaries of the tensors, is declared and set
    to zero in a prologue that holds only the facet typecast, comments,
    declarations and zero-fills and that ends where the assembly calls
    begin, so before any assembly call and before any statement that
    reads or accumulates; from the assembly calls on no statement is a
    zero-fill, so the temporaries that [coefficient_temporaries]
    declares there for the assembled vectors are never set to zero; and
    every statement of the kernel reads only names that are kernel
    arguments or were written by an earlier statement. *)
Theorem temporaries_written_before_read e p k builder
    (Hgen : generate_kernel e p = Ok k)
    (Hb : new_LocalKernelBuilder e p = Ok builder)
    (Hcalls : forall c, In c (all_calls builder) ->
                In (call_tensor c) (map snd (temps builder)))
    (Hcoeff : forall ci f, In ci (flat_map snd (coefficient_vecs builder)) ->
                function_of (vector ci) = Ok f ->
                In f (coefficients (expression builder))) :
  (exists prologue subkernel_calls rest,
      kernel_body k = prologue ++ subkernel_calls ++ rest /\
      tensor_assembly_calls builder = Ok subkernel_calls /\
      Forall (fun s => is_prologue s = true) prologue /\
      (forall exp t, In (exp, t) (temps builder) ->
         exists ty l1 l2,
           prologue = l1 ++ ast.Decl (plain_decl ty t) :: ast.FlatBlock (SetZero t) :: l2) /\
      Forall (fun s => is_zero_fill s = false) (subkernel_calls ++ rest))
  /\ reads_after_writes (kernel_arg_names k) (kernel_body k).
Proof.
  destruct (generate_kernel_ok _ _ _ Hgen)
    as (b & tm & d1 & scalls & co & d2 & au & d3 & ki & _ & Hb' & Ht & Hsc & Hco & Hau & Hk & Hki).
  rewrite Hb in Hb'. apply Ok_inj in Hb'. subst b.
  destruct (generate_kernel_ast_ok _ _ _ _ Hk) as (ty & c & Hc & Hcode).
  unfold kernel_body, kernel_arg_names, macro_kernel_of. rewrite Hki, Hcode.
  cbn [ast.f_body ast.f_args].
  set (A := ("A" ++ fmt_d (length d3))%string).
  set (T := ("T" ++ fmt_d (length d3))%string).
  set (args := map ast.d_sym (kernel_args builder A)).
  destruct (kernel_args_names builder A) as (HA & Hfacet_arg & Hlayer_arg & Hcoeff_arg).
  fold args in HA, Hfacet_arg, Hlayer_arg, Hcoeff_arg.
  set (cast := opt (needs_cell_facets builder)
                 (ast.FlatBlock (FacetCast f_dtype (cell_facet_sym builder) arg_cell_facets))).
  unfold terminal_temporaries in Ht. step Ht dd Hdd. destruct dd as [decls d1'].
  apply Ok_inj in Ht. injection Ht as <- <-.
  destruct (terminal_loop_shape _ _ _ _ Hdd) as (Hpro & Hreads_t & Hpairs & Hwrites_t & Hkeys_t).
  split.
  - exists (cast ++ ast.FlatBlock (Comment "/* Declare and initialize */") :: decls),
           scalls,
           (co ++ au
            ++ [ast.FlatBlock (Comment "/* Map eigen tensor into C struct */");
                ast.FlatBlock (EigenMap (cat ["Eigen::Map<"; ty; " >"]%string) T ScalarType_c A);
                ast.FlatBlock (Comment "/* Linear algebra expression */");
                ast.Incr (sym T) (ast.FlatExpr c)]).
    split; [|split; [|split; [|split]]].
    + rewrite <- !app_assoc. reflexivity.
    + exact Hsc.
    + apply Forall_app. split.
      * unfold cast, opt. destruct (needs_cell_facets builder); repeat constructor.
      * constructor; [reflexivity | exact Hpro].
    + intros exp t Hin. destruct (Hpairs _ _ Hin) as (ty0 & l1 & l2 & ->).
      exists ty0, (cast ++ ast.FlatBlock (Comment "/* Declare and initialize */") :: l1), l2.
      rewrite <- app_assoc. reflexivity.
    + apply Forall_app; split; [|apply Forall_app; split; [|apply Forall_app; split]].
      * eapply tensor_assembly_calls_no_zero_fill. exact Hsc.
      * destruct (coefficient_vecs builder) as [|cv cvs] eqn:Ecv.
        -- apply Ok_inj in Hco. injection Hco as <- <-. constructor.
        -- unfold coefficient_temporaries in Hco. rewrite Ecv in Hco.
           step Hco r Hr. destruct r as [[ds ls] d2']. apply Ok_inj in Hco.
           injection Hco as <- <-.
           pose proof (coefficient_loops_no_zero_fill _ _ _ _ _ _ Hr) as Hz.
           apply Forall_app in Hz. destruct Hz as [Hds Hls].
           constructor; [reflexivity|]. apply Forall_app. split; [exact Hds|].
           constructor; [reflexivity | exact Hls].
      * eapply auxiliary_loop_no_zero_fill. exact Hau.
      * repeat constructor.
  - rewrite <- !app_assoc.
    (* the typecast *)
    apply raw_app.
    { unfold cast, opt. destruct (needs_cell_facets builder) eqn:Ef; [|exact I].
      split; [|exact I]. intros x [<-|[]]. apply Hfacet_arg. reflexivity. }
    set (D1 := defined_after args cast).
    assert (HD1 : incl args D1) by apply defined_after_incl.
    assert (Hcf : needs_cell_facets builder = true -> In (cell_facet_sym builder) D1).
    { intros Ef. apply defined_after_In. right. unfold cast, opt. rewrite Ef.
      left. reflexivity. }
    (* the terminal temporaries *)
    change ((ast.FlatBlock (Comment "/* Declare and initialize */") :: decls) ++ ?l)
      with ([ast.FlatBlock (Comment "/* Declare and initialize */")] ++ decls ++ l).
    apply raw_app; [split; [intros x []|exact I]|].
    apply raw_app.
    { apply raw_all_reads. intros s Hs. rewrite (Hreads_t _ Hs). intros x []. }
    set (D2 := defined_after
                 (defined_after D1 [ast.FlatBlock (Comment "/* Declare and initialize */")])
                 decls).
    assert (HD2 : incl D1 D2).
    { intros x Hx. apply defined_after_In. left. apply defined_after_In. left. exact Hx. }
    assert (Htemps : forall t, In t (map snd (temps builder)) -> In t D2).
    { intros t Ht. apply in_map_iff in Ht. destruct Ht as ([exp t'] & <- & Hin).
      apply defined_after_In. right. eapply Hwrites_t. exact Hin. }
    assert (Hd1 : incl (map snd d1') D2).
    { intros v Hv. apply in_map_iff in Hv. destruct Hv as ([k0 v0] & <- & Hin).
      destruct (Hkeys_t _ _ Hin) as [[]|Hi]. apply Htemps. apply (in_map snd _ _ Hi). }
    (* the assembly calls *)
    apply raw_app.
    { apply raw_all_reads. intros s Hs x Hx.
      destruct (tensor_assembly_calls_reads _ _ _ _ Hsc Hs Hx)
        as [[Ef ->]|[[El ->]|(c0 & Hc0 & ->)]].
      - apply HD2, Hcf, Ef.
      - apply HD2, HD1, Hlayer_arg, El.
      - apply Htemps, Hcalls, Hc0. }
    set (D3 := defined_after D2 scalls).
    assert (HD3 : incl D2 D3) by apply defined_after_incl.
    (* the coefficient temporaries *)
    assert (Hcoef : reads_after_writes D3 co /\ incl (map snd d2) (defined_after D3 co)).
    { destruct (coefficient_vecs builder) as [|cv cvs] eqn:Ecv.
      - apply Ok_inj in Hco. injection Hco as <- <-. split; [exact I|].
        intros v Hv. apply HD3, Hd1, Hv.
      - unfold coefficient_temporaries in Hco. rewrite Ecv in Hco.
        step Hco r Hr. destruct r as [[ds ls] d2']. apply Ok_inj in Hco.
        injection Hco as <- <-.
        destruct (coefficient_loops_shape _ _ _ _ _ _ Hr) as (Hds & Hls & Hdict & Hw).
        split.
        + apply raw_all_reads. intros s Hs x Hx.
          destruct Hs as [<-|Hs]; [contradiction|].
          apply in_app_or in Hs. destruct Hs as [Hs|[<-|Hs]]; try contradiction.
          * destruct (Hds _ Hs) as [Hr0 _]. rewrite Hr0 in Hx. contradiction.
          * destruct (Hls _ _ Hs Hx) as (ci & f & Hci & Hf & Hxf).
            apply HD3, HD2, HD1. eapply Hcoeff_arg; [|exact Hxf].
            eapply Hcoeff; eassumption.
        + intros v Hv. apply in_map_iff in Hv. destruct Hv as ([k0 v0] & <- & Hin).
          apply defined_after_In.
          destruct (Hdict _ _ Hin) as [Hold|(ci & Hci & ->)].
          * left. apply HD3, Hd1. apply (in_map snd _ _ Hold).
          * right. cbn [flat_map writes text_writes app].
            rewrite flat_map_app. apply in_or_app. right.
            cbn [flat_map writes text_writes app]. apply Hw. exact Hci. }
    destruct Hcoef as [Hraw_co Hd2].
    apply raw_app; [exact Hraw_co|].
    set (D4 := defined_after D3 co) in *.
    assert (HD4 : incl D3 D4) by apply defined_after_incl.
    (* the auxiliary expressions *)
    unfold auxiliary_expressions in Hau.
    destruct (auxiliary_loop_raw _ _ _ _ D4 Hau Hd2) as [Hraw_au Hd3].
    apply raw_app; [exact Hraw_au|].
    set (D5 := defined_after D4 au) in *.
    assert (HD5 : incl D4 D5) by apply defined_after_incl.
    (* the result *)
    cbn [reads_after_writes reads writes text_reads text_writes names sym flat_map app].
    split; [intros x []|]. split; [intros x [<-|[]]; apply HD5, HD4, HD3, HD2, HD1, HA|].
    split; [intros x []|]. split; [|exact I].
    intros x [<-|Hx]; [left; reflexivity|].
    right. apply Hd3. eapply slate_to_cpp_names; eassumption.
Qed.

End Ordering.

(** *** Sub-expressions *)

Lemma subexpr_refl e : subexpr e e.
Proof. destruct e; left; reflexivity. Qed.

Lemma subexpr_size s e : subexpr s e -> esize s <= esize e.
Proof.
  induction e; simpl; intros [->|Hs]; try lia; try contradiction;
    try (destruct Hs as [Hs|Hs]); auto with arith;
    try (specialize (IHe Hs); lia);
    try (specialize (IHe1 Hs); lia); try (specialize (IHe2 Hs); lia).
Qed.

Lemma strict_subexpr_size s e : strict_subexpr s e -> esize s < esize e.
Proof.
  unfold strict_subexpr. intros Hs. apply List.Exists_exists in Hs.
  destruct Hs as (o & Ho & Hs). apply subexpr_size in Hs.
  destruct e; simpl in Ho; try contradiction;
    repeat (destruct Ho as [<-|Ho]; [simpl; lia|]); contradiction.
Qed.

Lemma subexpr_cases s e : subexpr s e -> s = e \/ strict_subexpr s e.
Proof.
  unfold strict_subexpr.
  destruct e; simpl; intros [->|Hs]; auto; try contradiction; right;
    try (destruct Hs as [Hs|Hs]);
    try (apply Exists_cons_hd; exact Hs);
    apply Exists_cons_tl, Exists_cons_hd; exact Hs.
Qed.

Lemma operand_strict s o e : In o (operands e) -> subexpr s o -> strict_subexpr s e.
Proof.
  intros Ho Hs. unfold strict_subexpr. apply List.Exists_exists. exists o. auto.
Qed.

Lemma not_in_operand e o : In o (operands e) -> ~ subexpr e o.
Proof.
  intros Ho Hs. pose proof (strict_subexpr_size _ _ (operand_strict _ _ _ Ho Hs)). lia.
Qed.

(** *** Evaluation sites of a translated expression *)

Lemma tag_refl e : tag e e = 1.
Proof. unfold tag. destruct (expr_eq_dec e e); [reflexivity | congruence]. Qed.

Lemma tag_pos src e : 0 < tag src e -> src = e.
Proof. unfold tag. destruct (expr_eq_dec src e); [auto | lia]. Qed.

Lemma parenthesize_sites x c p q : cpp_sites x (parenthesize c p q) = cpp_sites x c.
Proof.
  unfold parenthesize. destruct p as [p|], q as [q|]; try reflexivity.
  destruct (q <=? p); reflexivity.
Qed.

Lemma parenthesize_top c p : parenthesize c p None = c.
Proof. unfold parenthesize. destruct p; reflexivity. Qed.

(** A node is evaluated inside the translation of [y] only if it is a
    node of [y] and has no temporary yet. *)
Lemma sites_subexpr x y : forall d prec_ c,
  slate_to_cpp y d prec_ = Ok c ->
  0 < cpp_sites x c ->
  subexpr x y /\ lookup_temp x d = None.
Proof.
  induction y; intros d prec_ c E Hpos; rewrite slate_to_cpp_eq in E;
    (destruct (lookup_temp _ d) as [t|] eqn:El;
     [apply Ok_inj in E; subst c; simpl in Hpos; lia |]); try discriminate E.
  - step E c1 H1. apply Ok_inj in E. subst c. cbn [cpp_sites] in Hpos.
    destruct (tag (Transpose a y) x) eqn:Et.
    + destruct (IHy _ _ _ H1 Hpos) as [Hs Hl]. split; [right; exact Hs | exact Hl].
    + assert (Hx : Transpose a y = x) by (apply tag_pos; lia). subst x.
      split; [left; reflexivity | exact El].
  - step E c1 H1. apply Ok_inj in E. subst c. cbn [cpp_sites] in Hpos.
    destruct (tag (Inverse a y) x) eqn:Et.
    + destruct (IHy _ _ _ H1 Hpos) as [Hs Hl]. split; [right; exact Hs | exact Hl].
    + assert (Hx : Inverse a y = x) by (apply tag_pos; lia). subst x.
      split; [left; reflexivity | exact El].
  - step E c1 H1. apply Ok_inj in E. subst c.
    rewrite parenthesize_sites in Hpos. cbn [cpp_sites] in Hpos.
    destruct (tag (Negative a y) x) eqn:Et.
    + destruct (IHy _ _ _ H1 Hpos) as [Hs Hl]. split; [right; exact Hs | exact Hl].
    + assert (Hx : Negative a y = x) by (apply tag_pos; lia). subst x.
      split; [left; reflexivity | exact El].
  - step E c1 H1. step E c2 H2. apply Ok_inj in E. subst c.
    rewrite parenthesize_sites in Hpos. cbn [cpp_sites] in Hpos.
    destruct (tag (Add a y1 y2) x) eqn:Et.
    + destruct (Nat.eq_dec (cpp_sites x c1) 0) as [Hz|Hnz].
      * destruct (IHy2 _ _ _ H2 ltac:(lia)) as [Hs Hl]. split; [right; right; exact Hs | exact Hl].
      * destruct (IHy1 _ _ _ H1 ltac:(lia)) as [Hs Hl]. split; [right; left; exact Hs | exact Hl].
    + assert (Hx : Add a y1 y2 = x) by (apply tag_pos; lia). subst x.
      split; [left; reflexivity | exact El].
  - step E c1 H1. step E c2 H2. apply Ok_inj in E. subst c.
    rewrite parenthesize_sites in Hpos. cbn [cpp_sites] in Hpos.
    destruct (tag (Mul a y1 y2) x) eqn:Et.
    + destruct (Nat.eq_dec (cpp_sites x c1) 0) as [Hz|Hnz].
      * destruct (IHy2 _ _ _ H2 ltac:(lia)) as [Hs Hl]. split; [right; right; exact Hs | exact Hl].
      * destruct (IHy1 _ _ _ H1 ltac:(lia)) as [Hs Hl]. split; [right; left; exact Hs | exact Hl].
    + assert (Hx : Mul a y1 y2 = x) by (apply tag_pos; lia). subst x.
      split; [left; reflexivity | exact El].
  - step E rc Hrc. destruct rc as [rids cids].
    destruct (negb (contiguous rids && contiguous cids)); [discriminate E|].
    step E rshape Hrs. step E rstart Hst. step E cc Hcc.
    destruct cc as [cshape cstart]. step E c1 H1. apply Ok_inj in E. subst c.
    rewrite parenthesize_sites in Hpos. cbn [cpp_sites] in Hpos.
    destruct (tag (Block a y _indices) x) eqn:Et.
    + destruct (IHy _ _ _ H1 Hpos) as [Hs Hl]. split; [right; exact Hs | exact Hl].
    + assert (Hx : Block a y _indices = x) by (apply tag_pos; lia). subst x.
      split; [left; reflexivity | exact El].
  - step E c1 H1. step E c2 H2. apply Ok_inj in E. subst c.
    rewrite parenthesize_sites in Hpos. cbn [cpp_sites] in Hpos.
    destruct (tag (Solve a y1 y2) x) eqn:Et.
    + destruct (Nat.eq_dec (cpp_sites x c1) 0) as [Hz|Hnz].
      * destruct (IHy2 _ _ _ H2 ltac:(lia)) as [Hs Hl]. split; [right; right; exact Hs | exact Hl].
      * destruct (IHy1 _ _ _ H1 ltac:(lia)) as [Hs Hl]. split; [right; left; exact Hs | exact Hl].
    + assert (Hx : Solve a y1 y2 = x) by (apply tag_pos; lia). subst x.
      split; [left; reflexivity | exact El].
Qed.

Lemma sites_zero x y d prec_ c :
  slate_to_cpp y d prec_ = Ok c ->
  lookup_temp x d <> None \/ ~ subexpr x y ->
  cpp_sites x c = 0.
Proof.
  intros E Hor. destruct (Nat.eq_dec (cpp_sites x c) 0) as [Hz|Hnz]; [exact Hz|].
  destruct (sites_subexpr x y d prec_ c E ltac:(lia)) as [Hs Hl]. tauto.
Qed.

(** A node without a temporary is evaluated exactly once by its own
    translation, at the top. *)
Lemma sites_own x d prec_ c :
  slate_to_cpp x d prec_ = Ok c ->
  lookup_temp x d = None ->
  cpp_sites x c = 1 /\ cpp_src (parenthesize c None None) = cpp_src c
  /\ (prec_ = None -> cpp_src c = Some x).
Proof.
  intros E El. rewrite slate_to_cpp_eq, El in E.
  assert (Hop : forall o c1 p, In o (operands x) -> slate_to_cpp o d p = Ok c1 ->
                               cpp_sites x c1 = 0).
  { intros o c1 p Ho Hc1. eapply sites_zero; [exact Hc1|]. right.
    apply not_in_operand. exact Ho. }
  split; [|split; [reflexivity|]].
  - destruct x; try discriminate E.
    + step E c1 H1. apply Ok_inj in E. subst c. cbn [cpp_sites].
      rewrite tag_refl, (Hop _ _ _ ltac:(left; reflexivity) H1). reflexivity.
    + step E c1 H1. apply Ok_inj in E. subst c. cbn [cpp_sites].
      rewrite tag_refl, (Hop _ _ _ ltac:(left; reflexivity) H1). reflexivity.
    + step E c1 H1. apply Ok_inj in E. subst c. rewrite parenthesize_sites.
      cbn [cpp_sites].
      rewrite tag_refl, (Hop _ _ _ ltac:(left; reflexivity) H1). reflexivity.
    + step E c1 H1. step E c2 H2. apply Ok_inj in E. subst c. rewrite parenthesize_sites.
      cbn [cpp_sites].
      rewrite tag_refl, (Hop _ _ _ ltac:(left; reflexivity) H1),
        (Hop _ _ _ ltac:(right; left; reflexivity) H2). reflexivity.
    + step E c1 H1. step E c2 H2. apply Ok_inj in E. subst c. rewrite parenthesize_sites.
      cbn [cpp_sites].
      rewrite tag_refl, (Hop _ _ _ ltac:(left; reflexivity) H1),
        (Hop _ _ _ ltac:(right; left; reflexivity) H2). reflexivity.
    + step E rc Hrc. destruct rc as [rids cids].
      destruct (negb (contiguous rids && contiguous cids)); [discriminate E|].
      step E rshape Hrs. step E rstart Hst. step E cc Hcc.
      destruct cc as [cshape cstart]. step E c1 H1. apply Ok_inj in E. subst c.
      rewrite parenthesize_sites. cbn [cpp_sites].
      rewrite tag_refl, (Hop _ _ _ ltac:(left; reflexivity) H1). reflexivity.
    + step E c1 H1. step E c2 H2. apply Ok_inj in E. subst c. rewrite parenthesize_sites.
      cbn [cpp_sites].
      rewrite tag_refl, (Hop _ _ _ ltac:(left; reflexivity) H1),
        (Hop _ _ _ ltac:(right; left; reflexivity) H2). reflexivity.
  - intros ->. destruct x; try discriminate E.
    + step E c1 H1. apply Ok_inj in E. subst c. reflexivity.
    + step E c1 H1. apply Ok_inj in E. subst c. reflexivity.
    + step E c1 H1. apply Ok_inj in E. subst c. rewrite parenthesize_top. reflexivity.
    + step E c1 H1. step E c2 H2. apply Ok_inj in E. subst c.
      rewrite parenthesize_top. reflexivity.
    + step E c1 H1. step E c2 H2. apply Ok_inj in E. subst c.
      rewrite parenthesize_top. reflexivity.
    + step E rc Hrc. destruct rc as [rids cids].
      destruct (negb (contiguous rids && contiguous cids)); [discriminate E|].
      step E rshape Hrs. step E rstart Hst. step E cc Hcc.
      destruct cc as [cshape cstart]. step E c1 H1. apply Ok_inj in E. subst c.
      rewrite parenthesize_top. reflexivity.
    + step E c1 H1. step E c2 H2. apply Ok_inj in E. subst c.
      rewrite parenthesize_top. reflexivity.
Qed.

(** *** Evaluation sites in the statements *)

Lemma total_sites_app x l1 l2 :
  total_sites x (l1 ++ l2) = total_sites x l1 + total_sites x l2.
Proof.
  unfold total_sites. rewrite map_app. induction (map (sites x) l1) as [|n l IH];
    simpl; [reflexivity | rewrite IH; lia].
Qed.

Lemma no_node_sites x l : Forall no_node l -> total_sites x l = 0.
Proof.
  unfold total_sites. induction 1 as [|s l Hs Hl IH]; simpl; [reflexivity|].
  rewrite IH. destruct (Hs x) as [-> _]. reflexivity.
Qed.

Lemma no_node_assigns x l : Forall no_node l -> ~ Exists (assigns x) l.
Proof.
  induction 1 as [|s l Hs Hl IH]; intros Hex; inversion Hex; subst.
  - destruct (Hs x) as [_ Hn]. contradiction.
  - contradiction.
Qed.

Lemma prologue_no_node s : is_prologue s = true -> no_node s.
Proof.
  intros Hp x. destruct s; try discriminate; [|split; [reflexivity | intros []]].
  destruct t; try discriminate; split; try reflexivity; intros [].
Qed.

Lemma sites_calls x l : list_sum (map (sites x) (calls l)) = 0.
Proof. induction l as [|c l IH]; simpl; [reflexivity | exact IH]. Qed.

Lemma list_sum_app_nat (l1 l2 : list nat) : list_sum (l1 ++ l2) = list_sum l1 + list_sum l2.
Proof. induction l1 as [|n l1 IH]; simpl; [reflexivity | rewrite IH; lia]. Qed.

Lemma list_sum_cons (n : nat) (l : list nat) : list_sum (n :: l) = n + list_sum l.
Proof. reflexivity. Qed.

Lemma sites_If x c t e :
  sites x (ast.If c t e)
  = sites x t + match e with Some s => sites x s | None => 0 end.
Proof. reflexivity. Qed.

Lemma sites_Block x l o : sites x (ast.Block l o) = list_sum (map (sites x) l).
Proof. reflexivity. Qed.

Lemma sites_For x init c incr body :
  sites x (ast.For init c incr body) = sites x incr + list_sum (map (sites x) body).
Proof. reflexivity. Qed.

Lemma sites_subdomain_stmts x builder l :
  list_sum (map (sites x) (subdomain_stmts builder l)) = 0.
Proof.
  unfold subdomain_stmts. induction (groupby l) as [|g gs IH]; [reflexivity|].
  cbn [map]. rewrite list_sum_cons, sites_If, sites_Block, sites_calls, IH. reflexivity.
Qed.

Lemma sites_guarded x cond stmts :
  list_sum (map (sites x) stmts) = 0 ->
  list_sum (map (sites x) (match stmts with
                           | [] => []
                           | _ => [ast.If cond (ast.Block stmts true) None]
                           end)) = 0.
Proof.
  intros Hs. destruct stmts as [|s0 stmts]; [reflexivity|].
  cbn [map]. rewrite list_sum_cons, sites_If, sites_Block, Hs. reflexivity.
Qed.

Lemma facet_for_no_node builder n : no_node (facet_for builder n).
Proof.
  intros x. split; [|intros []].
  unfold facet_for. rewrite sites_For, map_app, list_sum_app_nat.
  rewrite !sites_guarded; [reflexivity | |];
    rewrite map_app, list_sum_app_nat, sites_calls, sites_subdomain_stmts; reflexivity.
Qed.

Lemma layer_conditional_no_node builder n : no_node (layer_conditional builder n).
Proof.
  intros x. split; [|intros []].
  unfold layer_conditional. rewrite !sites_If, !sites_Block, !sites_calls. reflexivity.
Qed.

Lemma tensor_assembly_calls_no_node builder stmts :
  tensor_assembly_calls builder = Ok stmts -> Forall no_node stmts.
Proof.
  unfold tensor_assembly_calls. intros E.
  step E facets Hf. step E levels Hl. apply Ok_inj in E. subst stmts.
  constructor; [apply prologue_no_node; reflexivity|].
  apply Forall_app. split; [|apply Forall_app; split].
  - unfold calls. apply List.Forall_forall. intros s Hs. apply in_map_iff in Hs.
    destruct Hs as (c & <- & _). intros x. split; [reflexivity | intros []].
  - destruct (needs_cell_facets builder); [|apply Ok_inj in Hf; subst; constructor].
    step Hf domain Hd. apply Ok_inj in Hf. subst facets.
    constructor; [apply prologue_no_node; reflexivity|].
    constructor; [apply facet_for_no_node | constructor].
  - destruct (needs_mesh_layers builder); [|apply Ok_inj in Hl; subst; constructor].
    step Hl domain Hd. apply Ok_inj in Hl. subst levels.
    constructor; [apply prologue_no_node; reflexivity|].
    constructor; [apply layer_conditional_no_node | constructor].
Qed.

Lemma coefficient_assignments_sites builder l x : forall d decls assigns_ d',
  coefficient_assignments builder l d = Ok (decls, assigns_, d') ->
  list_sum (map (sites x) assigns_) = 0.
Proof.
  induction l as [|ci l IH]; simpl; intros d decls assigns_ d' E.
  - apply Ok_inj in E. injection E as <- <- <-. reflexivity.
  - step E f Hf. step E dd Hdd. destruct dd as [declaration d1].
    step E w Hw. step E rest Hrest. destruct rest as [[ds as_] d2].
    apply Ok_inj in E. injection E as <- <- <-.
    simpl. eapply IH. exact Hrest.
Qed.

Lemma coefficient_loops_no_node builder items : forall d decls loops d',
  coefficient_loops builder items d = Ok (decls, loops, d') ->
  Forall no_node decls /\ Forall no_node loops.
Proof.
  induction items as [|[dofs l] items IH]; simpl; intros d decls loops d' E.
  - apply Ok_inj in E. injection E as <- <- <-. split; constructor.
  - step E r1 H1. destruct r1 as [[ds as_] d1].
    step E r2 H2. destruct r2 as [[ds' ls] d2].
    apply Ok_inj in E. injection E as <- <- <-.
    destruct (IH _ _ _ _ H2) as [Hd Hl].
    destruct (coefficient_assignments_shape _ _ _ _ _ _ H1) as (Hdecl & _).
    split.
    + apply Forall_app. split; [|exact Hd].
      apply List.Forall_forall. intros s Hs. apply prologue_no_node. apply Hdecl. exact Hs.
    + constructor; [|exact Hl]. intros x. split; [|intros []].
      rewrite sites_For, (coefficient_assignments_sites _ _ _ _ _ _ _ H1). reflexivity.
Qed.

(** *** The auxiliary loop *)

Lemma auxiliary_statement_sites exp d stmts t :
  auxiliary_statement exp d = Ok (stmts, t) ->
  lookup_temp exp d = None ->
  total_sites exp stmts = 1
  /\ (forall x, x <> exp -> 0 < total_sites x stmts ->
        strict_subexpr x exp /\ lookup_temp x d = None)
  /\ (forall x, Exists (assigns x) stmts <-> x = exp).
Proof.
  intros E El. unfold auxiliary_statement in E.
  assert (Hplain : forall c ty t0,
             slate_to_cpp exp d None = Ok c ->
             let stmts0 := [ast.Decl (plain_decl ty t0);
                            ast.Assign (sym t0) (ast.FlatExpr c)] in
             total_sites exp stmts0 = 1
             /\ (forall x, x <> exp -> 0 < total_sites x stmts0 ->
                   strict_subexpr x exp /\ lookup_temp x d = None)
             /\ (forall x, Exists (assigns x) stmts0 <-> x = exp)).
  { intros c ty t0 Hc stmts0. subst stmts0.
    destruct (sites_own _ _ _ _ Hc El) as (Hone & _ & Hsrc). specialize (Hsrc eq_refl).
    unfold total_sites. cbn [map sites cexp_sites sym list_sum fold_right].
    split; [|split].
    - unfold list_sum. cbn [fold_right]. rewrite Hone. reflexivity.
    - intros x Hne Hpos. unfold list_sum in Hpos. cbn [fold_right] in Hpos.
      destruct (sites_subexpr x exp d None c Hc ltac:(lia)) as [Hs Hl].
      split; [|exact Hl]. destruct (subexpr_cases _ _ Hs); [contradiction | assumption].
    - intros x. split.
      + intros Hex. inversion Hex as [? ? Ha|? ? Hex']; subst; [destruct Ha|].
        inversion Hex' as [? ? Ha|? ? Hex'']; subst; [|inversion Hex''].
        cbn in Ha. congruence.
      + intros ->. apply Exists_cons_tl, Exists_cons_hd. cbn. exact Hsrc. }
  destruct exp;
    try (step E c Hc; step E ty Hty; apply Ok_inj in E; injection E as <- <-;
         apply Hplain; exact Hc).
  step E c Hc. step E ty Hty. apply Ok_inj in E. injection E as <- <-.
  unfold total_sites. cbn [map sites text_sites].
  assert (Hzero : cpp_sites (Factorization a exp decomposition) c = 0).
  { eapply sites_zero; [exact Hc|]. right. apply not_in_operand. left. reflexivity. }
  split; [|split].
  - unfold list_sum. cbn [fold_right]. rewrite tag_refl, Hzero. reflexivity.
  - intros x Hne Hpos. unfold list_sum in Hpos. cbn [fold_right] in Hpos.
    assert (Ht : tag (Factorization a exp decomposition) x = 0).
    { unfold tag. destruct (expr_eq_dec (Factorization a exp decomposition) x);
        [congruence | reflexivity]. }
    rewrite Ht in Hpos.
    destruct (sites_subexpr x exp d None c Hc ltac:(lia)) as [Hs Hl].
    split; [|exact Hl]. eapply operand_strict; [left; reflexivity | exact Hs].
  - intros x. split.
    + intros Hex. inversion Hex as [? ? Ha|? ? Hex']; subst; [|inversion Hex'].
      cbn in Ha. congruence.
    + intros ->. apply Exists_cons_hd. reflexivity.
Qed.

Lemma auxiliary_loop_declared exprs x : forall d s d',
  auxiliary_loop exprs d = Ok (s, d') ->
  lookup_temp x d <> None \/ In x exprs ->
  lookup_temp x d' <> None.
Proof.
  induction exprs as [|exp exprs IH]; simpl; intros d s d' E Hor.
  - apply Ok_inj in E. injection E as <- <-. destruct Hor as [Hd|[]]. exact Hd.
  - destruct (lookup_temp exp d) as [t0|] eqn:El.
    + eapply IH; [exact E|]. destruct Hor as [Hd|[<-|Hin]]; auto.
      left. congruence.
    + step E st Hst. destruct st as [stmts t].
      step E md Hm. destruct md as [more d1]. apply Ok_inj in E. injection E as <- <-.
      eapply IH; [exact Hm|].
      destruct (expr_eq_dec x exp) as [->|Hne].
      * left. rewrite dict_set_lookup. discriminate.
      * rewrite dict_set_lookup_ne by exact Hne.
        destruct Hor as [Hd|[Heq|Hin]]; [left; exact Hd | congruence | right; exact Hin].
Qed.

Lemma auxiliary_loop_sites_declared exprs x : forall d s d',
  auxiliary_loop exprs d = Ok (s, d') ->
  lookup_temp x d <> None ->
  total_sites x s = 0.
Proof.
  induction exprs as [|exp exprs IH]; simpl; intros d s d' E Hd.
  - apply Ok_inj in E. injection E as <- <-. reflexivity.
  - destruct (lookup_temp exp d) as [t0|] eqn:El; [eapply IH; eassumption|].
    step E st Hst. destruct st as [stmts t].
    step E md Hm. destruct md as [more d1]. apply Ok_inj in E. injection E as <- <-.
    assert (Hne : x <> exp) by congruence.
    destruct (auxiliary_statement_sites _ _ _ _ Hst El) as (_ & Hother & _).
    rewrite total_sites_app.
    rewrite (IH _ _ _ Hm) by (rewrite dict_set_lookup_ne by exact Hne; exact Hd).
    destruct (Nat.eq_dec (total_sites x stmts) 0) as [->|Hnz]; [reflexivity|].
    destruct (Hother x Hne ltac:(lia)) as [_ Hl]. contradiction.
Qed.

Lemma auxiliary_loop_sites exprs x : forall d s d',
  auxiliary_loop exprs d = Ok (s, d') ->
  operands_first exprs ->
  lookup_temp x d = None ->
  In x exprs ->
  total_sites x s = 1.
Proof.
  induction exprs as [|exp exprs IH]; simpl; intros d s d' E Hord Hd Hin; [contradiction|].
  inversion Hord as [|? ? Hhead Htail]; subst.
  destruct (lookup_temp exp d) as [t0|] eqn:El.
  - destruct Hin as [->|Hin]; [congruence|]. eapply IH; eassumption.
  - step E st Hst. destruct st as [stmts t].
    step E md Hm. destruct md as [more d1]. apply Ok_inj in E. injection E as <- <-.
    destruct (auxiliary_statement_sites _ _ _ _ Hst El) as (Hown & Hother & _).
    rewrite total_sites_app.
    destruct (expr_eq_dec x exp) as [->|Hne].
    + rewrite Hown.
      rewrite (auxiliary_loop_sites_declared _ _ _ _ _ Hm); [reflexivity|].
      rewrite dict_set_lookup. discriminate.
    + destruct Hin as [Heq|Hin]; [congruence|].
      assert (Hz : total_sites x stmts = 0).
      { destruct (Nat.eq_dec (total_sites x stmts) 0) as [Hz|Hnz]; [exact Hz|].
        destruct (Hother x Hne ltac:(lia)) as [Hs _].
        rewrite List.Forall_forall in Hhead. exfalso. exact (Hhead x Hin Hs). }
      rewrite Hz. simpl. eapply IH; try eassumption.
      rewrite dict_set_lookup_ne by exact Hne. exact Hd.
Qed.

Lemma auxiliary_loop_assigns exprs x : forall d s d',
  auxiliary_loop exprs d = Ok (s, d') ->
  (Exists (assigns x) s <-> In x exprs /\ lookup_temp x d = None).
Proof.
  induction exprs as [|exp exprs IH]; simpl; intros d s d' E.
  - apply Ok_inj in E. injection E as <- <-. split; [intros Hex; inversion Hex | tauto].
  - destruct (lookup_temp exp d) as [t0|] eqn:El.
    + rewrite (IH _ _ _ E). split; [tauto|]. intros [[->|Hin] Hd]; [congruence | tauto].
    + step E st Hst. destruct st as [stmts t].
      step E md Hm. destruct md as [more d1]. apply Ok_inj in E. injection E as <- <-.
      destruct (auxiliary_statement_sites _ _ _ _ Hst El) as (_ & _ & Hassign).
      rewrite Exists_app, Hassign, (IH _ _ _ Hm).
      destruct (expr_eq_dec x exp) as [->|Hne].
      * split; [intros _; split; [left; reflexivity | exact El] | intros _; left; reflexivity].
      * rewrite dict_set_lookup_ne by exact Hne. split.
        -- intros [Heq|[Hin Hd]]; [contradiction | split; [right; exact Hin | exact Hd]].
        -- intros [[Heq|Hin] Hd]; [congruence | right; split; assumption].
Qed.

Lemma operands_first_filter (f : expr -> bool) l :
  operands_first l -> operands_first (List.filter f l).
Proof.
  unfold operands_first. induction 1 as [|y l Hy Hl IH]; simpl; [constructor|].
  destruct (f y); [|exact IH].
  constructor; [|exact IH].
  rewrite List.Forall_forall in Hy |- *. intros z Hz. apply Hy.
  apply List.filter_In in Hz. tauto.
Qed.

Lemma terminal_kind_holds : holds_of_terminals terminal_kind.
Proof. intros x Hx. exact Hx. Qed.

Section Sharing.
Context `{Collaborators}.

Lemma needs_auxiliary_spec builder x :
  needs_auxiliary builder x = true <->
  is_Factorization x = true
  \/ (1 < ref_counter builder x /\ is_Tensor x = false /\ is_AssembledVector x = false
      /\ is_Transpose x = false /\ is_Negative x = false).
Proof.
  unfold needs_auxiliary, terminals.
  rewrite orb_true_iff, andb_true_iff, negb_true_iff, !orb_false_iff, Nat.ltb_lt.
  tauto.
Qed.

Lemma needs_auxiliary_not_terminal builder x :
  needs_auxiliary builder x = true -> terminal_kind x = false.
Proof.
  unfold needs_auxiliary, terminals, terminal_kind. intros Hn.
  destruct x; simpl in *; try reflexivity;
    rewrite ?andb_false_r in Hn; simpl in Hn; discriminate.
Qed.

(** C1: among the nodes of the expression DAG, the ones given an
    auxiliary temporary ([auxT] or a decomposition object) are the
    factorizations and the nodes referenced more than once that are
    neither a tensor, an assembled vector, a transpose nor a negative;
    each of these is evaluated at exactly one place of the whole kernel
    body, all its other uses going through its temporary. *)
Theorem auxiliary_temporaries e p k builder x
    (Hgen : generate_kernel e p = Ok k)
    (Hb : new_LocalKernelBuilder e p = Ok builder)
    (Hterm : Forall (fun kv => is_Tensor (fst kv) = true) (temps builder))
    (Hsort : forall y, In y (topological_sort (expression_dag builder))
                       <-> In y (expression_dag builder))
    (Horder : operands_first (topological_sort (expression_dag builder)))
    (Hx : In x (expression_dag builder)) :
  let shared :=
    1 < ref_counter builder x /\ is_Tensor x = false /\ is_AssembledVector x = false
    /\ is_Transpose x = false /\ is_Negative x = false in
  (Exists (assigns x) (kernel_body k) <-> is_Factorization x = true \/ shared)
  /\ (is_Factorization x = true \/ shared -> total_sites x (kernel_body k) = 1).
Proof.
  intros shared. subst shared. rewrite <- needs_auxiliary_spec.
  destruct (generate_kernel_ok _ _ _ Hgen)
    as (b & tm & d1 & scalls & co & d2 & au & d3 & ki & _ & Hb' & Ht & Hsc & Hco & Hau & Hk & Hki).
  rewrite Hb in Hb'. apply Ok_inj in Hb'. subst b.
  destruct (generate_kernel_ast_ok _ _ _ _ Hk) as (ty & c & Hc & Hcode).
  unfold kernel_body, macro_kernel_of. rewrite Hki, Hcode. cbn [ast.f_body].
  (* the statements outside the auxiliary expressions *)
  assert (Hcast : Forall no_node
            (opt (needs_cell_facets builder)
               (ast.FlatBlock (FacetCast f_dtype (cell_facet_sym builder) arg_cell_facets)))).
  { unfold opt. destruct (needs_cell_facets builder); repeat constructor;
      try reflexivity; intros []. }
  assert (Htm : Forall no_node tm).
  { unfold terminal_temporaries in Ht. step Ht dd Hdd. destruct dd as [decls d1'].
    apply Ok_inj in Ht. injection Ht as <- <-.
    destruct (terminal_loop_shape _ _ _ _ Hdd) as (Hpro & _).
    constructor; [apply prologue_no_node; reflexivity|].
    eapply List.Forall_impl; [|exact Hpro]. intros s Hs. apply prologue_no_node. exact Hs. }
  assert (Hscn : Forall no_node scalls) by (eapply tensor_assembly_calls_no_node; exact Hsc).
  assert (Hcon : Forall no_node co).
  { destruct (coefficient_vecs builder) as [|cv cvs] eqn:Ecv.
    - apply Ok_inj in Hco. injection Hco as <- <-. constructor.
    - unfold coefficient_temporaries in Hco. rewrite Ecv in Hco.
      step Hco r Hr. destruct r as [[ds ls] d2']. apply Ok_inj in Hco.
      injection Hco as <- <-.
      destruct (coefficient_loops_no_node _ _ _ _ _ _ Hr) as [Hds Hls].
      constructor; [apply prologue_no_node; reflexivity|].
      apply Forall_app. split; [exact Hds|].
      constructor; [apply prologue_no_node; reflexivity | exact Hls]. }
  (* the dictionary before the auxiliary expressions *)
  assert (Hd2 : keys_satisfy terminal_kind d2)
    by (eapply declared_before_auxiliary; [apply terminal_kind_holds | eassumption ..]).
  assert (Hfresh : needs_auxiliary builder x = true -> lookup_temp x d2 = None).
  { intros Hn. destruct (lookup_temp x d2) as [t|] eqn:El; [|reflexivity].
    pose proof (Hd2 _ _ (lookup_temp_In _ _ _ El)) as Hk2.
    rewrite (needs_auxiliary_not_terminal _ _ Hn) in Hk2. discriminate. }
  unfold auxiliary_expressions in Hau.
  assert (Hin : In x (sorted_exprs builder) <-> needs_auxiliary builder x = true).
  { unfold sorted_exprs. rewrite List.filter_In, Hsort. tauto. }
  split.
  - (* which nodes are given a temporary *)
    rewrite !Exists_app.
    split.
    + intros [Hex|[Hex|Hex]].
      * exfalso. exact (no_node_assigns _ _ Hcast Hex).
      * destruct Hex as [Hex|[Hex|[Hex|Hex]]].
        -- exfalso. exact (no_node_assigns _ _ Htm Hex).
        -- exfalso. exact (no_node_assigns _ _ Hscn Hex).
        -- exfalso. exact (no_node_assigns _ _ Hcon Hex).
        -- apply (auxiliary_loop_assigns _ x _ _ _ Hau) in Hex. apply Hin. tauto.
      * exfalso. repeat (inversion Hex as [? ? Ha|? ? Hex']; subst;
                         [destruct Ha | clear Hex; rename Hex' into Hex]).
        inversion Hex.
    + intros Hn. right. left. do 3 right.
      apply (auxiliary_loop_assigns _ x _ _ _ Hau). split; [apply Hin; exact Hn | auto].
  - (* where they are evaluated *)
    intros Hn. rewrite !total_sites_app.
    rewrite (no_node_sites _ _ Hcast), (no_node_sites _ _ Htm),
      (no_node_sites _ _ Hscn), (no_node_sites _ _ Hcon).
    rewrite (auxiliary_loop_sites _ x _ _ _ Hau
               (operands_first_filter _ _ Horder) (Hfresh Hn) (proj2 Hin Hn)).
    unfold total_sites. cbn [map sites text_sites cexp_sites sym].
    rewrite (sites_zero x _ _ _ _ Hc); [reflexivity|].
    left. eapply auxiliary_loop_declared; [exact Hau|]. right. apply Hin. exact Hn.
Qed.

End Sharing.

(** *** The stand-in for [topological_sort] *)

Lemma insert_by_size_In e l y : In y (insert_by_size e l) <-> y = e \/ In y l.
Proof.
  induction l as [|x r IH]; simpl.
  - split; [intros [<-|[]]; auto | intros [->|[]]; auto].
  - destruct (esize e <=? esize x); simpl; [|rewrite IH]; intuition congruence.
Qed.

Lemma sort_by_size_In l y : In y (sort_by_size l) <-> In y l.
Proof.
  induction l as [|x r IH]; simpl; [tauto|].
  rewrite insert_by_size_In, IH. intuition congruence.
Qed.

Lemma insert_by_size_sorted e l : by_size l -> by_size (insert_by_size e l).
Proof.
  unfold by_size. induction 1 as [|x r Hx Hr IH]; simpl.
  - repeat constructor.
  - destruct (esize e <=? esize x) eqn:E.
    + apply Nat.leb_le in E. constructor; [|constructor; assumption].
      constructor; [exact E|].
      rewrite List.Forall_forall in Hx |- *. intros z Hz. specialize (Hx z Hz). lia.
    + apply Nat.leb_gt in E. constructor; [|exact IH].
      rewrite List.Forall_forall in Hx |- *. intros z Hz.
      apply insert_by_size_In in Hz. destruct Hz as [->|Hz]; [lia | auto].
Qed.

Lemma sort_by_size_sorted l : by_size (sort_by_size l).
Proof.
  induction l as [|x r IH]; simpl; [constructor | apply insert_by_size_sorted; exact IH].
Qed.

Lemma sort_by_size_operands_first l : operands_first (sort_by_size l).
Proof.
  pose proof (sort_by_size_sorted l) as Hs. unfold by_size, operands_first in *.
  induction Hs as [|x r Hx Hr IH]; constructor; [|exact IH].
  eapply List.Forall_impl; [|exact Hx]. intros z Hz Hsub.
  apply strict_subexpr_size in Hsub. cbv beta in Hz. lia.
Qed.


Lemma block_lowering_witness :
  (subexpr demo_block (tree block_expr) /\
   slate_to_cpp demo_block [] None = Raise (NotImplementedError non_contiguous_msg) /\
   is_ok (@generate_kernel demo block_expr demo_params) = false)
  /\
  (subexpr contiguous_block (tree contiguous_block_expr) /\
   slate_to_cpp contiguous_block [(demo_big, "T2"%string)] None
   = Ok (CBlock contiguous_block (CSym "T2") 6 3 3 0) /\
   gencode_cpp (CBlock contiguous_block (CSym "T2") 6 3 3 0)
   = "(T2).block<6, 3>(3, 0)"%string).
Proof.
  assert (Hb : forall e builder,
             @new_LocalKernelBuilder demo e demo_params = Ok builder ->
             expression builder = e /\
             Forall (fun kv => is_Tensor (fst kv) = true) (temps builder)).
  { intros e builder E. apply Ok_inj in E. subst builder.
    split; [reflexivity|]. repeat constructor. }
  split.
  - assert (Hnode : subexpr demo_block (tree block_expr)) by (left; reflexivity).
    split; [exact Hnode|].
    exact (proj1 (@block_lowering demo demo_block_attrs demo_big [[0; 2]; [0]] [0; 2] [0]
                    [] None block_expr demo_params eq_refl eq_refl (Hb block_expr) Hnode)
                 eq_refl).
  - assert (Hnode : subexpr contiguous_block (tree contiguous_block_expr))
      by (left; reflexivity).
    split; [exact Hnode|]. split; [|reflexivity].
    refine (proj1 (proj2 (@block_lowering demo demo_block_attrs demo_big [[1; 2]; [0]]
                            [1; 2] [0] [(demo_big, "T2"%string)] None
                            contiguous_block_expr demo_params eq_refl eq_refl
                            (Hb contiguous_block_expr) Hnode)
                         eq_refl)
                  (CSym "T2") 6 1 3 0 eq_refl eq_refl eq_refl _ _).
    + discriminate.
    + cbn. split; [reflexivity|]. split; [discriminate|]. exists 0. split; reflexivity.
Defined.

Example block_example :
  option_map gencode_cpp
    (match slate_to_cpp (Block demo_block_attrs demo_big [[1; 2]; [0]]) [(demo_big, "T2"%string)] None with
     | Ok c => Some c
     | Raise _ => None
     end)
  = Some "(T2).block<6, 3>(3, 0)"%string.
Proof. reflexivity. Qed.

Lemma temporaries_written_before_read_witness :
  @generate_kernel demo demo_expr demo_params = Ok demo_kernel
  /\ (exists prologue subkernel_calls rest,
        kernel_body demo_kernel = prologue ++ subkernel_calls ++ rest /\
        tensor_assembly_calls demo_builder = Ok subkernel_calls /\
        Forall (fun s => is_prologue s = true) prologue /\
        (forall exp t, In (exp, t) (temps demo_builder) ->
           exists ty l1 l2,
             prologue
             = l1 ++ ast.Decl (plain_decl ty t) :: ast.FlatBlock (SetZero t) :: l2) /\
        Forall (fun s => is_zero_fill s = false) (subkernel_calls ++ rest))
  /\ reads_after_writes (kernel_arg_names demo_kernel) (kernel_body demo_kernel).
Proof.
  assert (Hgen : @generate_kernel demo demo_expr demo_params = Ok demo_kernel)
    by (vm_compute; reflexivity).
  split; [exact Hgen|].
  refine (@temporaries_written_before_read demo demo_expr demo_params demo_kernel
            demo_builder Hgen eq_refl _ _).
  - intros c Hc. simpl in Hc.
    repeat (destruct Hc as [<-|Hc]; [simpl; tauto|]). destruct Hc.
  - intros ci f Hci Hf. simpl in Hci. destruct Hci as [<-|[]].
    simpl in Hf. apply Ok_inj in Hf. subst f. left. reflexivity.
Defined.

Lemma temporaries_zero_fill_counterexample :
  @generate_kernel demo demo_expr demo_params = Ok demo_kernel
  /\ (exists stmts, terminal_temporaries demo_builder [] = Ok (stmts, demo_terminals))
  /\ (exists stmts,
        coefficient_temporaries demo_builder demo_terminals = Ok (stmts, demo_declared))
  /\ In (demo_v, "VecTemp0"%string) demo_declared
  /\ is_AssembledVector demo_v = true
  /\ nth_error (kernel_body demo_kernel) 7
     = Some (ast.FunCall (mk_call "cell_integral" "T0" ["coords"%string]))
  /\ nth_error (kernel_body demo_kernel) 13
     = Some (ast.Decl (plain_decl "Eigen::Matrix<double, 3, 1>" "VecTemp0"))
  /\ ~ In (ast.FlatBlock (SetZero "VecTemp0")) (kernel_body demo_kernel)
  /\ ~ spec_terminals_zero_filled demo_declared (kernel_body demo_kernel).
Proof.
  assert (Hno : ~ In (ast.FlatBlock (SetZero "VecTemp0")) (kernel_body demo_kernel)).
  { intros Hin. vm_compute in Hin.
    repeat (destruct Hin as [Hin|Hin]; [discriminate Hin|]). exact Hin. }
  split; [vm_compute; reflexivity|].
  split; [eexists; vm_compute; reflexivity|].
  split; [eexists; vm_compute; reflexivity|].
  split; [right; right; left; reflexivity|].
  split; [reflexivity|].
  split; [vm_compute; reflexivity|].
  split; [vm_compute; reflexivity|].
  split; [exact Hno|].
  intros Hspec.
  destruct (Hspec demo_v "VecTemp0"%string) as (ty & l1 & l2 & Hbody & _).
  - right. right. left. reflexivity.
  - reflexivity.
  - apply Hno. rewrite Hbody. apply in_or_app. right. right. left. reflexivity.
Qed.

Lemma auxiliary_temporaries_witness :
  @generate_kernel demo demo_expr demo_params = Ok demo_kernel /\
  In demo_S (expression_dag demo_builder) /\
  Exists (assigns demo_S) (kernel_body demo_kernel) /\
  total_sites demo_S (kernel_body demo_kernel) = 1.
Proof.
  assert (Hgen : @generate_kernel demo demo_expr demo_params = Ok demo_kernel)
    by (vm_compute; reflexivity).
  assert (Hx : In demo_S (expression_dag demo_builder))
    by (simpl; tauto).
  split; [exact Hgen|]. split; [exact Hx|].
  assert (Hterm : Forall (fun kv => is_Tensor (fst kv) = true) (temps demo_builder))
    by (repeat constructor).
  destruct (@auxiliary_temporaries demo demo_expr demo_params demo_kernel demo_builder demo_S
              Hgen eq_refl Hterm
              (sort_by_size_In (expression_dag demo_builder))
              (sort_by_size_operands_first (expression_dag demo_builder)) Hx)
    as [Hiff Hone].
  assert (Hshared : is_Factorization demo_S = true
            \/ (1 < ref_counter demo_builder demo_S /\ is_Tensor demo_S = false
                /\ is_AssembledVector demo_S = false /\ is_Transpose demo_S = false
                /\ is_Negative demo_S = false)).
  { right. split; [vm_compute; lia|]. repeat split. }
  split; [apply Hiff; exact Hshared | apply Hone; exact Hshared].
Defined.

(** * Further properties of the compiler *)

(** ** The translation to Eigen text *)

Lemma is_ok_bind {A B : Type} (c : result A) (k : A -> result B) :
  is_ok (bind c k) = true <-> exists a, c = Ok a /\ is_ok (k a) = true.
Proof.
  destruct c as [a|x]; simpl.
  - split; [intros Hk; exists a; auto | intros (a' & E & Hk); apply Ok_inj in E; subst; exact Hk].
  - split; [discriminate | intros (a' & E & _); discriminate].
Qed.

Lemma is_ok_Ok {A : Type} (c : result A) : is_ok c = true -> exists a, c = Ok a.
Proof. destruct c as [a|x]; [eauto | discriminate]. Qed.

Lemma subexpr_operand t o e : In o (operands e) -> subexpr t o -> subexpr t e.
Proof.
  intros Ho Ht. destruct e; simpl in Ho |- *; try contradiction; right;
    repeat (destruct Ho as [<-|Ho]; [tauto|]); contradiction.
Qed.

Lemma placed_parenthesize c s ctx :
  loose_prec c = prec (attrs_of s) ->
  (no_weaker ctx s -> placed ctx c) ->
  placed None c ->
  placed ctx (parenthesize c (prec (attrs_of s)) ctx).
Proof.
  intros Hl Hin Hnone. unfold parenthesize.
  destruct (prec (attrs_of s)) as [q|] eqn:Eq.
  - destruct ctx as [p|]; [|exact Hnone].
    destruct (p <=? q) eqn:Epq.
    + apply Hin. intros p' q' Hp Hq. rewrite Eq in Hq.
      injection Hp as <-. injection Hq as <-. apply Nat.leb_le. exact Epq.
    + simpl. split; [|exact Hnone]. exists p, q.
      apply Nat.leb_gt in Epq. auto.
  - destruct ctx; apply Hin; intros p' q' _ Hq; rewrite Eq in Hq; discriminate.
Qed.

(** X1: in the text [slate_to_cpp] returns, parentheses stand exactly
    around the operators (negation, sum, product, block, solve) whose
    precedence is lower than that of the operator they are an operand
    of; an operand of [.transpose()] or [.inverse()] and the text as a
    whole (no [prec] given) are never wrapped. *)
Theorem parentheses_follow_precedence e : forall d prec_ c,
  slate_to_cpp e d prec_ = Ok c -> placed prec_ c.
Proof.
  induction e; intros d prec_ c E; rewrite slate_to_cpp_eq in E;
    (destruct (lookup_temp _ d) as [t|] eqn:El;
     [apply Ok_inj in E; subst c; exact I |]); try discriminate E.
  - step E c1 H1. apply Ok_inj in E. subst c. simpl. eapply IHe; exact H1.
  - step E c1 H1. apply Ok_inj in E. subst c. simpl. eapply IHe; exact H1.
  - step E c1 H1. apply Ok_inj in E. subst c.
    pose proof (IHe _ _ _ H1) as P1.
    apply (placed_parenthesize _ (Negative a e)); [reflexivity | |];
      simpl; [intros Hw; split; [exact Hw | exact P1] | split; [|exact P1]];
      intros p q Hp; discriminate.
  - step E c1 H1. step E c2 H2. apply Ok_inj in E. subst c.
    pose proof (IHe1 _ _ _ H1) as P1. pose proof (IHe2 _ _ _ H2) as P2.
    apply (placed_parenthesize _ (Add a e1 e2)); [reflexivity | |];
      simpl; [intros Hw; split; [exact Hw | split; [exact P1 | exact P2]]
             | split; [|split; [exact P1 | exact P2]]];
      intros p q Hp; discriminate.
  - step E c1 H1. step E c2 H2. apply Ok_inj in E. subst c.
    pose proof (IHe1 _ _ _ H1) as P1. pose proof (IHe2 _ _ _ H2) as P2.
    apply (placed_parenthesize _ (Mul a e1 e2)); [reflexivity | |];
      simpl; [intros Hw; split; [exact Hw | split; [exact P1 | exact P2]]
             | split; [|split; [exact P1 | exact P2]]];
      intros p q Hp; discriminate.
  - step E rc Hrc. destruct rc as [rids cids].
    destruct (negb (contiguous rids && contiguous cids)); [discriminate|].
    step E rshape Hrs. step E rstart Hst. step E cc Hcc.
    destruct cc as [cshape cstart]. step E c1 H1. apply Ok_inj in E. subst c.
    pose proof (IHe _ _ _ H1) as P1.
    apply (placed_parenthesize _ (Block a e _indices)); [reflexivity | |];
      simpl; [intros Hw; split; [exact Hw | exact P1] | split; [|exact P1]];
      intros p q Hp; discriminate.
  - step E c1 H1. step E c2 H2. apply Ok_inj in E. subst c.
    pose proof (IHe1 _ _ _ H1) as P1. pose proof (IHe2 _ _ _ H2) as P2.
    apply (placed_parenthesize _ (Solve a e1 e2)); [reflexivity | |];
      simpl; [intros Hw; split; [exact Hw | split; [exact P1 | exact P2]]
             | split; [|split; [exact P1 | exact P2]]];
      intros p q Hp; discriminate.
Qed.

(** X2: every symbol of the text [slate_to_cpp] returns is the temporary
    of a node of the translated expression: the translation writes no
    name of its own and none of a node outside the expression. *)
Theorem symbols_are_declared_nodes e : forall d prec_ c n,
  slate_to_cpp e d prec_ = Ok c ->
  In n (cpp_names c) ->
  exists s, subexpr s e /\ lookup_temp s d = Some n.
Proof.
  assert (Hup : forall (x o : expr) d n, In o (operands x) ->
            (exists s, subexpr s o /\ lookup_temp s d = Some n) ->
            exists s, subexpr s x /\ lookup_temp s d = Some n).
  { intros x o d n Ho (s & Hs & Hl). exists s. split; [|exact Hl].
    eapply subexpr_operand; eassumption. }
  induction e; intros d prec_ c n E Hn; rewrite slate_to_cpp_eq in E;
    (destruct (lookup_temp _ d) as [t|] eqn:El;
     [apply Ok_inj in E; subst c; destruct Hn as [<-|[]];
      eexists; split; [apply subexpr_refl | exact El] |]); try discriminate E.
  - step E c1 H1. apply Ok_inj in E. subst c. simpl in Hn.
    eapply Hup; [left; reflexivity | eapply IHe; eassumption].
  - step E c1 H1. apply Ok_inj in E. subst c. simpl in Hn.
    eapply Hup; [left; reflexivity | eapply IHe; eassumption].
  - step E c1 H1. apply Ok_inj in E. subst c. rewrite parenthesize_names in Hn.
    simpl in Hn. eapply Hup; [left; reflexivity | eapply IHe; eassumption].
  - step E c1 H1. step E c2 H2. apply Ok_inj in E. subst c.
    rewrite parenthesize_names in Hn. simpl in Hn. apply in_app_iff in Hn.
    destruct Hn as [Hn|Hn].
    + eapply Hup; [left; reflexivity | eapply IHe1; eassumption].
    + eapply Hup; [right; left; reflexivity | eapply IHe2; eassumption].
  - step E c1 H1. step E c2 H2. apply Ok_inj in E. subst c.
    rewrite parenthesize_names in Hn. simpl in Hn. apply in_app_iff in Hn.
    destruct Hn as [Hn|Hn].
    + eapply Hup; [left; reflexivity | eapply IHe1; eassumption].
    + eapply Hup; [right; left; reflexivity | eapply IHe2; eassumption].
  - step E rc Hrc. destruct rc as [rids cids].
    destruct (negb (contiguous rids && contiguous cids)); [discriminate|].
    step E rshape Hrs. step E rstart Hst. step E cc Hcc.
    destruct cc as [cshape cstart]. step E c1 H1. apply Ok_inj in E. subst c.
    rewrite parenthesize_names in Hn. simpl in Hn.
    eapply Hup; [left; reflexivity | eapply IHe; eassumption].
  - step E c1 H1. step E c2 H2. apply Ok_inj in E. subst c.
    rewrite parenthesize_names in Hn. simpl in Hn. apply in_app_iff in Hn.
    destruct Hn as [Hn|Hn].
    + eapply Hup; [left; reflexivity | eapply IHe1; eassumption].
    + eapply Hup; [right; left; reflexivity | eapply IHe2; eassumption].
Qed.

(** X3: [slate_to_cpp] has no format for a tensor, an assembled vector or
    a factorization: when it returns, every such node of the expression
    lies inside (or is) a node that has a temporary. *)
Theorem terminals_must_be_declared e : forall d prec_ c s,
  slate_to_cpp e d prec_ = Ok c ->
  subexpr s e ->
  needs_declaration s = true ->
  exists t, subexpr s t /\ subexpr t e /\ lookup_temp t d <> None.
Proof.
  assert (Hup : forall (x o s : expr) d, In o (operands x) ->
            (exists t, subexpr s t /\ subexpr t o /\ lookup_temp t d <> None) ->
            exists t, subexpr s t /\ subexpr t x /\ lookup_temp t d <> None).
  { intros x o s d Ho (t & Hs & Ht & Hl). exists t. split; [exact Hs|].
    split; [|exact Hl]. eapply subexpr_operand; eassumption. }
  induction e; intros d prec_ c s E Hs Hk; rewrite slate_to_cpp_eq in E;
    (destruct (lookup_temp _ d) as [t|] eqn:El;
     [eexists; split; [exact Hs|]; split; [apply subexpr_refl | rewrite El; discriminate] |]);
    try discriminate E;
    (simpl in Hs; destruct Hs as [->|Hs]; [discriminate Hk|]).
  - step E c1 H1. eapply Hup; [left; reflexivity | eapply IHe; eassumption].
  - step E c1 H1. eapply Hup; [left; reflexivity | eapply IHe; eassumption].
  - step E c1 H1. eapply Hup; [left; reflexivity | eapply IHe; eassumption].
  - step E c1 H1. step E c2 H2. destruct Hs as [Hs|Hs].
    + eapply Hup; [left; reflexivity | eapply IHe1; eassumption].
    + eapply Hup; [right; left; reflexivity | eapply IHe2; eassumption].
  - step E c1 H1. step E c2 H2. destruct Hs as [Hs|Hs].
    + eapply Hup; [left; reflexivity | eapply IHe1; eassumption].
    + eapply Hup; [right; left; reflexivity | eapply IHe2; eassumption].
  - step E rc Hrc. destruct rc as [rids cids].
    destruct (negb (contiguous rids && contiguous cids)); [discriminate|].
    step E rshape Hrs. step E rstart Hst. step E cc Hcc.
    destruct cc as [cshape cstart]. step E c1 H1.
    eapply Hup; [left; reflexivity | eapply IHe; eassumption].
  - step E c1 H1. step E c2 H2. destruct Hs as [Hs|Hs].
    + eapply Hup; [left; reflexivity | eapply IHe1; eassumption].
    + eapply Hup; [right; left; reflexivity | eapply IHe2; eassumption].
Qed.

(** X4: declaring further temporaries never makes a translation fail,
    and neither does the precedence it is asked at: if [slate_to_cpp]
    returns for an expression, it returns for it with every dictionary
    that declares at least the same nodes, at every [prec]. *)
Theorem more_temporaries_keep_success e : forall d d' p q,
  declares_more d d' ->
  is_ok (slate_to_cpp e d p) = true ->
  is_ok (slate_to_cpp e d' q) = true.
Proof.
  induction e; intros d d' p q Hd Hok;
    rewrite slate_to_cpp_eq in Hok |- *;
    (destruct (lookup_temp _ d') as [t'|] eqn:El'; [reflexivity|]);
    (destruct (lookup_temp _ d) as [t|] eqn:El;
     [exfalso; apply (Hd _ ltac:(rewrite El; discriminate)); exact El' |]);
    try discriminate Hok.
  - apply is_ok_bind in Hok. destruct Hok as (c1 & H1 & _).
    destruct (is_ok_Ok _ (IHe d d' _ None Hd ltac:(rewrite H1; reflexivity))) as [c1' ->].
    reflexivity.
  - apply is_ok_bind in Hok. destruct Hok as (c1 & H1 & _).
    destruct (is_ok_Ok _ (IHe d d' _ None Hd ltac:(rewrite H1; reflexivity))) as [c1' ->].
    reflexivity.
  - apply is_ok_bind in Hok. destruct Hok as (c1 & H1 & _).
    destruct (is_ok_Ok _ (IHe d d' _ (prec a) Hd ltac:(rewrite H1; reflexivity))) as [c1' ->].
    reflexivity.
  - apply is_ok_bind in Hok. destruct Hok as (c1 & H1 & Hok).
    apply is_ok_bind in Hok. destruct Hok as (c2 & H2 & _).
    destruct (is_ok_Ok _ (IHe1 d d' _ (prec a) Hd ltac:(rewrite H1; reflexivity))) as [c1' ->].
    destruct (is_ok_Ok _ (IHe2 d d' _ (prec a) Hd ltac:(rewrite H2; reflexivity))) as [c2' ->].
    reflexivity.
  - apply is_ok_bind in Hok. destruct Hok as (c1 & H1 & Hok).
    apply is_ok_bind in Hok. destruct Hok as (c2 & H2 & _).
    destruct (is_ok_Ok _ (IHe1 d d' _ (prec a) Hd ltac:(rewrite H1; reflexivity))) as [c1' ->].
    destruct (is_ok_Ok _ (IHe2 d d' _ (prec a) Hd ltac:(rewrite H2; reflexivity))) as [c2' ->].
    reflexivity.
  - destruct (unpack_indices _indices) as [[rids cids]|x]; [cbn [bind] in *|discriminate].
    destruct (negb (contiguous rids && contiguous cids)); [discriminate|].
    destruct (index (shape a) 0) as [rshape|x]; [cbn [bind] in *|discriminate].
    destruct (block_start e 0 rids) as [rstart|x]; [cbn [bind] in *|discriminate].
    match type of Hok with
    | is_ok (bind ?cc _) = true => destruct cc as [[cshape cstart]|x]
    end; [cbn [bind] in *|discriminate].
    apply is_ok_bind in Hok. destruct Hok as (c1 & H1 & _).
    destruct (is_ok_Ok _ (IHe d d' _ (prec a) Hd ltac:(rewrite H1; reflexivity))) as [c1' ->].
    reflexivity.
  - apply is_ok_bind in Hok. destruct Hok as (c1 & H1 & Hok).
    apply is_ok_bind in Hok. destruct Hok as (c2 & H2 & _).
    destruct (is_ok_Ok _ (IHe1 d d' _ (prec a) Hd ltac:(rewrite H1; reflexivity))) as [c1' ->].
    destruct (is_ok_Ok _ (IHe2 d d' _ (prec a) Hd ltac:(rewrite H2; reflexivity))) as [c2' ->].
    reflexivity.
Qed.

(** *** Block indices *)

Lemma contiguous_seq a n : contiguous (seq a n) = true.
Proof.
  revert a. induction n as [|n IH]; intros a; [reflexivity|].
  destruct n as [|n]; [reflexivity|].
  change (seq a (S (S n))) with (a :: seq (S a) (S n)).
  change (seq (S a) (S n)) with (S a :: seq (S (S a)) n) at 1.
  cbn [contiguous]. rewrite Nat.add_1_r, Nat.eqb_refl. cbn [andb].
  exact (IH (S a)).
Qed.

(** X5: the contiguity test of [slate_to_cpp] accepts a tuple of indices
    exactly when it counts up by one from its first entry; the empty
    tuple and every one-entry tuple pass. *)
Theorem contiguous_iff_consecutive ids :
  contiguous ids = true <-> ids = seq (hd 0 ids) (length ids).
Proof.
  split.
  - induction ids as [|a ids IH]; [reflexivity|].
    destruct ids as [|b rest]; [reflexivity|].
    cbn [contiguous]. intros Hc. apply andb_prop in Hc. destruct Hc as [Hab Hc].
    apply Nat.eqb_eq in Hab. rewrite Nat.add_1_r in Hab. subst b. specialize (IH Hc).
    cbn [hd length] in IH |- *. cbn [seq]. f_equal. exact IH.
  - intros ->. apply contiguous_seq.
Qed.

(** X6: index tuples that cannot be lowered are not all reported as
    unsupported.  For a [Block] without a temporary, an [_indices] of no
    entry or of more than two raises [ValueError] from the unpacking; and
    an empty tuple of row indices passes the contiguity test and then
    raises [ValueError] from [min], when the block has a first extent and
    the operand has extents along its first axis. *)
Theorem block_index_errors a tensor indices d prec_
    (Hnew : lookup_temp (Block a tensor indices) d = None) :
  (length indices = 0 \/ 2 < length indices ->
   exists msg, slate_to_cpp (Block a tensor indices) d prec_ = Raise (ValueError msg))
  /\ (forall cids, indices = [[]; cids] -> contiguous cids = true -> shape a <> [] ->
      nth_error (shapes (attrs_of tensor)) 0 <> None ->
      exists msg, slate_to_cpp (Block a tensor indices) d prec_ = Raise (ValueError msg)).
Proof.
  rewrite slate_to_cpp_eq, Hnew. split.
  - intros Hlen. destruct indices as [|r [|c [|x rest]]]; simpl in Hlen;
      try (exfalso; lia); eexists; reflexivity.
  - intros cids -> Hc Hs Hsh. cbn [unpack_indices bind]. rewrite Hc. cbn [contiguous andb negb].
    destruct (shape a) as [|r rest] eqn:Es; [congruence|]. cbn [index nth_error bind].
    unfold block_start.
    destruct (nth_error (shapes (attrs_of tensor)) 0) as [exts|]; [|congruence].
    eexists. reflexivity.
Qed.

(** X7: a [Block] given row indices only is lowered with column start 0:
    the missing column index is taken to be 0. *)
Theorem row_only_block_starts_at_column_zero a tensor rids d prec_ c
    (Hnew : lookup_temp (Block a tensor [rids]) d = None)
    (Hc : slate_to_cpp (Block a tensor [rids]) d prec_ = Ok c) :
  exists operand rshape cshape rstart,
    c = parenthesize (CBlock (Block a tensor [rids]) operand rshape cshape rstart 0)
                     (prec a) prec_
    /\ (rank a <> 1 -> index (shape a) 1 = Ok cshape).
Proof.
  rewrite slate_to_cpp_eq, Hnew in Hc. cbn [unpack_indices bind] in Hc.
  destruct (negb (contiguous rids && contiguous [0])); [discriminate|].
  step Hc rshape Hrs. step Hc rstart Hst. step Hc cc Hcc.
  destruct cc as [cshape cstart]. step Hc operand Hop. apply Ok_inj in Hc. subst c.
  exists operand, rshape, cshape, rstart.
  destruct (rank a =? 1) eqn:Er.
  - apply Ok_inj in Hcc. injection Hcc as <- <-. split; [reflexivity|].
    apply Nat.eqb_eq in Er. intros Hne. contradiction.
  - step Hcc cs Hcs. step Hcc cst Hcst. apply Ok_inj in Hcc.
    injection Hcc as <- <-.
    unfold block_start in Hcst. step Hcst exts Hex. step Hcst cmin Hcm.
    cbn in Hcm. apply Ok_inj in Hcm. subst cmin. apply Ok_inj in Hcst. subst cst.
    cbn [firstn list_sum fold_right]. split; [reflexivity | intros _; exact Hcs].
Qed.

(** *** Tensors of rank above two *)

Lemma eigen_matrixbase_type_rank s :
  (2 < length s ->
   eigen_matrixbase_type s = Raise (NotImplementedError (rank_msg (length s))))
  /\ (forall x, eigen_matrixbase_type s = Raise x ->
               x = NotImplementedError (rank_msg (length s))).
Proof.
  split.
  - intros Hl. destruct s as [|r [|c [|x rest]]]; simpl in Hl; try lia. reflexivity.
  - intros x E. destruct s as [|r [|c [|y rest]]]; cbn in E; try discriminate E.
    injection E as <-. reflexivity.
Qed.

Lemma terminal_temporaries_loop_rank items : forall d,
  Exists (fun kv => 2 < length (shape (attrs_of (fst kv)))) items ->
  exists n, terminal_temporaries_loop items d = Raise (NotImplementedError (rank_msg n)).
Proof.
  induction items as [|[exp t] items IH]; intros d Hex; [inversion Hex|].
  cbn [terminal_temporaries_loop].
  destruct (eigen_matrixbase_type (shape (attrs_of exp))) as [ty|x] eqn:Ety.
  - cbn [bind]. inversion Hex as [? ? Hhd|? ? Htl]; subst.
    + simpl in Hhd. rewrite (proj1 (eigen_matrixbase_type_rank _) Hhd) in Ety. discriminate.
    + destruct (IH (dict_set exp t d) Htl) as [n Hn]. exists n. rewrite Hn. reflexivity.
  - cbn [bind]. rewrite (proj2 (eigen_matrixbase_type_rank _) _ Ety). eexists. reflexivity.
Qed.

Section RankProperties.
Context `{Collaborators}.

(** X8: a tensor temporary of rank above two stops [generate_kernel]: if
    a key of [builder.temps] has a shape of more than two extents, the
    call raises the [NotImplementedError] of [eigen_matrixbase_type]
    while the terminal temporaries are declared, before any assembly call
    is looked at. *)
Theorem high_rank_temporary_aborts e p builder
    (Hmixed : is_mixed e = false)
    (Hdom : length (ufl_domains e) <= 1)
    (Hb : new_LocalKernelBuilder e p = Ok builder)
    (Hrank : Exists (fun kv => 2 < length (shape (attrs_of (fst kv)))) (temps builder)) :
  exists msg,
    terminal_temporaries builder [] = Raise (NotImplementedError msg)
    /\ generate_kernel e p = Raise (NotImplementedError msg).
Proof.
  destruct (terminal_temporaries_loop_rank _ [] Hrank) as [n Hn].
  exists (rank_msg n).
  assert (Ht : terminal_temporaries builder []
               = Raise (NotImplementedError (rank_msg n))).
  { unfold terminal_temporaries. rewrite Hn. reflexivity. }
  split; [exact Ht|].
  unfold generate_kernel. rewrite Hmixed.
  apply Nat.ltb_ge in Hdom. rewrite Hdom, Hb. cbn [bind]. rewrite Ht. reflexivity.
Qed.

End RankProperties.

(** ** The dictionary of declared temporaries *)

Lemma dict_set_fresh e t d : lookup_temp e d = None -> dict_set e t d = d ++ [(e, t)].
Proof.
  induction d as [|[k v] d IH]; simpl; [reflexivity|].
  destruct (expr_eq_dec e k); [discriminate|]. intros E. rewrite (IH E). reflexivity.
Qed.

Lemma lookup_temp_app e d1 d2 :
  lookup_temp e (d1 ++ d2)
  = match lookup_temp e d1 with Some t => Some t | None => lookup_temp e d2 end.
Proof.
  induction d1 as [|[k v] d1 IH]; simpl; [reflexivity|].
  destruct (expr_eq_dec e k); [reflexivity | exact IH].
Qed.

Lemma lookup_temp_absent e d : ~ In e (map fst d) -> lookup_temp e d = None.
Proof.
  induction d as [|[k v] d IH]; simpl; [reflexivity|]. intros Hn.
  destruct (expr_eq_dec e k) as [->|Hne]; [exfalso; apply Hn; left; reflexivity|].
  apply IH. intros Hin. apply Hn. right. exact Hin.
Qed.

Lemma lookup_temp_keys e d : lookup_temp e d = None -> ~ In e (map fst d).
Proof.
  intros El Hin. apply in_map_iff in Hin. destruct Hin as ([k v] & <- & Hin).
  exact (lookup_temp_None _ _ El _ Hin).
Qed.

Lemma declares_more_app d new : declares_more d (d ++ new).
Proof.
  intros k Hk. rewrite lookup_temp_app. destruct (lookup_temp k d); [discriminate | contradiction].
Qed.

(** *** Terminal temporaries *)

Lemma terminal_temporaries_loop_total items : forall d,
  List.NoDup (map fst items) ->
  (forall k, In k (map fst items) -> lookup_temp k d = None) ->
  Forall (fun kv => length (shape (attrs_of (fst kv))) <= 2) items ->
  exists s, terminal_temporaries_loop items d = Ok (s, d ++ items)
            /\ length s = 2 * length items
            /\ declared_names s = map snd items.
Proof.
  induction items as [|[exp t] items IH]; intros d Hnd Hfresh Hrank.
  - exists []. rewrite app_nil_r. repeat split.
  - cbn [terminal_temporaries_loop].
    inversion Hnd as [|? ? Hnot Hnd']; subst.
    inversion Hrank as [|? ? Hr Hrank']; subst. cbn [fst] in Hr.
    destruct (eigen_matrixbase_type (shape (attrs_of exp))) as [ty|x] eqn:Ety.
    2:{ exfalso. destruct (shape (attrs_of exp)) as [|r [|c [|y rest]]];
          cbn in Ety; try discriminate Ety. simpl in Hr. lia. }
    cbn [bind].
    rewrite (dict_set_fresh exp t d) by (apply Hfresh; left; reflexivity).
    destruct (IH (d ++ [(exp, t)]) Hnd') as (s & Hs & Hlen & Hnames).
    + intros k Hk. rewrite lookup_temp_app, (Hfresh k) by (right; exact Hk).
      simpl. destruct (expr_eq_dec k exp) as [->|Hne]; [contradiction | reflexivity].
    + exact Hrank'.
    + rewrite Hs. cbn [bind]. rewrite <- app_assoc. eexists. split; [reflexivity|].
      split; [simpl; lia | simpl; f_equal; exact Hnames].
Qed.

Lemma terminal_temporaries_loop_stmts items : forall d s d',
  terminal_temporaries_loop items d = Ok (s, d') ->
  exists tys,
    Forall2 (fun (kv : expr * string) ty =>
               eigen_matrixbase_type (shape (attrs_of (fst kv))) = Ok ty) items tys
    /\ s = flat_map (fun kt : expr * string * string =>
                       [ast.Decl (plain_decl (snd kt) (snd (fst kt)));
                        ast.FlatBlock (SetZero (snd (fst kt)))])
                    (combine items tys).
Proof.
  induction items as [|[exp t] items IH]; intros d s d' E; cbn [terminal_temporaries_loop] in E.
  - apply Ok_inj in E. injection E as <- <-. exists []. split; [constructor | reflexivity].
  - step E ty Hty. step E md Hmd. destruct md as [more d1].
    apply Ok_inj in E. injection E as <- <-.
    destruct (IH _ _ _ Hmd) as (tys & Htys & ->).
    exists (ty :: tys). split; [constructor; [exact Hty | exact Htys] | reflexivity].
Qed.

(** X9: started on the empty dictionary, as [generate_kernel] does,
    [terminal_temporaries] returns whenever no key of the dictionary
    [builder.temps] (whose keys are distinct) has more than two extents;
    the dictionary it leaves is
    [builder.temps] itself, entry for entry and in the same order, and
    the statements are the opening comment followed by one declaration
    and one [setZero] per entry: for each entry in turn, the declaration
    of its temporary with the Eigen type of the shape of its key, then
    the [setZero] of that temporary. *)
Theorem terminal_temporaries_declares_temps builder
    (Hkeys : List.NoDup (map fst (temps builder)))
    (Hrank : Forall (fun kv => length (shape (attrs_of (fst kv))) <= 2) (temps builder)) :
  exists stmts tys,
    terminal_temporaries builder [] = Ok (stmts, temps builder)
    /\ length stmts = 1 + 2 * length (temps builder)
    /\ declared_names stmts = map snd (temps builder)
    /\ Forall2 (fun (kv : expr * string) ty =>
                  eigen_matrixbase_type (shape (attrs_of (fst kv))) = Ok ty)
               (temps builder) tys
    /\ stmts
       = ast.FlatBlock (Comment "/* Declare and initialize */")
         :: flat_map (fun kt : expr * string * string =>
                        [ast.Decl (plain_decl (snd kt) (snd (fst kt)));
                         ast.FlatBlock (SetZero (snd (fst kt)))])
                     (combine (temps builder) tys).
Proof.
  destruct (terminal_temporaries_loop_total (temps builder) [] Hkeys
              ltac:(intros; reflexivity) Hrank) as (s & Hs & Hlen & Hnames).
  destruct (terminal_temporaries_loop_stmts _ _ _ _ Hs) as (tys & Htys & Hstmts).
  unfold terminal_temporaries. rewrite Hs. cbn [bind app].
  eexists. exists tys. split; [reflexivity|]. split; [simpl; lia|].
  split; [exact Hnames|]. split; [exact Htys|]. rewrite Hstmts. reflexivity.
Qed.

(** *** Auxiliary temporaries *)

Lemma fmt_d_inj n m : fmt_d n = fmt_d m -> n = m.
Proof.
  unfold fmt_d. intros E. apply Unsigned.to_uint_inj.
  pose proof (NilEmpty.usu (Nat.to_uint n)) as Hn.
  pose proof (NilEmpty.usu (Nat.to_uint m)) as Hm.
  rewrite E in Hn. rewrite Hn in Hm. injection Hm as Hm. exact Hm.
Qed.

Lemma auxiliary_name_inj x y n m : auxiliary_name x n = auxiliary_name y m -> n = m.
Proof.
  unfold auxiliary_name.
  destruct (is_Factorization x), (is_Factorization y);
    cbv [String.append]; intros E; try discriminate E; apply fmt_d_inj; congruence.
Qed.

Lemma auxiliary_name_not_result x n m :
  auxiliary_name x n <> ("T" ++ fmt_d m)%string
  /\ auxiliary_name x n <> ("A" ++ fmt_d m)%string.
Proof.
  unfold auxiliary_name. destruct (is_Factorization x); cbv [String.append];
    split; discriminate.
Qed.

Lemma auxiliary_statement_name exp d s t :
  auxiliary_statement exp d = Ok (s, t) -> t = auxiliary_name exp (length d).
Proof.
  unfold auxiliary_statement, auxiliary_name. intros E.
  destruct exp; simpl;
    step E c Hc; step E ty Hty; apply Ok_inj in E; injection E as _ <-; reflexivity.
Qed.

Lemma auxiliary_loop_grows exprs : forall d s d',
  auxiliary_loop exprs d = Ok (s, d') ->
  exists new,
    d' = d ++ new
    /\ (forall i x t, nth_error new i = Some (x, t) ->
          t = auxiliary_name x (length d + i)
          /\ In x exprs /\ lookup_temp x d = None)
    /\ List.NoDup (map fst new).
Proof.
  induction exprs as [|exp exprs IH]; intros d s d' E; cbn [auxiliary_loop] in E.
  - apply Ok_inj in E. injection E as <- <-. exists []. rewrite app_nil_r.
    split; [reflexivity|]. split; [intros [|i] x t Hn; discriminate | constructor].
  - destruct (lookup_temp exp d) as [t0|] eqn:El.
    + destruct (IH _ _ _ E) as (new & Hd & Hnames & Hnd). exists new.
      split; [exact Hd|]. split; [|exact Hnd].
      intros i x t Hn. destruct (Hnames i x t Hn) as (Ht & Hin & Hl).
      split; [exact Ht|]. split; [right; exact Hin | exact Hl].
    + step E st Hst. destruct st as [stmts t]. step E md Hmd. destruct md as [more d2].
      apply Ok_inj in E. injection E as <- <-.
      rewrite (dict_set_fresh _ _ _ El) in Hmd.
      destruct (IH _ _ _ Hmd) as (new & Hd & Hnames & Hnd).
      exists ((exp, t) :: new). split; [rewrite Hd, <- app_assoc; reflexivity|].
      split.
      * intros [|i] x t' Hn.
        -- injection Hn as <- <-. rewrite Nat.add_0_r.
           split; [eapply auxiliary_statement_name; exact Hst|].
           split; [left; reflexivity | exact El].
        -- destruct (Hnames i x t' Hn) as (Ht & Hin & Hl).
           rewrite length_app in Ht. simpl in Ht.
           replace (length d + S i) with (length d + 1 + i) by lia.
           split; [exact Ht|]. split; [right; exact Hin|].
           rewrite lookup_temp_app in Hl. destruct (lookup_temp x d); [discriminate|reflexivity].
      * cbn [map fst]. constructor; [|exact Hnd].
        intros Hin. apply in_map_iff in Hin. destruct Hin as ([x t'] & Hx & Hin).
        simpl in Hx. subst x. apply In_nth_error in Hin. destruct Hin as [i Hi].
        destruct (Hnames i exp t' Hi) as (_ & _ & Hl).
        rewrite lookup_temp_app, El in Hl. simpl in Hl.
        destruct (expr_eq_dec exp exp); [discriminate | congruence].
Qed.

Section Naming.
Context `{Collaborators}.

(** X10: [auxiliary_expressions] only appends to the dictionary: the
    entries it finds keep their place and their symbol.  The entry it
    appends at position [i] is named [auxT<i>], or [dec<i>] for a
    factorization, so no two of its temporaries share a name, and none
    is named like the result symbols [T<n>] and [A<n>] of
    [generate_kernel_ast]. *)
Theorem auxiliary_names_are_fresh builder d stmts d'
    (Haux : auxiliary_expressions builder d = Ok (stmts, d')) :
  exists new,
    d' = d ++ new
    /\ (forall i x t, nth_error new i = Some (x, t) ->
          t = auxiliary_name x (length d + i) /\ lookup_temp x d = None)
    /\ List.NoDup (map fst new)
    /\ List.NoDup (map snd new)
    /\ (forall t n, In t (map snd new) ->
          t <> ("T" ++ fmt_d n)%string /\ t <> ("A" ++ fmt_d n)%string).
Proof.
  unfold auxiliary_expressions in Haux.
  destruct (auxiliary_loop_grows _ _ _ _ Haux) as (new & Hd & Hnames & Hnd).
  exists new. split; [exact Hd|]. split; [|split; [exact Hnd|split]].
  - intros i x t Hn. destruct (Hnames i x t Hn) as (Ht & _ & Hl). auto.
  - apply NoDup_nth_error. intros i j Hi E.
    rewrite length_map in Hi.
    destruct (nth_error new i) as [[x t]|] eqn:Ei;
      [|apply nth_error_None in Ei; lia].
    rewrite !nth_error_map, Ei in E. simpl in E.
    destruct (nth_error new j) as [[y u]|] eqn:Ej; [|discriminate].
    simpl in E. injection E as E.
    destruct (Hnames _ _ _ Ei) as (Ht & _). destruct (Hnames _ _ _ Ej) as (Hu & _).
    rewrite Ht, Hu in E. apply auxiliary_name_inj in E. lia.
  - intros t n Ht. apply in_map_iff in Ht. destruct Ht as ([x t'] & <- & Hin).
    apply In_nth_error in Hin. destruct Hin as [i Hi].
    destruct (Hnames _ _ _ Hi) as (-> & _). apply auxiliary_name_not_result.
Qed.

End Naming.

(** *** Coefficient temporaries *)

Lemma loops_of_app l1 l2 : loops_of (l1 ++ l2) = loops_of l1 ++ loops_of l2.
Proof. unfold loops_of. apply List.filter_app. Qed.

Lemma declared_names_app l1 l2 :
  declared_names (l1 ++ l2) = declared_names l1 ++ declared_names l2.
Proof. unfold declared_names. apply flat_map_app. Qed.

Lemma coefficient_assignments_grows builder l : forall d decls assigns_ d',
  coefficient_assignments builder l d = Ok (decls, assigns_, d') ->
  exists new ws,
    d' = d ++ new
    /\ declared_names decls = map snd new
    /\ loops_of decls = []
    /\ List.NoDup (map fst new)
    /\ (forall v t, In (v, t) new ->
          lookup_temp v d = None
          /\ exists ci, In ci l /\ v = vector ci /\ t = local_temp ci)
    /\ (forall ci, In ci l -> lookup_temp (vector ci) d' <> None)
    /\ result_map (source_symbol builder) l = Ok ws
    /\ ast.For (unsigned_counter j1) (ast.Less (sym j1) (ast.Lit 0))
               (ast.Incr (sym j1) (ast.Lit 1)) assigns_
       = coefficient_loop 0 (combine l ws).
Proof.
  induction l as [|ci l IH]; intros d decls assigns_ d' E; cbn [coefficient_assignments] in E.
  - apply Ok_inj in E. injection E as <- <- <-. exists [], []. rewrite app_nil_r.
    repeat split; try constructor; try reflexivity; intros; contradiction.
  - step E f Hf. step E dd Hdd. destruct dd as [declaration d1].
    step E w Hw. step E rest Hrest. destruct rest as [[declarations assignments] d2].
    apply Ok_inj in E. injection E as <- <- <-.
    destruct (IH _ _ _ _ Hrest) as (new & ws & Hd & Hdecls & Hlen & Hnd & Hnew & Hall & Hws & Hloop).
    assert (Hsrc : source_symbol builder ci = Ok w).
    { unfold source_symbol. rewrite Hf. cbn [bind]. exact Hw. }
    assert (Hloop' : ast.For (unsigned_counter j1) (ast.Less (sym j1) (ast.Lit 0))
                       (ast.Incr (sym j1) (ast.Lit 1))
                       (ast.Assign
                          (ast.Symbol (local_temp ci)
                             [ast.Sum (ast.Lit (Z.of_nat (offset_index ci))) (sym j1)])
                          (ast.Symbol w [sym j1]) :: assignments)
                     = coefficient_loop 0 (combine (ci :: l) (w :: ws))).
    { unfold coefficient_loop in Hloop |- *. injection Hloop as Hloop.
      cbn [combine map fst snd]. rewrite Hloop. reflexivity. }
    assert (Hws' : result_map (source_symbol builder) (ci :: l) = Ok (w :: ws)).
    { cbn [result_map]. rewrite Hsrc. cbn [bind]. rewrite Hws. reflexivity. }
    destruct (lookup_temp (vector ci) d) as [t0|] eqn:El.
    + apply Ok_inj in Hdd. injection Hdd as <- <-.
      exists new, (w :: ws). cbn [app].
      split; [exact Hd|]. split; [exact Hdecls|]. split; [exact Hlen|].
      split; [exact Hnd|]. split; [|split; [|split; [exact Hws' | exact Hloop']]].
      * intros v t Hin. destruct (Hnew v t Hin) as (Hl & ci' & Hci & Hv & Ht).
        split; [exact Hl|]. exists ci'. split; [right; exact Hci | auto].
      * intros ci' [<-|Hci]; [|apply Hall; exact Hci].
        rewrite Hd, lookup_temp_app, El. discriminate.
    + step Hdd c_type Hty. apply Ok_inj in Hdd. injection Hdd as <- <-.
      rewrite (dict_set_fresh _ _ _ El) in Hd, Hnew.
      exists ((vector ci, local_temp ci) :: new), (w :: ws).
      split; [rewrite Hd, <- app_assoc; reflexivity|].
      split; [cbn [app map snd]; rewrite <- Hdecls; reflexivity|].
      split; [exact Hlen|].
      split; [|split; [|split; [|split; [exact Hws' | exact Hloop']]]].
      * cbn [map fst]. constructor; [|exact Hnd].
        intros Hin. apply in_map_iff in Hin. destruct Hin as ([v t] & Hv & Hin).
        simpl in Hv. subst v. destruct (Hnew _ _ Hin) as (Hl & _).
        rewrite lookup_temp_app, El in Hl. simpl in Hl.
        destruct (expr_eq_dec (vector ci) (vector ci)); [discriminate | congruence].
      * intros v t [Heq|Hin].
        -- injection Heq as <- <-. split; [exact El|]. exists ci. split; [left|]; auto.
        -- destruct (Hnew _ _ Hin) as (Hl & ci' & Hci & Hv & Ht).
           rewrite lookup_temp_app in Hl.
           split; [destruct (lookup_temp v d); [discriminate | reflexivity]|].
           exists ci'. split; [right; exact Hci | auto].
      * intros ci' [<-|Hci]; [|apply Hall; exact Hci].
        rewrite Hd, !lookup_temp_app, El. simpl.
        destruct (expr_eq_dec (vector ci) (vector ci)); [discriminate | congruence].
Qed.

Lemma coefficient_loops_grows builder items : forall d decls loops d',
  coefficient_loops builder items d = Ok (decls, loops, d') ->
  exists new,
    d' = d ++ new
    /\ declared_names decls = map snd new
    /\ loops_of decls = []
    /\ List.NoDup (map fst new)
    /\ (forall v t, In (v, t) new ->
          lookup_temp v d = None
          /\ exists ci, In ci (flat_map snd items) /\ v = vector ci /\ t = local_temp ci)
    /\ (forall ci, In ci (flat_map snd items) -> lookup_temp (vector ci) d' <> None)
    /\ result_map
         (fun item : nat * list CoefficientInfo =>
            ws <~ result_map (source_symbol builder) (snd item) ;;
            Ok (coefficient_loop (fst item) (combine (snd item) ws)))
         items = Ok loops
    /\ loops_of loops = loops /\ declared_names loops = [].
Proof.
  induction items as [|[dofs cinfo_list] items IH]; intros d decls loops d' E;
    cbn [coefficient_loops] in E.
  - apply Ok_inj in E. injection E as <- <- <-. exists []. rewrite app_nil_r.
    repeat split; try constructor; intros; contradiction.
  - step E r1 H1. destruct r1 as [[declarations assignments] d1].
    step E r2 H2. destruct r2 as [[declarations' loops'] d2].
    apply Ok_inj in E. injection E as <- <- <-.
    destruct (coefficient_assignments_grows _ _ _ _ _ _ H1)
      as (new1 & ws & Hd1 & Hdn1 & Hlo1 & Hnd1 & Hnew1 & Hall1 & Hws & Hloop).
    destruct (IH _ _ _ _ H2)
      as (new2 & Hd2 & Hdn2 & Hlo2 & Hnd2 & Hnew2 & Hall2 & Hloops & Hfix & Hnone).
    exists (new1 ++ new2). subst d1.
    split; [rewrite Hd2, app_assoc; reflexivity|].
    split; [rewrite declared_names_app, map_app, Hdn1, Hdn2; reflexivity|].
    split; [rewrite loops_of_app, Hlo1, Hlo2; reflexivity|].
    split; [|split; [|split; [|split; [|split]]]].
    + rewrite map_app. apply List.NoDup_app; [exact Hnd1 | exact Hnd2 |].
      intros v Hv1 Hv2.
      apply in_map_iff in Hv2. destruct Hv2 as ([v' t] & Hv' & Hin). simpl in Hv'. subst v'.
      destruct (Hnew2 _ _ Hin) as (Hl & _). rewrite lookup_temp_app in Hl.
      destruct (lookup_temp v d); [discriminate|].
      apply lookup_temp_keys in Hl. contradiction.
    + cbn [flat_map snd]. intros v t Hin. apply in_app_iff in Hin. destruct Hin as [Hin|Hin].
      * destruct (Hnew1 _ _ Hin) as (Hl & ci & Hci & Hv & Ht).
        split; [exact Hl|]. exists ci. split; [apply in_app_iff; left; exact Hci | auto].
      * destruct (Hnew2 _ _ Hin) as (Hl & ci & Hci & Hv & Ht).
        rewrite lookup_temp_app in Hl.
        split; [destruct (lookup_temp v d); [discriminate | reflexivity]|].
        exists ci. split; [apply in_app_iff; right; exact Hci | auto].
    + cbn [flat_map snd]. intros ci Hci. apply in_app_iff in Hci. destruct Hci as [Hci|Hci].
      * rewrite Hd2, lookup_temp_app.
        destruct (lookup_temp (vector ci) (d ++ new1)) eqn:El; [discriminate|].
        exfalso. exact (Hall1 ci Hci El).
      * apply Hall2. exact Hci.
    + cbn [result_map fst snd]. rewrite Hws. cbn [bind]. rewrite Hloops. cbn [bind].
      unfold coefficient_loop in Hloop |- *. injection Hloop as Hloop.
      rewrite Hloop. reflexivity.
    + cbn [loops_of List.filter]. fold (loops_of loops'). rewrite Hfix. reflexivity.
    + exact Hnone.
Qed.

(** X11: the loops [coefficient_temporaries] writes do not depend on the
    dictionary it is given.  There is one loop per entry of
    [builder.coefficient_vecs], in order, running [j1] from 0 below the
    entry's key, and its body holds, for every component of the entry in
    order, the single assignment
    [local_temp[offset_index + j1] = coefficient(function)[space_index][j1]]. *)
Theorem coefficient_loops_are_flat builder d stmts d'
    (Hco : coefficient_temporaries builder d = Ok (stmts, d')) :
  expected_loops builder = Ok (loops_of stmts).
Proof.
  unfold coefficient_temporaries in Hco. step Hco r Hr.
  destruct r as [[declarations loops] d1]. apply Ok_inj in Hco. injection Hco as <- <-.
  destruct (coefficient_loops_grows _ _ _ _ _ _ Hr)
    as (new & _ & _ & Hlo & _ & _ & _ & Hloops & Hfix & _).
  unfold expected_loops. rewrite Hloops. f_equal.
  change (ast.FlatBlock (Comment "/* Coefficient temporaries */")
          :: declarations
             ++ ast.FlatBlock (Comment "/* Loops for coefficient temps */") :: loops)
    with ([ast.FlatBlock (Comment "/* Coefficient temporaries */")]
          ++ declarations
             ++ [ast.FlatBlock (Comment "/* Loops for coefficient temps */")] ++ loops).
  rewrite !loops_of_app, Hlo, Hfix. reflexivity.
Qed.

(** X12: [coefficient_temporaries] declares a temporary for every
    coefficient vector that has none yet, once, under the [local_temp] of
    the first component that carries the vector; a vector that is
    already declared gets no second declaration.  The dictionary is only
    appended to, and afterwards every coefficient vector is declared. *)
Theorem coefficient_vectors_declared_once builder d stmts d'
    (Hco : coefficient_temporaries builder d = Ok (stmts, d')) :
  exists new,
    d' = d ++ new
    /\ declared_names stmts = map snd new
    /\ List.NoDup (map fst new)
    /\ (forall v t, In (v, t) new ->
          lookup_temp v d = None
          /\ exists ci, In ci (flat_map snd (coefficient_vecs builder))
                        /\ v = vector ci /\ t = local_temp ci)
    /\ (forall ci, In ci (flat_map snd (coefficient_vecs builder)) ->
          lookup_temp (vector ci) d' <> None).
Proof.
  unfold coefficient_temporaries in Hco. step Hco r Hr.
  destruct r as [[declarations loops] d1]. apply Ok_inj in Hco. injection Hco as <- <-.
  destruct (coefficient_loops_grows _ _ _ _ _ _ Hr)
    as (new & Hd & Hdn & _ & Hnd & Hnew & Hall & _ & _ & Hnone).
  exists new. split; [exact Hd|]. split; [|split; [exact Hnd | split; [exact Hnew | exact Hall]]].
  change (ast.FlatBlock (Comment "/* Coefficient temporaries */")
          :: declarations
             ++ ast.FlatBlock (Comment "/* Loops for coefficient temps */") :: loops)
    with ([ast.FlatBlock (Comment "/* Coefficient temporaries */")]
          ++ declarations
             ++ [ast.FlatBlock (Comment "/* Loops for coefficient temps */")] ++ loops).
  rewrite !declared_names_app, Hdn, Hnone, app_nil_r. reflexivity.
Qed.

(** ** The calls a kernel makes *)

Lemma marker_eval_in ρ builder markers i row c v :
  arrays ρ = [(cell_facet_sym builder, markers)] ->
  nth_error markers i = Some row ->
  nth_error row c = Some v ->
  eval (set_scalar ρ (it_sym builder) (Z.of_nat i))
       (ast.Symbol (cell_facet_sym builder) [sym (it_sym builder); ast.Lit (Z.of_nat c)])
  = Some v.
Proof.
  intros Harr Hrow Hv. cbn [eval sym]. rewrite scalar_set.
  unfold array_at, set_scalar. cbn [arrays]. rewrite Harr. cbn [find fst snd].
  rewrite String.eqb_refl.
  replace ((Z.of_nat i <? 0) || (Z.of_nat c <? 0))%Z with false
    by (symmetry; apply orb_false_iff; split; apply Z.ltb_ge; lia).
  rewrite !Nat2Z.id. cbn [snd]. rewrite Hrow. exact Hv.
Qed.

Lemma exec_facet_for ρ builder markers :
  arrays ρ = [(cell_facet_sym builder, markers)] ->
  Forall (fun row => length row = 2) markers ->
  exec ρ (facet_for builder (length markers))
  = Some (flat_map (calls_for_facet builder) markers).
Proof.
  intros Harr Hrows. unfold facet_for. rewrite exec_For, Nat2Z.id.
  apply (iterate_rows _ (calls_for_facet builder) markers 0).
  intros i row Hrow. cbn [Nat.add].
  assert (Hlen : length row = 2).
  { rewrite List.Forall_forall in Hrows. apply Hrows. eapply nth_error_In. exact Hrow. }
  destruct row as [|kind [|sd [|? ?]]]; try discriminate Hlen.
  set (ρ' := set_scalar ρ (it_sym builder) (Z.of_nat i)).
  assert (Hkind : eval ρ' (ast.Symbol (cell_facet_sym builder)
                             [sym (it_sym builder); ast.Lit 0]) = Some kind)
    by (apply (marker_eval_in ρ builder markers i [kind; sd] 0 kind);
        [exact Harr | exact Hrow | reflexivity]).
  assert (Hsd : eval ρ' (ast.Symbol (cell_facet_sym builder)
                           [sym (it_sym builder); ast.Lit 1]) = Some sd)
    by (apply (marker_eval_in ρ builder markers i [kind; sd] 1 sd);
        [exact Harr | exact Hrow | reflexivity]).
  assert (Hcond : forall k,
             eval ρ' (ast.Eq (ast.Symbol (cell_facet_sym builder)
                                [sym (it_sym builder); ast.Lit 0]) (ast.Lit k))
             = Some (Z_of_bool (kind =? k)%Z)).
  { intros k. cbn [eval] in Hkind |- *. rewrite Hkind. reflexivity. }
  unfold calls_for_facet.
  apply exec_block_app.
  - apply exec_guarded; [apply Hcond|].
    rewrite app_assoc. apply exec_block_app;
      [apply exec_block_calls | apply exec_subdomain_stmts; exact Hsd].
  - apply exec_guarded; [apply Hcond|].
    rewrite app_assoc. apply exec_block_app;
      [apply exec_block_calls | apply exec_subdomain_stmts; exact Hsd].
Qed.

(** X13: run on the facet markers and the layer of a cell, the
    statements of [tensor_assembly_calls] make the cell calls first and
    unconditionally, then the facet calls facet by facet, then the calls
    of the cell's layer.  When the builder needs no cell facets (no mesh
    layers), none of its facet (layer) calls is made. *)
Theorem assembly_calls_in_order builder domain markers layer
    (Hd : ufl_domain (expression builder) = Ok domain)
    (Hrows : Forall (fun row => length row = 2) markers)
    (Hn : length markers = facets_of domain) :
  exists stmts,
    tensor_assembly_calls builder = Ok stmts
    /\ exec_block (kernel_env builder markers layer) stmts
       = Some (cell (assembly_calls builder)
               ++ (if needs_cell_facets builder
                   then flat_map (calls_for_facet builder) markers else [])
               ++ (if needs_mesh_layers builder
                   then calls_for_layer builder (layers domain - 1) layer else [])).
Proof.
  unfold tensor_assembly_calls. rewrite Hd. cbn [bind].
  exists ((ast.FlatBlock (Comment "/* Assemble local tensors */")
           :: calls (cell (assembly_calls builder)))
          ++ (if needs_cell_facets builder then facet_loop builder (facets_of domain) else [])
          ++ (if needs_mesh_layers builder
              then layer_dispatch builder (layers domain - 1) else [])).
  split.
  - destruct (needs_cell_facets builder), (needs_mesh_layers builder); reflexivity.
  - assert (Hcell : exec_block (kernel_env builder markers layer)
                      (ast.FlatBlock (Comment "/* Assemble local tensors */")
                       :: calls (cell (assembly_calls builder)))
                    = Some (cell (assembly_calls builder))).
    { cbn [exec_block exec]. rewrite exec_block_calls. reflexivity. }
    assert (Hfacets : exec_block (kernel_env builder markers layer)
                        (if needs_cell_facets builder
                         then facet_loop builder (facets_of domain) else [])
                      = Some (if needs_cell_facets builder
                              then flat_map (calls_for_facet builder) markers else [])).
    { destruct (needs_cell_facets builder); [|reflexivity].
      unfold facet_loop. rewrite <- Hn. cbn [exec_block].
      rewrite (exec_facet_for (kernel_env builder markers layer) builder markers
                 eq_refl Hrows).
      cbn [exec]. rewrite app_nil_r. reflexivity. }
    assert (Hlayers : exec_block (kernel_env builder markers layer)
                        (if needs_mesh_layers builder
                         then layer_dispatch builder (layers domain - 1) else [])
                      = Some (if needs_mesh_layers builder
                              then calls_for_layer builder (layers domain - 1) layer
                              else [])).
    { destruct (needs_mesh_layers builder); [|reflexivity].
      unfold layer_dispatch, kernel_env. cbn [exec_block].
      rewrite exec_layer_conditional. cbn [exec]. rewrite app_nil_r. reflexivity. }
    apply exec_block_app; [exact Hcell|].
    apply exec_block_app; [exact Hfacets | exact Hlayers].
Qed.

(** *** Statements that make no call *)

Lemma exec_block_silent ρ l : Forall silent l -> exec_block ρ l = Some [].
Proof.
  induction 1 as [|s l Hs Hl IH]; [reflexivity|].
  cbn [exec_block]. rewrite (Hs ρ), IH. reflexivity.
Qed.

Lemma exec_block_silent_l ρ l1 l2 :
  Forall silent l1 -> exec_block ρ (l1 ++ l2) = exec_block ρ l2.
Proof.
  induction 1 as [|s l Hs Hl IH]; [reflexivity|].
  cbn [app exec_block]. rewrite (Hs ρ), IH. destruct (exec_block ρ l2); reflexivity.
Qed.

Lemma exec_block_silent_r ρ l1 l2 :
  Forall silent l2 -> exec_block ρ (l1 ++ l2) = exec_block ρ l1.
Proof.
  intros H2. induction l1 as [|s l1 IH]; cbn [app exec_block].
  - apply exec_block_silent. exact H2.
  - rewrite IH. reflexivity.
Qed.

Lemma prologue_silent s : is_prologue s = true -> silent s.
Proof.
  intros Hs ρ. destruct s; try discriminate Hs; reflexivity.
Qed.

Lemma iterate_silent run n : (forall i, run i = Some []) -> forall lo, iterate run lo n = Some [].
Proof.
  intros Hrun. induction n as [|n IH]; intros lo; [reflexivity|].
  cbn [iterate]. rewrite Hrun, IH. reflexivity.
Qed.

Lemma coefficient_loop_silent dofs components : silent (coefficient_loop dofs components).
Proof.
  intros ρ. unfold coefficient_loop. rewrite exec_For. apply iterate_silent.
  intros i. apply exec_block_silent. apply List.Forall_forall. intros s Hs.
  apply in_map_iff in Hs. destruct Hs as (cw & <- & _). intros ρ'. reflexivity.
Qed.

Lemma result_map_Forall_out {A B : Type} (f : A -> result B) (P : B -> Prop) l : forall ys,
  result_map f l = Ok ys ->
  (forall x y, In x l -> f x = Ok y -> P y) ->
  Forall P ys.
Proof.
  induction l as [|x l IH]; intros ys E HP; cbn [result_map] in E.
  - apply Ok_inj in E. subst. constructor.
  - step E y Hy. step E ys' Hys. apply Ok_inj in E. subst.
    constructor; [eapply HP; [left; reflexivity | exact Hy]|].
    apply IH; [exact Hys|]. intros x' y' Hin. apply HP. right. exact Hin.
Qed.

Lemma coefficient_loops_silent builder items d decls loops d' :
  coefficient_loops builder items d = Ok (decls, loops, d') ->
  Forall silent decls /\ Forall silent loops.
Proof.
  intros E.
  destruct (coefficient_loops_shape _ _ _ _ _ _ E) as (Hdecls & _).
  destruct (coefficient_loops_grows _ _ _ _ _ _ E)
    as (new & _ & _ & _ & _ & _ & _ & Hloops & _).
  split.
  - apply List.Forall_forall. intros s Hs. apply prologue_silent. apply (Hdecls s Hs).
  - eapply result_map_Forall_out; [exact Hloops|].
    intros item y _ Hy. cbv beta in Hy. step Hy ws Hws. apply Ok_inj in Hy. subst y.
    apply coefficient_loop_silent.
Qed.

Lemma auxiliary_loop_silent exprs : forall d s d',
  auxiliary_loop exprs d = Ok (s, d') -> Forall silent s.
Proof.
  induction exprs as [|exp exprs IH]; intros d s d' E; cbn [auxiliary_loop] in E.
  - apply Ok_inj in E. injection E as <- <-. constructor.
  - destruct (lookup_temp exp d) as [t0|]; [eapply IH; exact E|].
    step E st Hst. destruct st as [stmts t]. step E md Hmd. destruct md as [more d2].
    apply Ok_inj in E. injection E as <- <-. apply Forall_app. split; [|eapply IH; exact Hmd].
    unfold auxiliary_statement in Hst.
    destruct exp; step Hst c Hc; step Hst ty Hty; apply Ok_inj in Hst;
      injection Hst as <- <-; repeat constructor.
Qed.

Section KernelCalls.
Context `{Collaborators}.

(** X14: the macro kernel calls the subkernels through the statements of
    [tensor_assembly_calls] alone: run in any environment, the whole
    body of a kernel that [generate_kernel] returns makes exactly the
    calls those statements make there; the declarations, the coefficient
    loops, the auxiliary temporaries and the final increment make none. *)
Theorem kernel_calls_are_assembly_calls e p k builder
    (Hgen : generate_kernel e p = Ok k)
    (Hb : new_LocalKernelBuilder e p = Ok builder) :
  exists stmts,
    tensor_assembly_calls builder = Ok stmts
    /\ forall ρ, exec_block ρ (kernel_body k) = exec_block ρ stmts.
Proof.
  destruct (generate_kernel_ok _ _ _ Hgen)
    as (b & tm & d1 & scalls & co & d2 & au & d3 & ki & _ & Hb' & Ht & Hsc & Hco & Hau & Hk & Hki).
  rewrite Hb in Hb'. apply Ok_inj in Hb'. subst b.
  destruct (generate_kernel_ast_ok _ _ _ _ Hk) as (ty & c & Hc & Hcode).
  exists scalls. split; [exact Hsc|]. intros ρ.
  unfold kernel_body, macro_kernel_of. rewrite Hki, Hcode. cbn [ast.f_body].
  assert (Hcast : Forall silent
            (opt (needs_cell_facets builder)
               (ast.FlatBlock (FacetCast f_dtype (cell_facet_sym builder) arg_cell_facets)))).
  { unfold opt. destruct (needs_cell_facets builder); repeat constructor. }
  assert (Htm : Forall silent tm).
  { unfold terminal_temporaries in Ht. step Ht dd Hdd. destruct dd as [decls d1'].
    apply Ok_inj in Ht. injection Ht as <- <-.
    destruct (terminal_loop_shape _ _ _ _ Hdd) as (Hpro & _).
    constructor; [intros ρ'; reflexivity|].
    eapply List.Forall_impl; [|exact Hpro]. intros s Hs. apply prologue_silent. exact Hs. }
  assert (Hcos : Forall silent co).
  { destruct (coefficient_vecs builder) as [|cv cvs] eqn:Ecv.
    - apply Ok_inj in Hco. injection Hco as <- <-. constructor.
    - unfold coefficient_temporaries in Hco. rewrite Ecv in Hco.
      step Hco r Hr. destruct r as [[ds ls] d2']. apply Ok_inj in Hco.
      injection Hco as <- <-.
      destruct (coefficient_loops_silent _ _ _ _ _ _ Hr) as [Hds Hls].
      constructor; [intros ρ'; reflexivity|].
      apply Forall_app. split; [exact Hds|].
      constructor; [intros ρ'; reflexivity | exact Hls]. }
  assert (Haus : Forall silent au)
    by (unfold auxiliary_expressions in Hau; eapply auxiliary_loop_silent; exact Hau).
  rewrite (exec_block_silent_l _ _ _ Hcast).
  rewrite exec_block_silent_r by (repeat constructor).
  rewrite (exec_block_silent_l _ _ _ Htm).
  rewrite (app_assoc scalls co au), exec_block_silent_r by exact Haus.
  apply exec_block_silent_r. exact Hcos.
Qed.

End KernelCalls.

(** ** The kernel cache *)

Section CacheFrame.
Context `{Collaborators}.

Lemma metakernel_cache_insert st e key k r e2 key2 :
  _metakernel_cache
    (mk_state (<[object_id e := <[key := k]> (_metakernel_cache st e)]> (caches st)) r)
    e2 !! key2
  = if decide (object_id e = object_id e2 /\ key = key2) then Some k
    else _metakernel_cache st e2 !! key2.
Proof.
  unfold _metakernel_cache. cbn [caches].
  destruct (decide (object_id e = object_id e2)) as [Ho|Ho].
  - rewrite <- Ho, lookup_insert_eq. cbn [default from_option id].
    destruct (decide (key = key2)) as [->|Hk].
    + rewrite lookup_insert_eq. rewrite decide_True by auto. reflexivity.
    + rewrite lookup_insert_ne by exact Hk. rewrite decide_False by tauto. reflexivity.
  - rewrite lookup_insert_ne by exact Ho. rewrite decide_False by tauto. reflexivity.
Qed.

(** X15: [compile_expression] never drops or replaces a cached kernel:
    whatever it is called on and whatever it returns, every entry of
    every [_metakernel_cache] is still there afterwards; and the only
    entry that can be new is the one of the call itself, holding the
    kernel the call returned. *)
Theorem cached_kernels_are_kept obj tp coffee st e2 key2 :
  let st' := snd (compile_expression obj tp coffee st) in
  (forall k2, _metakernel_cache st e2 !! key2 = Some k2 ->
              _metakernel_cache st' e2 !! key2 = Some k2)
  /\ (forall k2, _metakernel_cache st' e2 !! key2 = Some k2 ->
        _metakernel_cache st e2 !! key2 = Some k2
        \/ exists e, obj = PyTensor e /\ object_id e = object_id e2
                     /\ key2 = str (sorted (resolve tp))
                     /\ fst (compile_expression obj tp coffee st) = Ok k2).
Proof.
  intros st'. subst st'. unfold compile_expression. destruct obj as [e|ty].
  2:{ cbn [snd]. split; [auto | intros k2 Hk; left; exact Hk]. }
  fold (resolve tp).
  destruct (_metakernel_cache st e !! str (sorted (resolve tp))) as [k|] eqn:Ek.
  { cbn [snd]. split; [auto | intros k2 Hk; left; exact Hk]. }
  destruct (SlateKernel_init e (resolve tp) coffee) as [k|x].
  2:{ cbn [snd]. split; [auto | intros k2 Hk; left; exact Hk]. }
  cbn [snd fst]. rewrite metakernel_cache_insert.
  destruct (decide (object_id e = object_id e2 /\ str (sorted (resolve tp)) = key2))
    as [[Ho Hk]|Hne].
  - split.
    + intros k2 Hk2. subst key2. unfold _metakernel_cache in Ek, Hk2.
      rewrite Ho in Ek. rewrite Ek in Hk2. discriminate.
    + intros k2 Hk2. injection Hk2 as <-. right. exists e. auto.
  - split; [auto | intros k2 Hk2; left; exact Hk2].
Qed.

(** X16: a failure is not cached.  When [compile_expression] raises on a
    Slate expression, no cache has changed, and the same call made again
    runs [SlateKernel] again and raises the same exception. *)
Theorem failed_compilation_is_retried e tp coffee st x st1
    (Hfail : compile_expression (PyTensor e) tp coffee st = (Raise x, st1)) :
  caches st1 = caches st
  /\ runs st1 = runs st ++ [(object_id e, str (sorted (resolve tp)), false)]
  /\ exists st2,
       compile_expression (PyTensor e) tp coffee st1 = (Raise x, st2)
       /\ caches st2 = caches st
       /\ runs st2 = runs st1 ++ [(object_id e, str (sorted (resolve tp)), false)].
Proof.
  unfold compile_expression in Hfail |- *. fold (resolve tp) in Hfail |- *.
  destruct (_metakernel_cache st e !! str (sorted (resolve tp))) as [k|] eqn:Ek;
    [discriminate|].
  destruct (SlateKernel_init e (resolve tp) coffee) as [k|y] eqn:Einit; [discriminate|].
  injection Hfail as <- <-. cbn [caches runs].
  split; [reflexivity|]. split; [reflexivity|].
  unfold _metakernel_cache in Ek |- *. cbn [caches]. rewrite Ek.
  eexists. split; [reflexivity|]. split; reflexivity.
Qed.

(** X17: [SlateKernel._cache_key] looks neither at the order in which
    the parameters are given nor at the [coffee] flag, and it raises
    [IndexError] for an expression without a domain. *)
Theorem cache_key_ignores_order_and_coffee e p p' coffee coffee' :
  (Permutation p p' -> _cache_key e p coffee = _cache_key e p' coffee')
  /\ (ufl_domains e = [] -> _cache_key e p coffee = Raise IndexError).
Proof.
  split.
  - intros Hp. unfold _cache_key. rewrite (sorted_permutation _ _ Hp). reflexivity.
  - intros Hd. unfold _cache_key. rewrite Hd. reflexivity.
Qed.

End CacheFrame.

(** ** The arguments of the loopy kernel *)

Lemma lookup_key_raises {A : Type} (d : list (string * A)) k x :
  lookup_key d k = Raise x -> x = KeyError k /\ ~ In k (map fst d).
Proof.
  unfold lookup_key. destruct (find _ d) as [kv|] eqn:Ef; [discriminate|].
  intros E. injection E as <-. split; [reflexivity|].
  intros Hin. apply in_map_iff in Hin. destruct Hin as (kv & <- & Hin).
  pose proof (find_none _ _ Ef kv Hin) as Hk. simpl in Hk.
  rewrite String.eqb_refl in Hk. discriminate.
Qed.

Section LoopyArguments.
Context `{Collaborators}.

Lemma gem_to_loopy_coords g lb args :
  gem_to_loopy_args g lb = Ok args ->
  exists n,
    match args_extents lb with
    | _ :: _ => extent lb (coordinates_arg lb)
    | [] => index (shape (attrs_of (tree (l_expression lb)))) 0
    end = Ok n
    /\ In (mk_loopy_arg GlobalArg "coords" [n] "double") args.
Proof.
  unfold gem_to_loopy_args. intros E.
  step E temp_args Htemps. step E idx Hidx.
  step E coords Hcoords. step E o Ho. step E cs Hcs. step E fns Hfns. step E co Hco.
  apply Ok_inj in E. subst args.
  assert (Hin : forall pre post, In coords (pre ++ [coords] ++ post)).
  { intros pre post. rewrite !in_app_iff. right. left. left. reflexivity. }
  destruct (args_extents lb); step Hcoords n Hn; apply Ok_inj in Hcoords; subst coords;
    exists n; (split; [exact Hn|]); rewrite (app_assoc _ [_]); apply Hin.
Qed.

Lemma gem_to_loopy_coords_error g lb temp_args idx x :
  result_map (fun kv : expr * string => lookup_key (gem_loopy_dict lb) (snd kv))
             (l_temps lb) = Ok temp_args ->
  output_index g lb = Ok idx ->
  match args_extents lb with
  | _ :: _ => extent lb (coordinates_arg lb)
  | [] => index (shape (attrs_of (tree (l_expression lb)))) 0
  end = Raise x ->
  gem_to_loopy_args g lb = Raise x.
Proof.
  unfold gem_to_loopy_args. intros -> -> E. cbn [bind].
  destruct (args_extents lb); rewrite E; reflexivity.
Qed.

(** X18: the extent of the [coords] argument of the loopy kernel, once
    the look-ups that [gem_to_loopy] makes before it have succeeded: the
    argument of every temporary in [builder.gem_loopy_dict], and the
    index of the return variable ([builder.gem_indices] for a terminal
    root, the [multiindex] of the translated expression otherwise).
    With a non-empty [builder.args_extents] the extent is the entry of
    [builder.coordinates_arg], and [gem_to_loopy] raises [KeyError] for
    that name when the entry is missing; with an empty one it is the
    first extent of the expression, and [gem_to_loopy] raises
    [IndexError] when the expression has no extent. *)
Theorem loopy_coords_extent g lb temp_args idx
    (Htemps : result_map (fun kv : expr * string =>
                            lookup_key (gem_loopy_dict lb) (snd kv))
                         (l_temps lb) = Ok temp_args)
    (Hidx : output_index g lb = Ok idx) :
  (args_extents lb <> [] ->
   match extent lb (coordinates_arg lb) with
   | Ok n => forall args, gem_to_loopy_args g lb = Ok args ->
               In (mk_loopy_arg GlobalArg "coords" [n] "double") args
   | Raise _ => gem_to_loopy_args g lb = Raise (KeyError (coordinates_arg lb))
   end)
  /\ (args_extents lb = [] ->
      match shape (attrs_of (tree (l_expression lb))) with
      | n :: _ => forall args, gem_to_loopy_args g lb = Ok args ->
                    In (mk_loopy_arg GlobalArg "coords" [n] "double") args
      | [] => gem_to_loopy_args g lb = Raise IndexError
      end).
Proof.
  split.
  - intros Hne. destruct (extent lb (coordinates_arg lb)) as [n|x] eqn:En.
    + intros args Ha. destruct (gem_to_loopy_coords _ _ _ Ha) as (n' & Hn' & Hin).
      destruct (args_extents lb); [congruence|]. rewrite En in Hn'.
      apply Ok_inj in Hn'. subst n'. exact Hin.
    + apply (gem_to_loopy_coords_error _ _ _ _ _ Htemps Hidx).
      destruct (args_extents lb) as [|kv rest] eqn:Ex; [congruence|].
      rewrite En. f_equal. unfold extent in En.
      destruct (find _ (args_extents lb)); [discriminate|]. injection En as <-. reflexivity.
  - intros He. destruct (shape (attrs_of (tree (l_expression lb)))) as [|n rest] eqn:Es.
    + apply (gem_to_loopy_coords_error _ _ _ _ _ Htemps Hidx). rewrite He, Es. reflexivity.
    + intros args Ha. destruct (gem_to_loopy_coords _ _ _ Ha) as (n' & Hn' & Hin).
      rewrite He, Es in Hn'. cbn in Hn'. apply Ok_inj in Hn'. subst n'. exact Hin.
Qed.

(** *** The names of the coefficient arguments *)

Lemma coeff_names_shift (g : nat -> string) get m :
  map (fun k => g (get + k)) (seq 0 m) = map g (seq get m).
Proof.
  rewrite <- (map_map (fun k => get + k) g). f_equal.
  revert get. induction m as [|m IH]; intros get; [reflexivity|].
  rewrite !List.seq_S, map_app, IH. reflexivity.
Qed.

Lemma found_names (shapes_ : list (list nat)) get kfs : forall found,
  result_map
    (fun kf : nat * nat =>
       shape_ <~ index shapes_ (snd kf) ;;
       Ok (mk_loopy_arg GlobalArg ("coeff" ++ fmt_d (get + fst kf))%string shape_ "double"))
    kfs = Ok found ->
  map la_name found = map (fun kf => ("coeff" ++ fmt_d (get + fst kf))%string) kfs
  /\ List.filter coeff_named found = found.
Proof.
  induction kfs as [|kf kfs IH]; intros found E; cbn [result_map] in E.
  - apply Ok_inj in E. subst. split; reflexivity.
  - step E y Hy. step E ys Hys. apply Ok_inj in E. subst found.
    step Hy shp Hshp. apply Ok_inj in Hy. subst y.
    destruct (IH _ Hys) as [Hn Hf]. split.
    + cbn [map la_name]. rewrite Hn. reflexivity.
    + cbn [List.filter]. unfold coeff_named at 1. cbn [la_name].
      rewrite prefix_append, Hf. reflexivity.
Qed.

Lemma combine_seq_fst {A : Type} (l : list A) a :
  map fst (combine (seq a (length l)) l) = seq a (length l).
Proof.
  revert a. induction l as [|x l IH]; intros a; [reflexivity|].
  simpl. rewrite IH. reflexivity.
Qed.

Lemma w_not_coeff_named s shp :
  coeff_named (mk_loopy_arg GlobalArg (cat ("w_"%string :: s)) shp "double") = false.
Proof. reflexivity. Qed.

Lemma coefficient_args_names lb shapes_ fns i c get here get' :
  coefficient_args lb shapes_ fns i c get = Ok (here, get') ->
  get' = get + length (indices_of c fns)
  /\ map la_name (List.filter coeff_named here)
     = map (fun k => ("coeff" ++ fmt_d k)%string) (seq get (length (indices_of c fns))).
Proof.
  unfold coefficient_args. intros E. step E found Hfound.
  destruct (found_names _ _ _ _ Hfound) as [Hn Hf].
  assert (Hnames : map la_name found
                   = map (fun k => ("coeff" ++ fmt_d k)%string)
                         (seq get (length (indices_of c fns)))).
  { rewrite Hn, <- (coeff_names_shift (fun k => ("coeff" ++ fmt_d k)%string)).
    rewrite <- (combine_seq_fst (indices_of c fns) 0) at 2. rewrite map_map. reflexivity. }
  destruct (indices_of c fns) as [|i0 rest] eqn:Ei.
  - cbn [result_map combine seq length] in Hfound. apply Ok_inj in Hfound. subst found.
    destruct (element_is_mixed c).
    + step E split_ Hsplit. apply Ok_inj in E. injection E as <- <-.
      split; [reflexivity|]. cbn [app length seq map].
      assert (Hnone : List.filter coeff_named split_ = []).
      { clear - Hsplit. revert split_ Hsplit.
        induction (seq 0 (n_split c)) as [|j js IH]; intros split_ E; cbn [result_map] in E.
        - apply Ok_inj in E. subst. reflexivity.
        - step E y Hy. step E ys Hys. apply Ok_inj in E. subst split_.
          step Hy ext Hext. apply Ok_inj in Hy. subst y.
          cbn [List.filter]. rewrite w_not_coeff_named. apply IH. exact Hys. }
      rewrite Hnone. reflexivity.
    + step E ext Hext. apply Ok_inj in E. injection E as <- <-.
      split; [reflexivity|]. reflexivity.
  - apply Ok_inj in E. injection E as <- <-. split; [reflexivity|].
    rewrite Hf. exact Hnames.
Qed.

Lemma coefficients_args_names lb shapes_ fns cs : forall i get l,
  coefficients_args lb shapes_ fns i cs get = Ok l ->
  map la_name (List.filter coeff_named l)
  = map (fun k => ("coeff" ++ fmt_d k)%string)
        (seq get (list_sum (map (fun c => length (indices_of c fns)) cs))).
Proof.
  induction cs as [|c cs IH]; intros i get l E; cbn [coefficients_args] in E.
  - apply Ok_inj in E. subst. reflexivity.
  - step E hg Hhere. destruct hg as [here get'].
    step E more Hmore. apply Ok_inj in E. subst l.
    destruct (coefficient_args_names _ _ _ _ _ _ _ _ Hhere) as [Hget Hn].
    rewrite List.filter_app, map_app, Hn, (IH _ _ _ Hmore), Hget.
    cbn [map list_sum fold_right]. rewrite List.seq_app, map_app. reflexivity.
Qed.

(** X19: the coefficient arguments [gem_to_loopy] names [coeff<k>] are
    numbered from 0 without a gap, in the order they are appended: one
    for every component of [builder.coefficient_vecs] whose function is
    a coefficient of the expression, coefficient by coefficient. *)
Theorem loopy_coefficients_are_numbered g lb args
    (Hargs : gem_to_loopy_args g lb = Ok args) :
  exists before coeffs after fns,
    args = before ++ coeffs ++ after
    /\ result_map (fun ci => function_of (vector ci)) (flat_map snd (l_coefficient_vecs lb))
       = Ok fns
    /\ map la_name (List.filter coeff_named coeffs)
       = map (fun k => ("coeff" ++ fmt_d k)%string)
             (seq 0 (list_sum (map (fun c => length (indices_of c fns))
                                   (coefficients (l_expression lb)))))
    /\ Forall (fun a => coeff_named a = true -> la_kind a = GlobalArg) coeffs.
Proof.
  unfold gem_to_loopy_args in Hargs.
  step Hargs temp_args Htemps. step Hargs idx Hidx.
  step Hargs coords Hcoords. step Hargs orientations Hor.
  step Hargs cell_sizes Hcs. step Hargs fns Hfns. step Hargs coeffs Hco.
  apply Ok_inj in Hargs. subst args.
  exists (temp_args
          ++ [mk_loopy_arg GlobalArg "output" (l_shape lb) "double"]
          ++ [coords] ++ orientations ++ cell_sizes), coeffs,
         ((if l_needs_cell_facets lb
           then [mk_loopy_arg GlobalArg (cell_facets_arg lb) [l_num_facets lb; 2] "int8"]
           else [])
          ++ (if l_needs_mesh_layers lb
              then [mk_loopy_arg TemporaryVariable "layer" [] "int32"] else [])), fns.
  split; [rewrite <- !app_assoc; reflexivity|].
  split; [exact Hfns|]. split; [eapply coefficients_args_names; exact Hco|].
  eapply List.Forall_impl; [|eapply coefficients_args_buffers; exact Hco].
  intros a (Hk & _) _. exact Hk.
Qed.

End LoopyArguments.

(** ** The signature of the macro kernel *)

Section Signature.
Context `{Collaborators}.


End Signature.

Section ScalarResult.
Context `{Collaborators}.

(** X21: a rank-0 expression is written out as a 1 x 1 matrix: whatever
    shape it carries, the result symbol of its macro kernel is an
    [Eigen::Map] of [Eigen::Matrix<double, 1, 1>] laid over the output
    argument. *)
Theorem scalar_result_is_one_by_one e p k builder
    (Hgen : generate_kernel e p = Ok k)
    (Hb : new_LocalKernelBuilder e p = Ok builder)
    (Hrank : rank (attrs_of (tree (expression builder))) = 0) :
  exists n,
    In (ast.FlatBlock (EigenMap "Eigen::Map<Eigen::Matrix<double, 1, 1> >"
                                ("T" ++ fmt_d n) ScalarType_c ("A" ++ fmt_d n)))
       (kernel_body k)
    /\ hd_error (kernel_arg_names k) = Some ("A" ++ fmt_d n)%string.
Proof.
  destruct (generate_kernel_ok _ _ _ Hgen)
    as (b & tm & d1 & scalls & co & d2 & au & d3 & ki & _ & Hb' & _ & _ & _ & _ & Hk & Hki).
  rewrite Hb in Hb'. apply Ok_inj in Hb'. subst b.
  unfold generate_kernel_ast in Hk. rewrite Hrank in Hk. cbn [Nat.eqb] in Hk.
  step Hk mt Hmt. step Hk c Hc. apply Ok_inj in Hk.
  cbn in Hmt. apply Ok_inj in Hmt. subst mt.
  exists (length d3). unfold kernel_body, kernel_arg_names, macro_kernel_of.
  rewrite Hki, <- Hk. cbn [kernel k_code ast.f_body ast.f_args].
  split; [|reflexivity].
  destruct (needs_cell_facets builder); [right|];
    rewrite !in_app_iff; right; right; left; reflexivity.
Qed.

End ScalarResult.

(** *** The exceptions of the argument list *)

Lemma extent_raises lb name x :
  extent lb name = Raise x -> x = KeyError name /\ ~ In name (map fst (args_extents lb)).
Proof.
  unfold extent. destruct (find _ (args_extents lb)) as [kv|] eqn:Ef; [discriminate|].
  intros E. injection E as <-. split; [reflexivity|].
  intros Hin. apply in_map_iff in Hin. destruct Hin as (kv & <- & Hin).
  pose proof (find_none _ _ Ef kv Hin) as Hk. simpl in Hk.
  rewrite String.eqb_refl in Hk. discriminate.
Qed.

Lemma result_map_length {A B : Type} (f : A -> result B) l : forall ys,
  result_map f l = Ok ys -> length ys = length l.
Proof.
  induction l as [|a l IH]; intros ys E; cbn [result_map] in E.
  - apply Ok_inj in E. subst. reflexivity.
  - step E y Hy. step E ys' Hys. apply Ok_inj in E. subst. simpl. f_equal. apply IH. exact Hys.
Qed.

Lemma result_map_raises {A B : Type} (f : A -> result B) l x :
  result_map f l = Raise x -> exists a, In a l /\ f a = Raise x.
Proof.
  induction l as [|a l IH]; cbn [result_map]; [discriminate|].
  destruct (f a) as [y|e] eqn:Ea; cbn [bind].
  - destruct (result_map f l) as [ys|e] eqn:El; cbn [bind]; [discriminate|].
    intros E. injection E as <-. destruct (IH eq_refl) as (b & Hb & Hf).
    exists b. split; [right; exact Hb | exact Hf].
  - intros E. injection E as <-. exists a. split; [left; reflexivity | exact Ea].
Qed.

Lemma indices_of_bound c fns i : In i (indices_of c fns) -> i < length fns.
Proof.
  unfold indices_of. intros Hin. apply in_map_iff in Hin.
  destruct Hin as ([j f] & <- & Hin). apply List.filter_In in Hin. destruct Hin as [Hin _].
  apply in_combine_l in Hin. apply in_seq in Hin. simpl. lia.
Qed.

Lemma coefficient_args_raises lb shapes_ fns i c get x :
  length shapes_ = length fns ->
  coefficient_args lb shapes_ fns i c get = Raise x ->
  exists name, x = KeyError name /\ ~ In name (map fst (args_extents lb)).
Proof.
  intros Hlen. unfold coefficient_args.
  destruct (result_map _ (combine (seq 0 (length (indices_of c fns))) (indices_of c fns)))
    as [found|e] eqn:Ef; cbn [bind].
  - destruct (indices_of c fns) as [|i0 rest]; [|discriminate].
    destruct (element_is_mixed c).
    + destruct (result_map _ (seq 0 (n_split c))) as [sp|e] eqn:Es; cbn [bind]; [discriminate|].
      intros E. injection E as <-.
      destruct (result_map_raises _ _ _ Es) as (j & _ & Hj).
      destruct (extent lb (cat ["w_"; fmt_d i; "_"; fmt_d j]%string)) as [n|e'] eqn:Ee;
        [discriminate|]. cbn [bind] in Hj. injection Hj as <-.
      eexists. eapply extent_raises. exact Ee.
    + destruct (extent lb (cat ["w_"; fmt_d i]%string)) as [n|e'] eqn:Ee; cbn [bind];
        [discriminate|].
      intros E. injection E as <-. eexists. eapply extent_raises. exact Ee.
  - exfalso. destruct (result_map_raises _ _ _ Ef) as ([k fi] & Hin & Hk).
    apply in_combine_r in Hin. apply indices_of_bound in Hin. cbn [snd fst] in Hk.
    unfold index in Hk. destruct (nth_error shapes_ fi) eqn:En; [discriminate|].
    apply nth_error_None in En. lia.
Qed.

Lemma coefficients_args_raises lb shapes_ fns cs x :
  length shapes_ = length fns -> forall i get,
  coefficients_args lb shapes_ fns i cs get = Raise x ->
  exists name, x = KeyError name /\ ~ In name (map fst (args_extents lb)).
Proof.
  intros Hlen. induction cs as [|c cs IH]; intros i get; cbn [coefficients_args];
    [discriminate|].
  destruct (coefficient_args lb shapes_ fns i c get) as [[here get']|e] eqn:Eh; cbn [bind].
  - destruct (coefficients_args lb shapes_ fns (S i) cs get') as [more|e] eqn:Em;
      cbn [bind]; [discriminate|].
    intros E. injection E as <-. eapply IH. exact Em.
  - intros E. injection E as <-. eapply coefficient_args_raises; eassumption.
Qed.

Section LoopyErrors.
Context `{Collaborators}.

(** X22: the exceptions of the argument list of [gem_to_loopy].  An
    exception it raises is one of these: what reading the [multiindex]
    of the translated expression raised, the root being no [Tensor],
    [AssembledVector] or [Block]; a [KeyError] for the gem variable of a
    temporary that [builder.gem_loopy_dict] does not hold, for the key
    [str(builder.expression) + "out"] that [builder.gem_indices] does
    not hold, the root being one of the three, or for a name that
    [builder.args_extents] does not hold; the [IndexError] of the
    [coords] extent of an expression without extents when
    [builder.args_extents] is empty; the [AttributeError] of a
    coefficient vector that is no [AssembledVector].  The shape of a
    [coeff<k>] argument is always found: the look-up in the list of
    shapes never fails. *)
Theorem loopy_argument_errors g lb x
    (Hraise : gem_to_loopy_args g lb = Raise x) :
  (x = IndexError /\ args_extents lb = []
   /\ shape (attrs_of (tree (l_expression lb))) = [])
  \/ (exists name,
        x = KeyError name
        /\ ((In name (map snd (l_temps lb))
             /\ ~ In name (map fst (gem_loopy_dict lb)))
            \/ (name = (expression_str lb ++ "out")%string
                /\ is_Tensor (tree (l_expression lb))
                   || is_AssembledVector (tree (l_expression lb))
                   || is_Block (tree (l_expression lb)) = true
                /\ ~ In name (map fst (gem_indices lb)))
            \/ ~ In name (map fst (args_extents lb))))
  \/ (x = AttributeError "_function"
      /\ exists ci, In ci (flat_map snd (l_coefficient_vecs lb))
                    /\ is_AssembledVector (vector ci) = false)
  \/ (is_Tensor (tree (l_expression lb))
      || is_AssembledVector (tree (l_expression lb))
      || is_Block (tree (l_expression lb)) = false
      /\ multiindex g = Raise x).
Proof.
  unfold gem_to_loopy_args in Hraise.
  match type of Hraise with
  | bind ?c _ = _ => destruct c as [temp_args|e] eqn:Et
  end; cbn [bind] in Hraise.
  2:{ injection Hraise as <-. right. left.
      destruct (result_map_raises _ _ _ Et) as (kv & Hkv & Hf).
      destruct (lookup_key_raises _ _ _ Hf) as (-> & Hnot).
      exists (snd kv). split; [reflexivity|]. left. split; [|exact Hnot].
      apply in_map. exact Hkv. }
  match type of Hraise with
  | bind ?c _ = _ => destruct c as [idx|e] eqn:Ei
  end; cbn [bind] in Hraise.
  2:{ injection Hraise as <-. unfold output_index in Ei.
      destruct (is_Tensor (tree (l_expression lb))
                || is_AssembledVector (tree (l_expression lb))
                || is_Block (tree (l_expression lb))) eqn:Eroot.
      - right. left. destruct (lookup_key_raises _ _ _ Ei) as (-> & Hnot).
        eexists. split; [reflexivity|]. right. left. auto.
      - right. right. right. auto. }
  match type of Hraise with
  | bind ?c _ = _ => destruct c as [coords|e] eqn:Ec
  end; cbn [bind] in Hraise.
  2:{ injection Hraise as <-. destruct (args_extents lb) as [|kv rest] eqn:Ex.
      - left. unfold index in Ec.
        destruct (shape (attrs_of (tree (l_expression lb)))) as [|n r]; [|discriminate].
        cbn in Ec. injection Ec as <-. auto.
      - right. left. rewrite <- Ex.
        destruct (extent lb (coordinates_arg lb)) as [n|e'] eqn:Ee; [discriminate|].
        cbn [bind] in Ec. injection Ec as <-.
        destruct (extent_raises _ _ _ Ee) as (-> & Hnot).
        eexists. split; [reflexivity|]. right. right. exact Hnot. }
  match type of Hraise with
  | bind ?c _ = _ => destruct c as [orientations|e] eqn:Eo
  end; cbn [bind] in Hraise.
  2:{ injection Hraise as <-. right. left.
      destruct (l_needs_cell_orientations lb); [|discriminate].
      destruct (extent lb (cell_orientations_arg lb)) as [n|e'] eqn:Ee; [discriminate|].
      cbn [bind] in Eo. injection Eo as <-.
      destruct (extent_raises _ _ _ Ee) as (-> & Hnot).
      eexists. split; [reflexivity|]. right. right. exact Hnot. }
  match type of Hraise with
  | bind ?c _ = _ => destruct c as [cell_sizes|e] eqn:Es
  end; cbn [bind] in Hraise.
  2:{ injection Hraise as <-. right. left.
      destruct (l_needs_cell_sizes lb); [|discriminate].
      destruct (extent lb (cell_size_arg lb)) as [n|e'] eqn:Ee; [discriminate|].
      cbn [bind] in Es. injection Es as <-.
      destruct (extent_raises _ _ _ Ee) as (-> & Hnot).
      eexists. split; [reflexivity|]. right. right. exact Hnot. }
  destruct (result_map (fun ci => function_of (vector ci))
              (flat_map snd (l_coefficient_vecs lb))) as [fns|e] eqn:Ef;
    cbn [bind] in Hraise.
  2:{ injection Hraise as <-. right. right. left.
      destruct (result_map_raises _ _ _ Ef) as (ci & Hci & Hf).
      unfold function_of in Hf.
      destruct (vector ci) eqn:Ev; try discriminate Hf;
        injection Hf as <-; (split; [reflexivity|]); exists ci; rewrite Ev; auto. }
  match type of Hraise with
  | bind ?c _ = _ => destruct c as [coeffs|e] eqn:Eco
  end; cbn [bind] in Hraise; [discriminate|].
  injection Hraise as <-. right. left.
  assert (Hlen : length (map cinfo_shape (flat_map snd (l_coefficient_vecs lb)))
                 = length fns).
  { rewrite length_map. symmetry. eapply result_map_length. exact Ef. }
  destruct (coefficients_args_raises _ _ _ _ _ Hlen _ _ Eco) as (name & -> & Hnot).
  exists name. split; [reflexivity|]. right. right. exact Hnot.
Qed.

End LoopyErrors.

Lemma loopy_argument_errors_witness :
  @gem_to_loopy_args demo tt keyless_loopy_builder = Raise (KeyError "cell_sizes")
  /\ ((KeyError "cell_sizes" = IndexError /\ args_extents keyless_loopy_builder = []
       /\ shape (attrs_of (tree (l_expression keyless_loopy_builder))) = [])
      \/ (exists name,
            KeyError "cell_sizes" = KeyError name
            /\ ((In name (map snd (l_temps keyless_loopy_builder))
                 /\ ~ In name (map fst (gem_loopy_dict keyless_loopy_builder)))
                \/ (name = (expression_str keyless_loopy_builder ++ "out")%string
                    /\ is_Tensor (tree (l_expression keyless_loopy_builder))
                       || is_AssembledVector (tree (l_expression keyless_loopy_builder))
                       || is_Block (tree (l_expression keyless_loopy_builder)) = true
                    /\ ~ In name (map fst (gem_indices keyless_loopy_builder)))
                \/ ~ In name (map fst (args_extents keyless_loopy_builder))))
      \/ (KeyError "cell_sizes" = AttributeError "_function"
          /\ exists ci, In ci (flat_map snd (l_coefficient_vecs keyless_loopy_builder))
                        /\ is_AssembledVector (vector ci) = false)
      \/ (is_Tensor (tree (l_expression keyless_loopy_builder))
          || is_AssembledVector (tree (l_expression keyless_loopy_builder))
          || is_Block (tree (l_expression keyless_loopy_builder)) = false
          /\ @multiindex demo tt = Raise (KeyError "cell_sizes"))).
Proof.
  assert (E : @gem_to_loopy_args demo tt keyless_loopy_builder
              = Raise (KeyError "cell_sizes")) by reflexivity.
  split; [exact E|].
  exact (@loopy_argument_errors demo tt keyless_loopy_builder _ E).
Defined.

(** ** The loopy kernel *)

Section LoopyKernel.
Context `{Collaborators}.

Lemma gem_to_loopy_flag_args g lb args :
  gem_to_loopy_args g lb = Ok args ->
  (l_needs_cell_orientations lb = true ->
     exists n, In (mk_loopy_arg GlobalArg "orientations" [n] "int32") args)
  /\ (l_needs_cell_sizes lb = true ->
        exists n, In (mk_loopy_arg GlobalArg "cell_sizes" [n] "double") args)
  /\ (l_needs_cell_facets lb = true ->
        In (mk_loopy_arg GlobalArg (cell_facets_arg lb) [l_num_facets lb; 2] "int8") args)
  /\ (l_needs_mesh_layers lb = true ->
        last args = Some (mk_loopy_arg TemporaryVariable "layer" [] "int32")).
Proof.
  unfold gem_to_loopy_args. intros E.
  step E temp_args Htemps. step E idx Hidx.
  step E coords Hcoords. step E o Ho. step E cs Hcs. step E fns Hfns. step E co Hco.
  apply Ok_inj in E. subst args.
  split; [|split; [|split]].
  - intros Hf. rewrite Hf in Ho. step Ho n Hn. apply Ok_inj in Ho. subst o.
    exists n. rewrite !in_app_iff. do 3 right. left. left. reflexivity.
  - intros Hf. rewrite Hf in Hcs. step Hcs n Hn. apply Ok_inj in Hcs. subst cs.
    exists n. rewrite !in_app_iff. do 4 right. left. left. reflexivity.
  - intros ->. rewrite !in_app_iff. do 6 right. left. left. reflexivity.
  - intros ->. rewrite !app_assoc. apply last_snoc.
Qed.

(** X23: the kernel [generate_loopy_kernel] returns holds the code and
    the name that the code generator made from the argument list of
    [gem_to_loopy], unchanged and to be linked with lapack; it is always
    given out as a cell integral on subdomain [otherwise]; and every
    flag of its [KernelInfo] that is set has its argument in that
    argument list, the layer being the last one. *)
Theorem loopy_kernel_matches_arguments e p k
    (Hgen : generate_loopy_kernel e p = Ok k) :
  exists lb g args code,
    new_LocalLoopyKernelBuilder e p = Ok lb
    /\ slate_to_gem_translate lb = Ok g
    /\ gem_to_loopy_args g lb = Ok args
    /\ loopy_backend lb g args = Ok (code, k_name (kernel (kinfo k)))
    /\ k_code (kernel (kinfo k)) = LoopyCode code
    /\ k_ldargs (kernel (kinfo k)) = ["-llapack"%string]
    /\ ki_integral_type (kinfo k) = "cell"%string
    /\ subdomain_id (kinfo k) = "otherwise"%string
    /\ (ki_oriented (kinfo k) = true ->
          exists n, In (mk_loopy_arg GlobalArg "orientations" [n] "int32") args)
    /\ (ki_needs_cell_sizes (kinfo k) = true ->
          exists n, In (mk_loopy_arg GlobalArg "cell_sizes" [n] "double") args)
    /\ (ki_needs_cell_facets (kinfo k) = true ->
          In (mk_loopy_arg GlobalArg (cell_facets_arg lb) [l_num_facets lb; 2] "int8") args)
    /\ (pass_layer_arg (kinfo k) = true ->
          last args = Some (mk_loopy_arg TemporaryVariable "layer" [] "int32")).
Proof.
  unfold generate_loopy_kernel in Hgen.
  destruct (is_mixed e); [discriminate|].
  destruct (1 <? length (ufl_domains e)); [discriminate|].
  step Hgen lb Hlb. step Hgen g Hg. step Hgen args Hargs. step Hgen cn Hcn.
  destruct cn as [code name]. apply Ok_inj in Hgen. subst k.
  cbn [kinfo kernel k_name k_code k_ldargs ki_integral_type subdomain_id ki_oriented
       ki_needs_cell_sizes ki_needs_cell_facets pass_layer_arg].
  destruct (gem_to_loopy_flag_args _ _ _ Hargs) as (Ho & Hs & Hf & Hl).
  exists lb, g, args, code. repeat (split; [first [assumption | reflexivity]|]). exact Hl.
Qed.

End LoopyKernel.

Lemma loopy_kernel_matches_arguments_witness :
  @generate_loopy_kernel demo demo_expr demo_params
  = Ok (kernel_of (@generate_loopy_kernel demo demo_expr demo_params))
  /\ exists args,
       @gem_to_loopy_args demo tt (demo_loopy_builder_for demo_expr) = Ok args
       /\ last args = Some (mk_loopy_arg TemporaryVariable "layer" [] "int32").
Proof.
  assert (E : @generate_loopy_kernel demo demo_expr demo_params
              = Ok (kernel_of (@generate_loopy_kernel demo demo_expr demo_params)))
    by (vm_compute; reflexivity).
  split; [exact E|].
  destruct (@loopy_kernel_matches_arguments demo demo_expr demo_params _ E)
    as (lb & g & args & code & Hlb & _ & Hargs & _ & _ & _ & _ & _ & _ & _ & _ & Hl).
  apply Ok_inj in Hlb. subst lb.
  exists args. split; [exact Hargs|]. apply Hl. reflexivity.
Defined.

(** ** The further properties on the worked example *)

Lemma parentheses_follow_precedence_witness :
  slate_to_cpp demo_tree demo_declared None = Ok demo_translation
  /\ gencode_cpp demo_translation
     = "(T0 + T1) * VecTemp0 + (T0 + T1).transpose() * VecTemp0"%string
  /\ placed None demo_translation.
Proof.
  assert (E : slate_to_cpp demo_tree demo_declared None = Ok demo_translation)
    by (vm_compute; reflexivity).
  split; [exact E|]. split; [vm_compute; reflexivity|].
  exact (parentheses_follow_precedence demo_tree demo_declared None demo_translation E).
Defined.

Lemma symbols_are_declared_nodes_witness :
  slate_to_cpp demo_tree demo_declared None = Ok demo_translation
  /\ In "VecTemp0"%string (cpp_names demo_translation)
  /\ exists s, subexpr s demo_tree /\ lookup_temp s demo_declared = Some "VecTemp0"%string.
Proof.
  assert (E : slate_to_cpp demo_tree demo_declared None = Ok demo_translation)
    by (vm_compute; reflexivity).
  assert (Hn : In "VecTemp0"%string (cpp_names demo_translation))
    by (vm_compute; tauto).
  split; [exact E|]. split; [exact Hn|].
  exact (symbols_are_declared_nodes demo_tree demo_declared None demo_translation _ E Hn).
Defined.

Lemma terminals_must_be_declared_witness :
  slate_to_cpp demo_tree demo_declared None = Ok demo_translation
  /\ subexpr demo_T1 demo_tree
  /\ exists t, subexpr demo_T1 t /\ subexpr t demo_tree /\ lookup_temp t demo_declared <> None.
Proof.
  assert (E : slate_to_cpp demo_tree demo_declared None = Ok demo_translation)
    by (vm_compute; reflexivity).
  assert (Hs : subexpr demo_T1 demo_tree) by (simpl; tauto).
  split; [exact E|]. split; [exact Hs|].
  exact (terminals_must_be_declared demo_tree demo_declared None demo_translation demo_T1
           E Hs eq_refl).
Defined.

Lemma more_temporaries_keep_success_witness :
  is_ok (slate_to_cpp demo_tree demo_declared None) = true
  /\ is_ok (slate_to_cpp demo_tree (snd demo_auxiliary) (Some 2)) = true.
Proof.
  assert (E : is_ok (slate_to_cpp demo_tree demo_declared None) = true)
    by (vm_compute; reflexivity).
  split; [exact E|].
  apply (more_temporaries_keep_success demo_tree demo_declared (snd demo_auxiliary)
           None (Some 2)); [|exact E].
  change (snd demo_auxiliary)
    with (demo_declared ++ [(demo_S, "auxT3"%string)]).
  apply declares_more_app.
Defined.

Lemma block_index_errors_witness :
  exists msg,
    slate_to_cpp (Block demo_block_attrs demo_big [[0]; [0]; [0]]) [] None
    = Raise (ValueError msg).
Proof.
  apply (block_index_errors demo_block_attrs demo_big [[0]; [0]; [0]] [] None eq_refl).
  right. simpl. lia.
Defined.

Lemma row_only_block_starts_at_column_zero_witness :
  exists operand rshape cshape rstart,
    value_of (slate_to_cpp demo_row_block [(demo_big, "T2"%string)] None) (CSym EmptyString)
    = parenthesize (CBlock demo_row_block operand rshape cshape rstart 0)
                   (prec demo_block_attrs) None
    /\ (rank demo_block_attrs <> 1 -> index (shape demo_block_attrs) 1 = Ok cshape).
Proof.
  apply (row_only_block_starts_at_column_zero demo_block_attrs demo_big [1; 2]
           [(demo_big, "T2"%string)] None); vm_compute; reflexivity.
Defined.

Lemma high_rank_temporary_aborts_witness :
  exists msg,
    terminal_temporaries (rank3_builder_for demo_expr) [] = Raise (NotImplementedError msg)
    /\ @generate_kernel rank3_demo demo_expr demo_params = Raise (NotImplementedError msg).
Proof.
  apply (@high_rank_temporary_aborts rank3_demo demo_expr demo_params
           (rank3_builder_for demo_expr)).
  - reflexivity.
  - simpl. lia.
  - reflexivity.
  - apply Exists_cons_tl, Exists_cons_hd. simpl. lia.
Defined.

Lemma terminal_temporaries_declares_temps_witness :
  terminal_temporaries demo_builder []
  = Ok ([ast.FlatBlock (Comment "/* Declare and initialize */");
         ast.Decl (plain_decl "Eigen::Matrix<double, 3, 3, Eigen::RowMajor>" "T0");
         ast.FlatBlock (SetZero "T0");
         ast.Decl (plain_decl "Eigen::Matrix<double, 3, 3, Eigen::RowMajor>" "T1");
         ast.FlatBlock (SetZero "T1")], temps demo_builder).
Proof.
  destruct (terminal_temporaries_declares_temps demo_builder)
    as (stmts & tys & Ht & _ & _ & Htys & Hstmts).
  - repeat constructor; simpl; intros Hin; decompose [or] Hin; discriminate || contradiction.
  - repeat constructor; simpl; lia.
  - rewrite Ht. f_equal. f_equal. rewrite Hstmts.
    inversion Htys as [|kv0 ty0 l0 tys0 Hty0 Htys0]; subst.
    inversion Htys0 as [|kv1 ty1 l1 tys1 Hty1 Htys1]; subst.
    inversion Htys1; subst.
    vm_compute in Hty0. injection Hty0 as <-.
    vm_compute in Hty1. injection Hty1 as <-.
    reflexivity.
Defined.

Lemma auxiliary_names_are_fresh_witness :
  @auxiliary_expressions demo demo_builder demo_declared
  = Ok (fst demo_auxiliary, snd demo_auxiliary)
  /\ exists new,
       snd demo_auxiliary = demo_declared ++ new
       /\ (forall i x t, nth_error new i = Some (x, t) ->
             t = auxiliary_name x (length demo_declared + i)
             /\ lookup_temp x demo_declared = None)
       /\ List.NoDup (map fst new)
       /\ List.NoDup (map snd new)
       /\ (forall t n, In t (map snd new) ->
             t <> ("T" ++ fmt_d n)%string /\ t <> ("A" ++ fmt_d n)%string).
Proof.
  assert (E : @auxiliary_expressions demo demo_builder demo_declared
              = Ok (fst demo_auxiliary, snd demo_auxiliary))
    by (vm_compute; reflexivity).
  split; [exact E|].
  exact (@auxiliary_names_are_fresh demo demo_builder demo_declared _ _ E).
Defined.

Lemma coefficient_loops_are_flat_witness :
  coefficient_temporaries demo_builder demo_terminals
  = Ok (fst demo_coefficient_temps, snd demo_coefficient_temps)
  /\ expected_loops demo_builder = Ok (loops_of (fst demo_coefficient_temps)).
Proof.
  assert (E : coefficient_temporaries demo_builder demo_terminals
              = Ok (fst demo_coefficient_temps, snd demo_coefficient_temps))
    by (vm_compute; reflexivity).
  split; [exact E|].
  exact (coefficient_loops_are_flat demo_builder demo_terminals _ _ E).
Defined.

Lemma coefficient_vectors_declared_once_witness :
  coefficient_temporaries demo_builder demo_terminals
  = Ok (fst demo_coefficient_temps, snd demo_coefficient_temps)
  /\ exists new,
       snd demo_coefficient_temps = demo_terminals ++ new
       /\ declared_names (fst demo_coefficient_temps) = map snd new
       /\ List.NoDup (map fst new)
       /\ (forall v t, In (v, t) new ->
             lookup_temp v demo_terminals = None
             /\ exists ci, In ci (flat_map snd (coefficient_vecs demo_builder))
                           /\ v = vector ci /\ t = local_temp ci)
       /\ (forall ci, In ci (flat_map snd (coefficient_vecs demo_builder)) ->
             lookup_temp (vector ci) (snd demo_coefficient_temps) <> None).
Proof.
  assert (E : coefficient_temporaries demo_builder demo_terminals
              = Ok (fst demo_coefficient_temps, snd demo_coefficient_temps))
    by (vm_compute; reflexivity).
  split; [exact E|].
  exact (coefficient_vectors_declared_once demo_builder demo_terminals _ _ E).
Defined.

Lemma assembly_calls_in_order_witness :
  exists stmts,
    tensor_assembly_calls demo_builder = Ok stmts
    /\ exec_block (kernel_env demo_builder demo_markers 2) stmts
       = Some (cell (assembly_calls demo_builder)
               ++ flat_map (calls_for_facet demo_builder) demo_markers
               ++ top_calls demo_builder).
Proof.
  apply (assembly_calls_in_order demo_builder demo_domain demo_markers 2).
  - reflexivity.
  - repeat constructor.
  - reflexivity.
Defined.

Lemma kernel_calls_are_assembly_calls_witness :
  exists stmts,
    tensor_assembly_calls demo_builder = Ok stmts
    /\ forall ρ, exec_block ρ (kernel_body demo_kernel) = exec_block ρ stmts.
Proof.
  apply (@kernel_calls_are_assembly_calls demo demo_expr demo_params demo_kernel demo_builder).
  - vm_compute. reflexivity.
  - reflexivity.
Defined.

Lemma failed_compilation_is_retried_witness :
  exists x st1 st2,
    @compile_expression demo (PyTensor mixed_expr) None true initial_state = (Raise x, st1)
    /\ @compile_expression demo (PyTensor mixed_expr) None true st1 = (Raise x, st2)
    /\ caches st2 = caches initial_state
    /\ length (runs st2) = 2.
Proof.
  assert (E : @compile_expression demo (PyTensor mixed_expr) None true initial_state
              = (Raise (NotImplementedError mixed_msg),
                 snd (@compile_expression demo (PyTensor mixed_expr) None true initial_state)))
    by (vm_compute; reflexivity).
  destruct (@failed_compilation_is_retried demo mixed_expr None true initial_state _ _ E)
    as (_ & Hr1 & st2 & E2 & Hc2 & Hr2).
  eexists. eexists. exists st2. split; [exact E|]. split; [exact E2|].
  split; [exact Hc2|]. rewrite Hr2, Hr1. reflexivity.
Defined.

Lemma loopy_coefficients_are_numbered_witness :
  @gem_to_loopy_args demo tt (demo_loopy_builder_for demo_expr) = Ok demo_loopy_args
  /\ exists before coeffs after fns,
       demo_loopy_args = before ++ coeffs ++ after
       /\ result_map (fun ci => function_of (vector ci))
            (flat_map snd (l_coefficient_vecs (demo_loopy_builder_for demo_expr)))
          = Ok fns
       /\ map la_name (List.filter coeff_named coeffs)
          = map (fun k => ("coeff" ++ fmt_d k)%string)
                (seq 0 (list_sum (map (fun c => length (indices_of c fns))
                                      (coefficients
                                         (l_expression (demo_loopy_builder_for demo_expr))))))
       /\ Forall (fun a => coeff_named a = true -> la_kind a = GlobalArg) coeffs.
Proof.
  assert (E : @gem_to_loopy_args demo tt (demo_loopy_builder_for demo_expr)
              = Ok demo_loopy_args) by reflexivity.
  split; [exact E|].
  exact (@loopy_coefficients_are_numbered demo tt (demo_loopy_builder_for demo_expr)
           demo_loopy_args E).
Defined.

Lemma loopy_coords_extent_witness :
  @output_index demo tt (demo_loopy_builder_for demo_expr) = Ok ["i"%string]
  /\ forall args,
       @gem_to_loopy_args demo tt (demo_loopy_builder_for demo_expr) = Ok args ->
       In (mk_loopy_arg GlobalArg "coords" [6] "double") args.
Proof.
  assert (Hidx : @output_index demo tt (demo_loopy_builder_for demo_expr)
                 = Ok ["i"%string]) by reflexivity.
  split; [exact Hidx|].
  destruct (@loopy_coords_extent demo tt (demo_loopy_builder_for demo_expr) _ _
              eq_refl Hidx) as [Hne _].
  apply Hne. discriminate.
Defined.


Lemma scalar_result_is_one_by_one_witness :
  exists n,
    In (ast.FlatBlock (EigenMap "Eigen::Map<Eigen::Matrix<double, 1, 1> >"
                                ("T" ++ fmt_d n) (@ScalarType_c demo) ("A" ++ fmt_d n)))
       (kernel_body scalar_kernel)
    /\ hd_error (kernel_arg_names scalar_kernel) = Some ("A" ++ fmt_d n)%string.
Proof.
  apply (@scalar_result_is_one_by_one demo scalar_expr demo_params scalar_kernel
           (demo_builder_for scalar_expr)).
  - vm_compute. reflexivity.
  - reflexivity.
  - reflexivity.
Defined.
